(** * CPU scheduling simulation: FCFS, SJF, SRTF and Round Robin

    A shallow embedding of [common.c], [fcfs.c], [sjf.c], [rr.c] and
    [main.c], followed by the properties of the schedulers.

    Conventions of the embedding.
    - A C [int] is a [Z].  The schedulers are written twice.  The
      definitions of this part compute the times as exact integers, which
      is what the program computes as long as no result leaves the range
      of an [int]; they carry the loop invariants and the properties that
      do not depend on the range.  Module [Int32] has the same functions
      with every [int] operation reduced to 32 bits, as the compiled
      program computes them where the exact result does not fit (signed
      overflow is undefined in C).  The two agree on the process sets
      whose latest arrival time plus the sum of the burst times fits an
      [int], and the properties of the recorded times are stated of
      [Int32].  [INT_MAX], which [sjf.c] uses as the initial value of its
      minimum searches, is the 32-bit one.
    - The process array is a [list Process] and [n] is its length.
    - The [float] sums of [calculate_metrics] are exact integers and the
      averages exact rationals; rounding is not modelled, and neither is
      the division by [n = 0].  No theorem states the value of an
      average.
    - [malloc] and [calloc] succeed; the failure branches only return early.
    - [qsort] is the C library's: any function that returns a permutation of
      the array ordered by the comparator, and that calls the comparator
      on elements of the array only.  It is a parameter of the
      schedulers, and nothing is assumed about the order of equal keys.
    - A [while] loop runs on fuel.  A run that has not left the loop when
      the fuel is spent is [OutOfFuel]; a run that would read or write
      outside an array is [Fault].
    - A file is the string of its characters; [fgets], [strtok] and
      [strncpy] are written out, [atoi] is a parameter of
      [read_processes], and the memory [malloc] returns holds arbitrary
      processes. *)

From Stdlib Require Import ZArith QArith Sorted Permutation Lia.
From stdpp Require Import base list strings.

Local Open Scope Z_scope.

(** ** common.h *)

Record Process := {
  id : string;
  arrival_time : Z;
  burst_time : Z;
  priority : Z;
  remaining_time : Z;
  completion_time : Z;
  turnaround_time : Z;
  waiting_time : Z;
  response_time : Z;
  started : bool
}.

Record Metrics := {
  avg_turnaround_time : Q;
  avg_waiting_time : Q;
  avg_response_time : Q
}.

Definition INT_MAX : Z := 2147483647.

(** Assignments to one field of a [Process]. *)

Definition set_remaining_time (v : Z) (p : Process) : Process :=
  {| id := id p; arrival_time := arrival_time p; burst_time := burst_time p;
     priority := priority p; remaining_time := v;
     completion_time := completion_time p;
     turnaround_time := turnaround_time p; waiting_time := waiting_time p;
     response_time := response_time p; started := started p |}.

Definition set_completion_time (v : Z) (p : Process) : Process :=
  {| id := id p; arrival_time := arrival_time p; burst_time := burst_time p;
     priority := priority p; remaining_time := remaining_time p;
     completion_time := v;
     turnaround_time := turnaround_time p; waiting_time := waiting_time p;
     response_time := response_time p; started := started p |}.

Definition set_turnaround_time (v : Z) (p : Process) : Process :=
  {| id := id p; arrival_time := arrival_time p; burst_time := burst_time p;
     priority := priority p; remaining_time := remaining_time p;
     completion_time := completion_time p;
     turnaround_time := v; waiting_time := waiting_time p;
     response_time := response_time p; started := started p |}.

Definition set_waiting_time (v : Z) (p : Process) : Process :=
  {| id := id p; arrival_time := arrival_time p; burst_time := burst_time p;
     priority := priority p; remaining_time := remaining_time p;
     completion_time := completion_time p;
     turnaround_time := turnaround_time p; waiting_time := v;
     response_time := response_time p; started := started p |}.

Definition set_response_time (v : Z) (p : Process) : Process :=
  {| id := id p; arrival_time := arrival_time p; burst_time := burst_time p;
     priority := priority p; remaining_time := remaining_time p;
     completion_time := completion_time p;
     turnaround_time := turnaround_time p; waiting_time := waiting_time p;
     response_time := v; started := started p |}.

Definition set_started (v : bool) (p : Process) : Process :=
  {| id := id p; arrival_time := arrival_time p; burst_time := burst_time p;
     priority := priority p; remaining_time := remaining_time p;
     completion_time := completion_time p;
     turnaround_time := turnaround_time p; waiting_time := waiting_time p;
     response_time := response_time p; started := v |}.

(** The fields [read_processes] parses from a row, and the record it
    builds from them. *)

Definition static_fields (p : Process) : string * Z * Z * Z :=
  (id p, arrival_time p, burst_time p, priority p).

Definition new_process (name : string) (arrival burst prio : Z) : Process :=
  {| id := name; arrival_time := arrival; burst_time := burst;
     priority := prio; remaining_time := burst; completion_time := 0;
     turnaround_time := 0; waiting_time := 0; response_time := -1;
     started := false |}.

(** ** common.c: calculate_metrics *)

(** One iteration of the loop of [calculate_metrics] on [processes[i]]. *)
Definition metrics_step (p : Process) : Process :=
  let p := set_turnaround_time (completion_time p - arrival_time p) p in
  set_waiting_time (turnaround_time p - burst_time p) p.

(** The loop: the array after it, and the three totals. *)
Fixpoint metrics_loop (processes : list Process)
  (total_turnaround total_waiting total_response : Z)
  : list Process * (Z * Z * Z) :=
  match processes with
  | [] => ([], (total_turnaround, total_waiting, total_response))
  | p :: rest =>
    let p := metrics_step p in
    let '(rest, totals) :=
      metrics_loop rest (total_turnaround + turnaround_time p)
        (total_waiting + waiting_time p)
        (total_response + response_time p) in
    (p :: rest, totals)
  end.

(** [calculate_metrics] writes into the array it is given: the result is
    the array after the call together with the returned [Metrics]. *)
Definition calculate_metrics (processes : list Process)
  : list Process * Metrics :=
  let n := inject_Z (Z.of_nat (length processes)) in
  let '(processes, (total_turnaround, total_waiting, total_response)) :=
    metrics_loop processes 0 0 0 in
  (processes,
   {| avg_turnaround_time := (inject_Z total_turnaround / n)%Q;
      avg_waiting_time := (inject_Z total_waiting / n)%Q;
      avg_response_time := (inject_Z total_response / n)%Q |}).

(** ** Loops *)

Inductive outcome (A : Type) : Type :=
| Returned (a : A)
| OutOfFuel
| Fault.
Arguments Returned {A} a.
Arguments OutOfFuel {A}.
Arguments Fault {A}.

(** What one run of a loop body does: go to the next test of the condition
    ([continue] or the end of the body), [break], or fault. *)
Inductive flow (St : Type) : Type :=
| Next (s : St)
| Break (s : St)
| Abort.
Arguments Next {St} s.
Arguments Break {St} s.
Arguments Abort {St}.

Fixpoint while {St : Type} (cond : St -> bool) (body : St -> flow St)
  (fuel : nat) (s : St) : outcome St :=
  if cond s then
    match fuel with
    | O => OutOfFuel
    | S fuel =>
      match body s with
      | Next s' => while cond body fuel s'
      | Break s' => Returned s'
      | Abort => Fault
      end
    end
  else Returned s.

Definition outcome_map {A B : Type} (f : A -> B) (o : outcome A) : outcome B :=
  match o with
  | Returned a => Returned (f a)
  | OutOfFuel => OutOfFuel
  | Fault => Fault
  end.

(** ** The comparator shared by fcfs.c, sjf.c and rr.c *)

Definition compare_arrival_time (p1 p2 : Process) : Z :=
  arrival_time p1 - arrival_time p2.

(** ** fcfs.c *)

(** The [for] loop of [fcfs_schedule], from index [i] on: [processes] is
    the part of the array that is still to be run. *)
Fixpoint fcfs_loop (processes : list Process) (current_time : Z)
  : list Process :=
  match processes with
  | [] => []
  | p :: rest =>
    let current_time :=
      if current_time <? arrival_time p then arrival_time p
      else current_time in
    let p := set_response_time (current_time - arrival_time p) p in
    let p := set_started true p in
    let current_time := current_time + burst_time p in
    let p := set_completion_time current_time p in
    let p := set_remaining_time 0 p in
    p :: fcfs_loop rest current_time
  end.

(** ** sjf.c *)

Record sjf_state := {
  sjf_processes : list Process;
  sjf_is_completed : list bool;
  sjf_current_time : Z;
  sjf_completed : nat
}.

(** The search loop of both SJF schedulers, from index [i] on; [key] is
    [burst_time] in the non-preemptive scheduler and [remaining_time] in
    the preemptive one.  [None] is the index [-1]. *)
Fixpoint find_shortest (key : Process -> Z) (processes : list Process)
  (is_completed : list bool) (current_time : Z) (i : nat)
  (shortest_job_idx : option nat) (shortest : Z) : option nat :=
  match processes, is_completed with
  | p :: processes, c :: is_completed =>
    if negb c && (arrival_time p <=? current_time) && (key p <? shortest)
    then find_shortest key processes is_completed current_time (S i)
           (Some i) (key p)
    else find_shortest key processes is_completed current_time (S i)
           shortest_job_idx shortest
  | _, _ => shortest_job_idx
  end.

(** The loop that looks for the next arrival when nothing can run. *)
Fixpoint find_next_arrival (processes : list Process)
  (is_completed : list bool) (next_arrival_time : Z) : Z :=
  match processes, is_completed with
  | p :: processes, c :: is_completed =>
    if negb c && (arrival_time p <? next_arrival_time)
    then find_next_arrival processes is_completed (arrival_time p)
    else find_next_arrival processes is_completed next_arrival_time
  | _, _ => next_arrival_time
  end.

Definition sjf_cond (n : nat) (st : sjf_state) : bool :=
  (sjf_completed st <? n)%nat.

Definition sjf_idle (st : sjf_state) : sjf_state :=
  {| sjf_processes := sjf_processes st;
     sjf_is_completed := sjf_is_completed st;
     sjf_current_time :=
       find_next_arrival (sjf_processes st) (sjf_is_completed st) INT_MAX;
     sjf_completed := sjf_completed st |}.

(** Body of the [while] loop of [sjf_non_preemptive_schedule]. *)
Definition sjf_non_preemptive_body (st : sjf_state) : flow sjf_state :=
  match find_shortest burst_time (sjf_processes st) (sjf_is_completed st)
          (sjf_current_time st) 0 None INT_MAX with
  | None => Next (sjf_idle st)
  | Some shortest_job_idx =>
    match sjf_processes st !! shortest_job_idx with
    | None => Abort
    | Some p =>
      let current_time := sjf_current_time st in
      let p := set_response_time (current_time - arrival_time p) p in
      let p := set_started true p in
      let current_time := current_time + burst_time p in
      let p := set_completion_time current_time p in
      let p := set_remaining_time 0 p in
      Next {| sjf_processes := <[shortest_job_idx := p]> (sjf_processes st);
              sjf_is_completed :=
                <[shortest_job_idx := true]> (sjf_is_completed st);
              sjf_current_time := current_time;
              sjf_completed := S (sjf_completed st) |}
    end
  end.

(** Body of the [while] loop of [sjf_preemptive_schedule]. *)
Definition sjf_preemptive_body (st : sjf_state) : flow sjf_state :=
  match find_shortest remaining_time (sjf_processes st) (sjf_is_completed st)
          (sjf_current_time st) 0 None INT_MAX with
  | None => Next (sjf_idle st)
  | Some shortest_job_idx =>
    match sjf_processes st !! shortest_job_idx with
    | None => Abort
    | Some p =>
      let current_time := sjf_current_time st in
      let p :=
        if started p then p
        else set_started true
               (set_response_time (current_time - arrival_time p) p) in
      let p := set_remaining_time (remaining_time p - 1) p in
      let current_time := current_time + 1 in
      if remaining_time p =? 0 then
        Next {| sjf_processes :=
                  <[shortest_job_idx := set_completion_time current_time p]>
                    (sjf_processes st);
                sjf_is_completed :=
                  <[shortest_job_idx := true]> (sjf_is_completed st);
                sjf_current_time := current_time;
                sjf_completed := S (sjf_completed st) |}
      else
        Next {| sjf_processes := <[shortest_job_idx := p]> (sjf_processes st);
                sjf_is_completed := sjf_is_completed st;
                sjf_current_time := current_time;
                sjf_completed := sjf_completed st |}
    end
  end.

Definition sjf_init (processes : list Process) : sjf_state :=
  {| sjf_processes := processes;
     sjf_is_completed := replicate (length processes) false;
     sjf_current_time := 0;
     sjf_completed := 0 |}.

(** ** rr.c *)

Record Queue := {
  data : list Z;
  capacity : Z;
  size : Z;
  front : Z;
  rear : Z
}.

(** The cells of [data] are not initialised by [create_queue]; a cell is
    read only after [enqueue] has written it. *)
Definition create_queue (capacity : Z) : Queue :=
  {| data := replicate (Z.to_nat capacity) 0;
     capacity := capacity; size := 0; front := 0; rear := -1 |}.

Definition is_empty (queue : Queue) : bool := size queue =? 0.

Definition is_full (queue : Queue) : bool := size queue =? capacity queue.

Definition enqueue (queue : Queue) (value : Z) : bool * Queue :=
  if is_full queue then (false, queue)
  else
    let rear := Z.rem (rear queue + 1) (capacity queue) in
    (true,
     {| data := <[Z.to_nat rear := value]> (data queue);
        capacity := capacity queue;
        size := size queue + 1;
        front := front queue;
        rear := rear |}).

(** [dequeue] returns [false] on an empty queue ([None]), and otherwise
    the value at the front and the queue without it.  [front] is an index
    of [data] in every queue the scheduler builds ([queue_wf] below); the
    total lookup reads 0 outside. *)
Definition dequeue (queue : Queue) : option (Z * Queue) :=
  if is_empty queue then None
  else
    Some (data queue !!! Z.to_nat (front queue),
          {| data := data queue;
             capacity := capacity queue;
             size := size queue - 1;
             front := Z.rem (front queue + 1) (capacity queue);
             rear := rear queue |}).

Record rr_state := {
  rr_processes : list Process;
  rr_ready_queue : Queue;
  rr_current_time : Z;
  rr_completed : nat;
  rr_next_arrival_idx : nat
}.

(** The inner loop that enqueues the processes that have arrived by
    [current_time]; [arriving] is the array from [next_arrival_idx] on. *)
Fixpoint enqueue_arrivals (arriving : list Process) (current_time : Z)
  (ready_queue : Queue) (next_arrival_idx : nat) : Queue * nat :=
  match arriving with
  | p :: arriving =>
    if arrival_time p <=? current_time then
      enqueue_arrivals arriving current_time
        (snd (enqueue ready_queue (Z.of_nat next_arrival_idx)))
        (S next_arrival_idx)
    else (ready_queue, next_arrival_idx)
  | [] => (ready_queue, next_arrival_idx)
  end.

Definition rr_cond (n : nat) (st : rr_state) : bool :=
  (rr_completed st <? n)%nat.

(** Body of the [while] loop of [rr_schedule].  The array [arrival_index]
    of the source is written once and never read, and is left out. *)
Definition rr_body (time_quantum : Z) (st : rr_state) : flow rr_state :=
  let processes := rr_processes st in
  let current_time := rr_current_time st in
  let '(ready_queue, next_arrival_idx) :=
    enqueue_arrivals (drop (rr_next_arrival_idx st) processes) current_time
      (rr_ready_queue st) (rr_next_arrival_idx st) in
  if is_empty ready_queue then
    match processes !! next_arrival_idx with
    | Some p =>
      Next {| rr_processes := processes;
              rr_ready_queue := ready_queue;
              rr_current_time := arrival_time p;
              rr_completed := rr_completed st;
              rr_next_arrival_idx := next_arrival_idx |}
    | None =>
      Break {| rr_processes := processes;
               rr_ready_queue := ready_queue;
               rr_current_time := current_time;
               rr_completed := rr_completed st;
               rr_next_arrival_idx := next_arrival_idx |}
    end
  else
    match dequeue ready_queue with
    | None => Abort
    | Some (process_idx, ready_queue) =>
      if process_idx <? 0 then Abort
      else
        let process_idx := Z.to_nat process_idx in
        match processes !! process_idx with
        | None => Abort
        | Some p =>
          let p :=
            if started p then p
            else set_started true
                   (set_response_time (current_time - arrival_time p) p) in
          let execution_time :=
            if remaining_time p <? time_quantum then remaining_time p
            else time_quantum in
          let p := set_remaining_time (remaining_time p - execution_time) p in
          let current_time := current_time + execution_time in
          let processes := <[process_idx := p]> processes in
          let '(ready_queue, next_arrival_idx) :=
            enqueue_arrivals (drop next_arrival_idx processes) current_time
              ready_queue next_arrival_idx in
          if remaining_time p =? 0 then
            Next {| rr_processes :=
                      <[process_idx := set_completion_time current_time p]>
                        processes;
                    rr_ready_queue := ready_queue;
                    rr_current_time := current_time;
                    rr_completed := S (rr_completed st);
                    rr_next_arrival_idx := next_arrival_idx |}
          else
            Next {| rr_processes := processes;
                    rr_ready_queue :=
                      snd (enqueue ready_queue (Z.of_nat process_idx));
                    rr_current_time := current_time;
                    rr_completed := rr_completed st;
                    rr_next_arrival_idx := next_arrival_idx |}
        end
    end.

Definition rr_init (processes : list Process) : rr_state :=
  {| rr_processes := processes;
     rr_ready_queue := create_queue (Z.of_nat (length processes) * 100);
     rr_current_time := 0;
     rr_completed := 0;
     rr_next_arrival_idx := 0 |}.

(** ** main.c: the [-q] option *)




(** ** The four schedulers *)

Section Schedulers.

Variable qsort : (Process -> Process -> Z) -> list Process -> list Process.

Definition fcfs_schedule (processes : list Process)
  : list Process * Metrics :=
  let processes := qsort compare_arrival_time processes in
  calculate_metrics (fcfs_loop processes 0).

Definition sjf_non_preemptive_schedule (fuel : nat)
  (processes : list Process) : outcome (list Process * Metrics) :=
  let processes := qsort compare_arrival_time processes in
  outcome_map (fun st => calculate_metrics (sjf_processes st))
    (while (sjf_cond (length processes)) sjf_non_preemptive_body fuel
       (sjf_init processes)).

Definition sjf_preemptive_schedule (fuel : nat)
  (processes : list Process) : outcome (list Process * Metrics) :=
  let processes := qsort compare_arrival_time processes in
  outcome_map (fun st => calculate_metrics (sjf_processes st))
    (while (sjf_cond (length processes)) sjf_preemptive_body fuel
       (sjf_init processes)).

Definition rr_schedule (fuel : nat) (processes : list Process)
  (time_quantum : Z) : outcome (list Process * Metrics) :=
  let processes := qsort compare_arrival_time processes in
  outcome_map (fun st => calculate_metrics (rr_processes st))
    (while (rr_cond (length processes)) (rr_body time_quantum) fuel
       (rr_init processes)).

End Schedulers.

(** An insertion sort, one function that does what [qsort] is assumed to
    do; the concrete runs below use it. *)
Fixpoint insert_sorted (cmp : Process -> Process -> Z) (p : Process)
  (l : list Process) : list Process :=
  match l with
  | [] => [p]
  | q :: l' => if cmp p q <? 0 then p :: l else q :: insert_sorted cmp p l'
  end.

Fixpoint insertion_sort (cmp : Process -> Process -> Z) (l : list Process)
  : list Process :=
  match l with
  | [] => []
  | p :: l' => insert_sorted cmp p (insertion_sort cmp l')
  end.

(** ** Predicates of the statements *)

(** A process as [read_processes] hands it to a scheduler, with the
    ranges the data model gives to the arrival and the burst time. *)
Definition well_formed (p : Process) : Prop :=
  0 <= arrival_time p /\ 0 < burst_time p /\
  remaining_time p = burst_time p.

(** The values an [int] field can hold short of the initial value of the
    minimum searches of [sjf.c]. *)
Definition below_INT_MAX (p : Process) : Prop :=
  arrival_time p <= INT_MAX /\ burst_time p < INT_MAX.

Definition finished (p : Process) : Prop :=
  remaining_time p = 0 /\ arrival_time p <= completion_time p.

Definition arrival_le (p1 p2 : Process) : Prop :=
  arrival_time p1 <= arrival_time p2.

(** Number of entries of a list that pass a test. *)
Fixpoint count_if {A : Type} (f : A -> bool) (l : list A) : nat :=
  match l with
  | [] => O
  | x :: l => ((if f x then 1 else 0) + count_if f l)%nat
  end.

Definition total_remaining (processes : list Process) : Z :=
  foldr (fun p acc => remaining_time p + acc) 0 processes.

(** What [qsort] with [compare_arrival_time] leaves: no process is
    followed by one the comparator puts before it. *)
Definition compare_le (p1 p2 : Process) : Prop :=
  compare_arrival_time p1 p2 <= 0.

(** ** Invariants of the loops of sjf.c *)

(** [processes[j]] can be chosen at [current_time]. *)
Definition eligible (processes : list Process) (is_completed : list bool)
  (current_time : Z) (j : nat) (p : Process) : Prop :=
  processes !! j = Some p /\ is_completed !! j = Some false /\
  arrival_time p <= current_time.

(** The states of the two SJF loops on the sorted array [sorted]: [U]
    holds of the processes not yet marked completed and [D] of the
    others. *)
Definition sjf_inv (U D : Process -> Prop) (sorted : list Process)
  (st : sjf_state) : Prop :=
  map static_fields (sjf_processes st) = map static_fields sorted /\
  length (sjf_is_completed st) = length sorted /\
  sjf_completed st = count_if (fun c : bool => c) (sjf_is_completed st) /\
  forall i p (c : bool), sjf_processes st !! i = Some p ->
    sjf_is_completed st !! i = Some c -> if c then D p else U p.

(** States the loop of [sjf_non_preemptive_schedule] goes through. *)
Inductive sjf_non_preemptive_reachable (sorted : list Process)
  : sjf_state -> Prop :=
| sjf_np_reach_init :
    sjf_non_preemptive_reachable sorted (sjf_init sorted)
| sjf_np_reach_step st st' :
    sjf_non_preemptive_reachable sorted st ->
    sjf_cond (length sorted) st = true ->
    sjf_non_preemptive_body st = Next st' ->
    sjf_non_preemptive_reachable sorted st'.

(** A process that has not finished: some of its burst is left. *)
Definition unfinished (p : Process) : Prop :=
  0 < remaining_time p /\ remaining_time p <= burst_time p.

(** 1 when the search of the state finds nothing to run, else 0. *)
Definition sjf_idle_flag (key : Process -> Z) (st : sjf_state) : nat :=
  match find_shortest key (sjf_processes st) (sjf_is_completed st)
          (sjf_current_time st) 0 None INT_MAX with
  | Some _ => 0%nat
  | None => 1%nat
  end.

(** ** The ready queue of rr.c as a sequence *)

(** The values held by the circular buffer, from the front to the rear. *)
Definition queue_contents (queue : Queue) : list Z :=
  map (fun k =>
         data queue !!!
           Z.to_nat ((front queue + Z.of_nat k) mod capacity queue))
    (seq 0 (Z.to_nat (size queue))).

(** The buffers [create_queue], [enqueue] and [dequeue] produce. *)
Definition queue_wf (queue : Queue) : Prop :=
  0 < capacity queue /\
  length (data queue) = Z.to_nat (capacity queue) /\
  0 <= size queue <= capacity queue /\
  0 <= front queue < capacity queue /\
  -1 <= rear queue < capacity queue /\
  (rear queue + 1) mod capacity queue =
  (front queue + size queue) mod capacity queue.

(** ** Invariant of the loop of rr.c *)

(** The ready queue, seen as the sequence [ready], against the array:
    it holds, once each, the arrived processes that have burst time left,
    except the process [running] that was taken out to run. *)
Definition rr_ready (running : option nat) (processes : list Process)
  (ready : list Z) (next_arrival_idx : nat) (current_time : Z) : Prop :=
  NoDup ready /\
  (forall v, v ∈ ready ->
     exists i, v = Z.of_nat i /\ (i < next_arrival_idx)%nat /\
               Some i <> running) /\
  (forall i, running = Some i -> (i < next_arrival_idx)%nat) /\
  forall i p, processes !! i = Some p ->
    0 <= remaining_time p /\
    ((i < next_arrival_idx)%nat -> arrival_time p <= current_time) /\
    ((next_arrival_idx <= i)%nat -> 0 < remaining_time p) /\
    (Some i <> running -> (i < next_arrival_idx)%nat ->
       0 < remaining_time p -> Z.of_nat i ∈ ready) /\
    (Z.of_nat i ∈ ready -> 0 < remaining_time p) /\
    (Some i <> running -> remaining_time p = 0 ->
       arrival_time p <= completion_time p).

Definition rr_inv (sorted : list Process) (st : rr_state) : Prop :=
  map static_fields (rr_processes st) = map static_fields sorted /\
  queue_wf (rr_ready_queue st) /\
  capacity (rr_ready_queue st) = Z.of_nat (length sorted) * 100 /\
  (rr_next_arrival_idx st <= length sorted)%nat /\
  rr_ready None (rr_processes st) (queue_contents (rr_ready_queue st))
    (rr_next_arrival_idx st) (rr_current_time st) /\
  rr_completed st =
  count_if (fun p => remaining_time p =? 0) (rr_processes st).


(** 1 when no process is ready once the arrivals are enqueued, else 0. *)
Definition rr_idle_flag (st : rr_state) : nat :=
  if is_empty
       (fst (enqueue_arrivals
               (drop (rr_next_arrival_idx st) (rr_processes st))
               (rr_current_time st) (rr_ready_queue st)
               (rr_next_arrival_idx st)))
  then 1%nat else 0%nat.

(** Length of the slice [rr_schedule] gives to a process. *)
Definition execution_time (time_quantum : Z) (p : Process) : Z :=
  if remaining_time p <? time_quantum then remaining_time p
  else time_quantum.

(** ** Round Robin against FCFS *)

(** Value of [current_time] when the loop of [fcfs_schedule], entered at
    [current_time], has run the processes of the list. *)
Fixpoint fcfs_finish_time (processes : list Process) (current_time : Z) : Z :=
  match processes with
  | [] => current_time
  | p :: rest =>
    fcfs_finish_time rest
      ((if current_time <? arrival_time p then arrival_time p
        else current_time) + burst_time p)
  end.

(** States of the loop of [rr_schedule] when no burst exceeds the
    quantum: the first [rr_completed] processes have run, in the order of
    the array and at the times FCFS gives them, and the others wait in
    that order. *)
Definition rr_fcfs_inv (sorted : list Process) (st : rr_state) : Prop :=
  let k := rr_completed st in
  let finish := fcfs_finish_time (take k sorted) 0 in
  rr_inv sorted st /\
  (forall i p, (i < k)%nat -> rr_processes st !! i = Some p ->
     completion_time p = fcfs_finish_time (take (S i) sorted) 0) /\
  (forall i p, (k <= i)%nat -> rr_processes st !! i = Some p ->
     remaining_time p = burst_time p) /\
  (k <= rr_next_arrival_idx st)%nat /\
  queue_contents (rr_ready_queue st) =
  map Z.of_nat (seq k (rr_next_arrival_idx st - k)) /\
  finish <= rr_current_time st /\
  (finish < rr_current_time st ->
   rr_next_arrival_idx st = k /\
   exists p, sorted !! k = Some p /\ arrival_time p = rr_current_time st).

(** ** The scenario of the specification *)

Definition P1 : Process := new_process "P1" 0 5 0.
Definition P2 : Process := new_process "P2" 1 3 0.
Definition P3 : Process := new_process "P3" 2 8 0.

(** The states in which a loop enters its body, in order. *)
Fixpoint while_states {St : Type} (cond : St -> bool) (body : St -> flow St)
  (fuel : nat) (s : St) : list St :=
  if cond s then
    match fuel with
    | O => []
    | S fuel =>
      s :: match body s with
           | Next s' => while_states cond body fuel s'
           | _ => []
           end
    end
  else [].

(** The time of a state of the preemptive loop and the process its
    search picks there. *)
Definition sjf_preemptive_choice (st : sjf_state) : Z * option string :=
  (sjf_current_time st,
   match find_shortest remaining_time (sjf_processes st)
           (sjf_is_completed st) (sjf_current_time st) 0 None INT_MAX with
   | Some idx => id <$> sjf_processes st !! idx
   | None => None
   end).

(** A process that has completed but whose metrics are not yet
    computed. *)
Definition completed_P2 : Process :=
  {| id := "P2"; arrival_time := 1; burst_time := 3; priority := 0;
     remaining_time := 0; completion_time := 8; turnaround_time := 0;
     waiting_time := 0; response_time := 4; started := true |}.

Definition Zsum (l : list Z) : Z := foldr Z.add 0 l.

(** The one-process input with the largest burst time an [int] holds. *)
Definition longest_job : Process := new_process "A" 0 INT_MAX 0.

(** ** Sequences of queue operations *)

Inductive queue_op : Type :=
| Enqueue (value : Z)
| Dequeue.

(** What a call returns: the [bool] of [enqueue], or the [bool] of
    [dequeue] together with the value it stores ([None] for [false]). *)
Inductive queue_result : Type :=
| Enqueued (ok : bool)
| Dequeued (value : option Z).

Definition queue_step (op : queue_op) (queue : Queue)
  : queue_result * Queue :=
  match op with
  | Enqueue value =>
    let '(ok, queue) := enqueue queue value in (Enqueued ok, queue)
  | Dequeue =>
    match dequeue queue with
    | Some (value, queue) => (Dequeued (Some value), queue)
    | None => (Dequeued None, queue)
    end
  end.

Fixpoint queue_run (ops : list queue_op) (queue : Queue)
  : list queue_result * Queue :=
  match ops with
  | [] => ([], queue)
  | op :: ops =>
    let '(r, queue) := queue_step op queue in
    let '(rs, queue) := queue_run ops queue in
    (r :: rs, queue)
  end.

(** The same operations on a list that holds at most [bound] values. *)
Definition fifo_step (bound : nat) (op : queue_op) (l : list Z)
  : queue_result * list Z :=
  match op with
  | Enqueue value =>
    if (length l <? bound)%nat then (Enqueued true, l ++ [value])
    else (Enqueued false, l)
  | Dequeue =>
    match l with
    | [] => (Dequeued None, [])
    | value :: l => (Dequeued (Some value), l)
    end
  end.

Fixpoint fifo_run (bound : nat) (ops : list queue_op) (l : list Z)
  : list queue_result * list Z :=
  match ops with
  | [] => ([], l)
  | op :: ops =>
    let '(r, l) := fifo_step bound op l in
    let '(rs, l) := fifo_run bound ops l in
    (r :: rs, l)
  end.

(** A buffer of capacity 2 whose front and rear have gone round: it
    holds 8 in cell 1, and its next free cell is cell 0. *)
Definition wrapped_queue : Queue :=
  snd (queue_run [Enqueue 7; Enqueue 8; Dequeue] (create_queue 2)).

(** States the loop of [sjf_preemptive_schedule] goes through. *)
Inductive sjf_preemptive_reachable (sorted : list Process)
  : sjf_state -> Prop :=
| sjf_p_reach_init : sjf_preemptive_reachable sorted (sjf_init sorted)
| sjf_p_reach_step st st' :
    sjf_preemptive_reachable sorted st ->
    sjf_cond (length sorted) st = true ->
    sjf_preemptive_body st = Next st' ->
    sjf_preemptive_reachable sorted st'.

(** ** The time line of a run *)

(** A well-formed process that no scheduler has touched: [read_processes]
    clears [started]. *)
Definition fresh (p : Process) : Prop :=
  well_formed p /\ started p = false.

Definition total_burst (processes : list Process) : Z :=
  Zsum (map burst_time processes).

(** What the fields of a process say at [current_time]: before its first
    dispatch nothing of its burst is used; after it, the response time is
    the wait until that dispatch, and the processor time it has had since
    lies between the dispatch and now. *)
Definition served (current_time : Z) (p : Process) : Prop :=
  if started p then
    0 <= response_time p /\
    remaining_time p <= burst_time p /\
    arrival_time p + response_time p
      + (burst_time p - remaining_time p) <= current_time /\
    (remaining_time p = 0 ->
     arrival_time p + response_time p + burst_time p <= completion_time p)
  else remaining_time p = burst_time p.

(** The array and the clock of a scheduler, when no process arrives
    after [latest]: the clock has not passed [latest] by more than the
    processor time given so far. *)
Definition timeline_inv (latest : Z) (processes : list Process)
  (current_time : Z) : Prop :=
  current_time <=
    latest + (total_burst processes - total_remaining processes) /\
  Forall (fun p =>
            0 <= remaining_time p /\ served current_time p /\
            (started p = true -> remaining_time p = 0 ->
             completion_time p <= latest + total_burst processes))
    processes.

Definition latest_arrival (processes : list Process) : Z :=
  foldr (fun p latest => Z.max (arrival_time p) latest) 0 processes.

(** The fields of a process a scheduler has run to its end. *)
Definition accounted (latest total : Z) (p : Process) : Prop :=
  started p = true /\ 0 <= response_time p /\
  arrival_time p + response_time p + burst_time p <= completion_time p /\
  completion_time p <= latest + total.

(** ** Runs without preemption *)

(** The processor times of two processes that ran each in one piece,
    from [completion_time - burst_time] to [completion_time], do not
    overlap. *)
Definition disjoint_runs (p q : Process) : Prop :=
  completion_time p <= completion_time q - burst_time q \/
  completion_time q <= completion_time p - burst_time p.

(** The completed processes of a state of the non-preemptive SJF loop
    ran one after the other, and before the current time. *)
Definition sjf_sequential (st : sjf_state) : Prop :=
  (forall i p, sjf_processes st !! i = Some p ->
     sjf_is_completed st !! i = Some true ->
     completion_time p <= sjf_current_time st) /\
  (forall i j p q, i <> j ->
     sjf_processes st !! i = Some p -> sjf_processes st !! j = Some q ->
     sjf_is_completed st !! i = Some true ->
     sjf_is_completed st !! j = Some true ->
     disjoint_runs p q).

(** ** common.c: read_processes *)

(** A file is the string of its characters.  [fgets], [strtok] and
    [strncpy] are the C library's and are written out; [atoi] is a
    parameter of [read_processes].  A cell of the array [malloc] returns
    holds an arbitrary process until it is written; [malloc] succeeds,
    also for an array of no process. *)

Definition newline : Ascii.ascii := Ascii.ascii_of_nat 10.
Definition comma : Ascii.ascii := Ascii.ascii_of_nat 44.
Definition NUL : Ascii.ascii := Ascii.ascii_of_nat 0.

(** [fgets] with room for [n] characters: it stops after a newline, at
    the end of the file, or when the room is used up.  The result is the
    buffer and the rest of the file. *)
Fixpoint fgets_chars (n : nat) (stream : string) : string * string :=
  match n, stream with
  | O, _ => (EmptyString, stream)
  | S n, EmptyString => (EmptyString, EmptyString)
  | S n, String c rest =>
    if Ascii.eqb c newline then (String c EmptyString, rest)
    else let '(buffer, rest) := fgets_chars n rest in (String c buffer, rest)
  end.

(** [fgets(buffer, size, file)]: [None] is the null pointer it returns
    at the end of the file. *)
Definition fgets (size : nat) (stream : string) : option (string * string) :=
  match stream with
  | EmptyString => None
  | _ => Some (fgets_chars (size - 1) stream)
  end.

(** The buffers the loop [while (fgets(buffer, sizeof(buffer), file))]
    goes through, [buffer] having 256 characters. *)
Fixpoint fgets_loop (fuel : nat) (stream : string) : list string :=
  match fuel with
  | O => []
  | S fuel =>
    match fgets 256 stream with
    | None => []
    | Some (buffer, rest) => buffer :: fgets_loop fuel rest
    end
  end.

(** The characters of a buffer up to its first NUL: the C string the
    string functions see. *)
Fixpoint c_str (buffer : string) : string :=
  match buffer with
  | EmptyString => EmptyString
  | String c rest =>
    if Ascii.eqb c NUL then EmptyString else String c (c_str rest)
  end.

(** The tokens the calls [strtok(buffer, ",")], [strtok(NULL, ",")], ...
    return until the null pointer; [token] is the beginning of the token
    being read. *)
Fixpoint strtok_tokens (s : string) (token : string) : list string :=
  match s with
  | EmptyString =>
    match token with EmptyString => [] | _ => [token] end
  | String c rest =>
    if Ascii.eqb c comma then
      match token with
      | EmptyString => strtok_tokens rest EmptyString
      | _ => token :: strtok_tokens rest EmptyString
      end
    else strtok_tokens rest (token +:+ String c EmptyString)
  end.

(** [strncpy(p->id, token, 9)] followed by [p->id[9] = '\0']. *)
Definition strncpy_id (token : string) : string := String.substring 0 9 token.

Section ReadProcesses.

Variable atoi : string -> Z.

(** The body of the second loop of [read_processes] on the cell [p] of
    the array. *)
Definition parse_row (p : Process) (buffer : string) : Process :=
  let tokens := strtok_tokens (c_str buffer) EmptyString in
  let name :=
    match tokens !! 0%nat with Some token => strncpy_id token | None => id p end in
  let arrival :=
    match tokens !! 1%nat with
    | Some token => atoi token
    | None => arrival_time p
    end in
  let burst :=
    match tokens !! 2%nat with
    | Some token => atoi token
    | None => burst_time p
    end in
  let prio :=
    match tokens !! 3%nat with
    | Some token => atoi token
    | None => priority p
    end in
  {| id := name; arrival_time := arrival; burst_time := burst;
     priority := prio; remaining_time := burst; completion_time := 0;
     turnaround_time := 0; waiting_time := 0; response_time := -1;
     started := false |}.

(** The second loop, from index [i] on: it stops at [count] or when
    [fgets] finds the end of the file. *)
Fixpoint read_rows (memory : nat -> Process) (count : nat) (i : nat)
  (buffers : list string) : list Process :=
  match buffers with
  | [] => []
  | buffer :: buffers =>
    if (i <? count)%nat then
      parse_row (memory i) buffer :: read_rows memory count (S i) buffers
    else []
  end.

(** [read_processes]: [file] is [None] when [fopen] fails; the result is
    the returned number and the array.  Both passes skip the first buffer
    and then read the file to its end. *)
Definition read_processes (file : option string) (memory : nat -> Process)
  : Z * list Process :=
  match file with
  | None => (-1, [])
  | Some content =>
    let data :=
      match fgets 256 content with
      | Some (_, rest) => rest
      | None => EmptyString
      end in
    let count := length (fgets_loop (String.length data) data) in
    (Z.of_nat count,
     read_rows memory count 0 (fgets_loop (String.length data) data))
  end.

End ReadProcesses.

(** A line of a data file: no newline inside, and short enough to fit
    the buffer together with its newline. *)
Definition short_line (line : string) : Prop :=
  (String.length line <= 254)%nat /\
  Forall (fun c => c <> newline) (String.list_ascii_of_string line).

(** A field of a row has no comma and no NUL; a plain one is not empty
    either. *)
Definition clean_field (field : string) : Prop :=
  Forall (fun c => c <> comma /\ c <> NUL) (String.list_ascii_of_string field).

Definition plain_field (field : string) : Prop :=
  field <> EmptyString /\ clean_field field.

(** The text of a row: its fields with a comma between two of them. *)
Fixpoint row_text (fields : list string) : string :=
  match fields with
  | [] => EmptyString
  | [field] => field
  | field :: fields => field +:+ String comma (row_text fields)
  end.

(** The value [atoi] gives a decimal numeral that fits an [int]: white
    space is skipped, a sign is read, and the digits up to the first other
    character are the number.  It stands for [atoi] in the examples. *)
Definition is_space (c : Ascii.ascii) : bool :=
  let k := Ascii.nat_of_ascii c in
  ((9 <=? k)%nat && (k <=? 13)%nat) || (k =? 32)%nat.

Fixpoint skip_spaces (s : string) : string :=
  match s with
  | String c rest => if is_space c then skip_spaces rest else s
  | EmptyString => s
  end.

Fixpoint digits_value (s : string) (value : Z) : Z :=
  match s with
  | String c rest =>
    let k := Ascii.nat_of_ascii c in
    if ((48 <=? k)%nat && (k <=? 57)%nat)%bool
    then digits_value rest (10 * value + (Z.of_nat k - 48))
    else value
  | EmptyString => value
  end.

Definition atoi_decimal (s : string) : Z :=
  match skip_spaces s with
  | String c rest =>
    if (Ascii.nat_of_ascii c =? 45)%nat then - digits_value rest 0
    else if (Ascii.nat_of_ascii c =? 43)%nat then digits_value rest 0
    else digits_value (String c rest) 0
  | EmptyString => 0
  end.

(** The text of a file made of [lines], each closed by a newline, and of
    a [last] line that is not (it may be empty). *)
Definition lines_text (lines : list string) (last : string) : string :=
  foldr (fun line text => line +:+ String newline text) last lines.

Definition lines_buffers (lines : list string) (last : string) : list string :=
  map (fun line => line +:+ String newline EmptyString) lines ++
  match last with EmptyString => [] | _ => [last] end.

Definition concat_strings (buffers : list string) : string :=
  foldr String.append EmptyString buffers.

(** The state [read_processes] gives every process it reads. *)
Definition reset (p : Process) : Prop :=
  remaining_time p = burst_time p /\ completion_time p = 0 /\
  turnaround_time p = 0 /\ waiting_time p = 0 /\ response_time p = -1 /\
  started p = false.

(** A process that arrives after the clock has started, a cell of
    memory that has not been written, and a small data file. *)
Definition late_job : Process := new_process "A" 3 2 0.

Definition unwritten : Process :=
  {| id := "?"; arrival_time := 7; burst_time := 7; priority := 7;
     remaining_time := 7; completion_time := 7; turnaround_time := 7;
     waiting_time := 7; response_time := 7; started := true |}.

Definition file_header : string := "id,arrival_time,burst_time,priority".
Definition file_lines : list string := ["P1,0,5,0"; "P2,1,3,0"].
Definition file_last : string := "P3,2,8,0".

(** ** The schedulers in 32-bit arithmetic *)

(** The times of the schedulers are [int] values.  The definitions above
    compute them as exact integers, which is what the compiled program
    computes as long as no result leaves the range of an [int].  This
    module writes the same functions with every [int] operation reduced
    to 32 bits: signed overflow is undefined in C, and the program as
    compiled for a two's complement machine keeps the low 32 bits of the
    result.  The searches, the queue and the loops are those above; the
    fields [size], [front] and [rear] of the queue and the counters stay
    below the capacity and the number of processes.  The returned
    [Metrics], which are [float] averages, are left out: a scheduler here
    returns the array it leaves. *)
Module Int32.

Definition INT_MIN : Z := -2147483648.

Definition wrap (z : Z) : Z :=
  (z + 2147483648) mod 4294967296 - 2147483648.

Definition compare_arrival_time (p1 p2 : Process) : Z :=
  wrap (arrival_time p1 - arrival_time p2).

Definition metrics_step (p : Process) : Process :=
  let p :=
    set_turnaround_time (wrap (completion_time p - arrival_time p)) p in
  set_waiting_time (wrap (turnaround_time p - burst_time p)) p.

Fixpoint fcfs_loop (processes : list Process) (current_time : Z)
  : list Process :=
  match processes with
  | [] => []
  | p :: rest =>
    let current_time :=
      if current_time <? arrival_time p then arrival_time p
      else current_time in
    let p := set_response_time (wrap (current_time - arrival_time p)) p in
    let p := set_started true p in
    let current_time := wrap (current_time + burst_time p) in
    let p := set_completion_time current_time p in
    let p := set_remaining_time 0 p in
    p :: fcfs_loop rest current_time
  end.

Definition sjf_non_preemptive_body (st : sjf_state) : flow sjf_state :=
  match find_shortest burst_time (sjf_processes st) (sjf_is_completed st)
          (sjf_current_time st) 0 None INT_MAX with
  | None => Next (sjf_idle st)
  | Some shortest_job_idx =>
    match sjf_processes st !! shortest_job_idx with
    | None => Abort
    | Some p =>
      let current_time := sjf_current_time st in
      let p := set_response_time (wrap (current_time - arrival_time p)) p in
      let p := set_started true p in
      let current_time := wrap (current_time + burst_time p) in
      let p := set_completion_time current_time p in
      let p := set_remaining_time 0 p in
      Next {| sjf_processes := <[shortest_job_idx := p]> (sjf_processes st);
              sjf_is_completed :=
                <[shortest_job_idx := true]> (sjf_is_completed st);
              sjf_current_time := current_time;
              sjf_completed := S (sjf_completed st) |}
    end
  end.

Definition sjf_preemptive_body (st : sjf_state) : flow sjf_state :=
  match find_shortest remaining_time (sjf_processes st) (sjf_is_completed st)
          (sjf_current_time st) 0 None INT_MAX with
  | None => Next (sjf_idle st)
  | Some shortest_job_idx =>
    match sjf_processes st !! shortest_job_idx with
    | None => Abort
    | Some p =>
      let current_time := sjf_current_time st in
      let p :=
        if started p then p
        else set_started true
               (set_response_time (wrap (current_time - arrival_time p)) p) in
      let p := set_remaining_time (wrap (remaining_time p - 1)) p in
      let current_time := wrap (current_time + 1) in
      if remaining_time p =? 0 then
        Next {| sjf_processes :=
                  <[shortest_job_idx := set_completion_time current_time p]>
                    (sjf_processes st);
                sjf_is_completed :=
                  <[shortest_job_idx := true]> (sjf_is_completed st);
                sjf_current_time := current_time;
                sjf_completed := S (sjf_completed st) |}
      else
        Next {| sjf_processes := <[shortest_job_idx := p]> (sjf_processes st);
                sjf_is_completed := sjf_is_completed st;
                sjf_current_time := current_time;
                sjf_completed := sjf_completed st |}
    end
  end.

Definition rr_body (time_quantum : Z) (st : rr_state) : flow rr_state :=
  let processes := rr_processes st in
  let current_time := rr_current_time st in
  let '(ready_queue, next_arrival_idx) :=
    enqueue_arrivals (drop (rr_next_arrival_idx st) processes) current_time
      (rr_ready_queue st) (rr_next_arrival_idx st) in
  if is_empty ready_queue then
    match processes !! next_arrival_idx with
    | Some p =>
      Next {| rr_processes := processes;
              rr_ready_queue := ready_queue;
              rr_current_time := arrival_time p;
              rr_completed := rr_completed st;
              rr_next_arrival_idx := next_arrival_idx |}
    | None =>
      Break {| rr_processes := processes;
               rr_ready_queue := ready_queue;
               rr_current_time := current_time;
               rr_completed := rr_completed st;
               rr_next_arrival_idx := next_arrival_idx |}
    end
  else
    match dequeue ready_queue with
    | None => Abort
    | Some (process_idx, ready_queue) =>
      if process_idx <? 0 then Abort
      else
        let process_idx := Z.to_nat process_idx in
        match processes !! process_idx with
        | None => Abort
        | Some p =>
          let p :=
            if started p then p
            else set_started true
                   (set_response_time
                      (wrap (current_time - arrival_time p)) p) in
          let execution_time :=
            if remaining_time p <? time_quantum then remaining_time p
            else time_quantum in
          let p :=
            set_remaining_time (wrap (remaining_time p - execution_time)) p in
          let current_time := wrap (current_time + execution_time) in
          let processes := <[process_idx := p]> processes in
          let '(ready_queue, next_arrival_idx) :=
            enqueue_arrivals (drop next_arrival_idx processes) current_time
              ready_queue next_arrival_idx in
          if remaining_time p =? 0 then
            Next {| rr_processes :=
                      <[process_idx := set_completion_time current_time p]>
                        processes;
                    rr_ready_queue := ready_queue;
                    rr_current_time := current_time;
                    rr_completed := S (rr_completed st);
                    rr_next_arrival_idx := next_arrival_idx |}
          else
            Next {| rr_processes := processes;
                    rr_ready_queue :=
                      snd (enqueue ready_queue (Z.of_nat process_idx));
                    rr_current_time := current_time;
                    rr_completed := rr_completed st;
                    rr_next_arrival_idx := next_arrival_idx |}
        end
    end.

Definition rr_init (processes : list Process) : rr_state :=
  {| rr_processes := processes;
     rr_ready_queue := create_queue (wrap (Z.of_nat (length processes) * 100));
     rr_current_time := 0;
     rr_completed := 0;
     rr_next_arrival_idx := 0 |}.

(** States the two loops of [sjf.c] go through. *)
Inductive sjf_non_preemptive_reachable (sorted : list Process)
  : sjf_state -> Prop :=
| sjf_np_reach32_init :
    sjf_non_preemptive_reachable sorted (sjf_init sorted)
| sjf_np_reach32_step st st' :
    sjf_non_preemptive_reachable sorted st ->
    sjf_cond (length sorted) st = true ->
    sjf_non_preemptive_body st = Next st' ->
    sjf_non_preemptive_reachable sorted st'.

Inductive sjf_preemptive_reachable (sorted : list Process)
  : sjf_state -> Prop :=
| sjf_p_reach32_init : sjf_preemptive_reachable sorted (sjf_init sorted)
| sjf_p_reach32_step st st' :
    sjf_preemptive_reachable sorted st ->
    sjf_cond (length sorted) st = true ->
    sjf_preemptive_body st = Next st' ->
    sjf_preemptive_reachable sorted st'.

Section Schedulers.

Variable qsort : (Process -> Process -> Z) -> list Process -> list Process.

Definition fcfs_schedule (processes : list Process) : list Process :=
  let processes := qsort compare_arrival_time processes in
  map metrics_step (fcfs_loop processes 0).

Definition sjf_non_preemptive_schedule (fuel : nat)
  (processes : list Process) : outcome (list Process) :=
  let processes := qsort compare_arrival_time processes in
  outcome_map (fun st => map metrics_step (sjf_processes st))
    (while (sjf_cond (length processes)) sjf_non_preemptive_body fuel
       (sjf_init processes)).

Definition sjf_preemptive_schedule (fuel : nat)
  (processes : list Process) : outcome (list Process) :=
  let processes := qsort compare_arrival_time processes in
  outcome_map (fun st => map metrics_step (sjf_processes st))
    (while (sjf_cond (length processes)) sjf_preemptive_body fuel
       (sjf_init processes)).

Definition rr_schedule (fuel : nat) (processes : list Process)
  (time_quantum : Z) : outcome (list Process) :=
  let processes := qsort compare_arrival_time processes in
  outcome_map (fun st => map metrics_step (rr_processes st))
    (while (rr_cond (length processes)) (rr_body time_quantum) fuel
       (rr_init processes)).

End Schedulers.

End Int32.

(** The latest arrival time plus the sum of the burst times, which no
    clock of a run on a well-formed set exceeds, fits an [int]. *)
Definition clock_fits_int (processes : list Process) : Prop :=
  latest_arrival processes + total_burst processes <= INT_MAX.

(** The capacity [n * 100] of the ready queue fits an [int]. *)
Definition queue_fits_int (processes : list Process) : Prop :=
  Z.of_nat (length processes) * 100 <= INT_MAX.

(** Two processes that arrive while [longest_job] runs: the times of the
    three add up to more than an [int] holds. *)
Definition short_job : Process := new_process "B" 1 1 0.
Definition last_job : Process := new_process "C" 2 1 0.

(** ** main.c *)






Section Main.

Variable atoi : string -> Z.
Variable qsort : (Process -> Process -> Z) -> list Process -> list Process.
(** The file of each name, [None] when [fopen] fails, and the memory
    [malloc] returns. *)
Variable files : string -> option string.
Variable memory : nat -> Process.





End Main.

(** ** Process sets for the searches *)

(** Four processes of which two have the least burst time, and three of
    which two have the least remaining time once the first has run for
    one unit. *)
Definition tied_bursts : list Process :=
  [new_process "U1" 0 4 0; new_process "U2" 1 3 0; new_process "U3" 2 5 0;
   new_process "U4" 3 3 0].

Definition tied_remaining : list Process :=
  [new_process "V1" 0 3 0; new_process "V2" 1 2 0; new_process "V3" 1 9 0].

(** The two differences [calculate_metrics] computes for a process fit
    an [int]. *)
Definition metrics_fit_int (p : Process) : Prop :=
  Int32.INT_MIN <= completion_time p - arrival_time p <= INT_MAX /\
  Int32.INT_MIN <= completion_time p - arrival_time p - burst_time p
    <= INT_MAX.

(** * Properties *)

(** ** Loops *)

Section While.
Context {St : Type} (cond : St -> bool) (body : St -> flow St).

Lemma while_cond_false fuel s :
  cond s = false -> while cond body fuel s = Returned s.
Proof. intros H. destruct fuel; simpl; by rewrite H. Qed.

Lemma while_fuel_mono fuel fuel' s r :
  while cond body fuel s = Returned r -> (fuel <= fuel')%nat ->
  while cond body fuel' s = Returned r.
Proof.
  revert fuel' s. induction fuel as [|fuel IH]; intros fuel' s Hw Hle; simpl in Hw.
  - destruct fuel'; simpl; destruct (cond s); congruence.
  - destruct fuel' as [|fuel']; [lia|]. simpl.
    destruct (cond s); [|done].
    destruct (body s); try done. apply IH; [done|lia].
Qed.

Lemma while_partial (Inv Post : St -> Prop) :
  (forall s, Inv s -> cond s = false -> Post s) ->
  (forall s s', Inv s -> cond s = true -> body s = Break s' -> Post s') ->
  (forall s s', Inv s -> cond s = true -> body s = Next s' -> Inv s') ->
  forall fuel s r, Inv s -> while cond body fuel s = Returned r -> Post r.
Proof.
  intros Hexit Hbreak Hstep fuel.
  induction fuel as [|fuel IH]; intros s r Hinv Hw; simpl in Hw.
  - destruct (cond s) eqn:Hc; [done|]. injection Hw as <-. by apply Hexit.
  - destruct (cond s) eqn:Hc.
    + destruct (body s) as [s'|s'|] eqn:Hb; [| |done].
      * eapply IH; [|done]. by eapply Hstep.
      * injection Hw as <-. by eapply Hbreak.
    + injection Hw as <-. by apply Hexit.
Qed.

Lemma while_total (Inv : St -> Prop) (mu : St -> nat) :
  (forall s, Inv s -> cond s = true ->
     exists s', body s = Next s' /\ Inv s' /\ (mu s' < mu s)%nat) ->
  forall s, Inv s ->
  exists r, while cond body (mu s) s = Returned r /\ Inv r /\ cond r = false.
Proof.
  intros Hstep.
  assert (forall fuel s, Inv s -> (mu s <= fuel)%nat ->
    exists r, while cond body fuel s = Returned r /\ Inv r /\ cond r = false)
    as Hgen.
  { induction fuel as [|fuel IH]; intros s Hinv Hle; simpl.
    - destruct (cond s) eqn:Hc; [|by exists s].
      destruct (Hstep s Hinv Hc) as (s' & _ & _ & Hlt). lia.
    - destruct (cond s) eqn:Hc; [|by exists s].
      destruct (Hstep s Hinv Hc) as (s' & -> & Hinv' & Hlt).
      apply IH; [done|lia]. }
  intros s Hinv. by apply Hgen.
Qed.

Lemma while_diverges (Inv : St -> Prop) :
  (forall s, Inv s ->
     cond s = true /\ exists s', body s = Next s' /\ Inv s') ->
  forall fuel s, Inv s -> while cond body fuel s = OutOfFuel.
Proof.
  intros Hstep fuel. induction fuel as [|fuel IH]; intros s Hinv; simpl;
    destruct (Hstep s Hinv) as (-> & s' & Hb & Hinv'); [done|].
  rewrite Hb. by apply IH.
Qed.

End While.

Lemma outcome_map_Returned {A B : Type} (f : A -> B) (o : outcome A) (b : B) :
  outcome_map f o = Returned b -> exists a, o = Returned a /\ b = f a.
Proof. destruct o; simpl; [|done..]. intros [= <-]. by eexists. Qed.

(** ** Counting and sums *)

Lemma count_if_le_length {A} (f : A -> bool) (l : list A) :
  (count_if f l <= length l)%nat.
Proof. induction l as [|x l IH]; simpl; [lia|]. destruct (f x); lia. Qed.

Lemma count_if_all {A} (f : A -> bool) (l : list A) :
  (length l <= count_if f l)%nat -> Forall (fun x => f x = true) l.
Proof.
  induction l as [|x l IH]; simpl; intros Hc; [constructor|].
  pose proof (count_if_le_length f l).
  destruct (f x) eqn:Hx; [|lia]. constructor; [done|]. apply IH. lia.
Qed.

Lemma count_if_lt_exists {A} (f : A -> bool) (l : list A) :
  (count_if f l < length l)%nat ->
  exists i x, l !! i = Some x /\ f x = false.
Proof.
  induction l as [|x l IH]; simpl; intros Hc; [lia|].
  destruct (f x) eqn:Hx.
  - destruct IH as (i & y & Hi & Hy); [lia|]. by exists (S i), y.
  - by exists O, x.
Qed.

Lemma count_if_insert {A} (f : A -> bool) (l : list A) i x y :
  l !! i = Some x ->
  (count_if f (<[i:=y]> l) + (if f x then 1 else 0) =
   count_if f l + (if f y then 1 else 0))%nat.
Proof.
  revert i. induction l as [|z l IH]; intros [|i] Hi; simpl in *; try done.
  - injection Hi as ->. destruct (f x), (f y); lia.
  - specialize (IH i Hi). destruct (f z); lia.
Qed.

Lemma total_remaining_insert (l : list Process) i p p' :
  l !! i = Some p ->
  total_remaining (<[i:=p']> l) =
  total_remaining l - remaining_time p + remaining_time p'.
Proof.
  revert i. induction l as [|z l IH]; intros [|i] Hi; simpl in *; try done.
  - injection Hi as ->. unfold total_remaining. simpl. lia.
  - specialize (IH i Hi). unfold total_remaining in *. simpl. lia.
Qed.

Lemma total_remaining_nonneg (l : list Process) :
  Forall (fun p => 0 <= remaining_time p) l -> 0 <= total_remaining l.
Proof.
  induction 1 as [|p l Hp _ IH]; unfold total_remaining in *; simpl; lia.
Qed.

(** ** The fields the setters leave alone *)

Lemma static_fields_set_remaining_time v p :
  static_fields (set_remaining_time v p) = static_fields p.
Proof. done. Qed.
Lemma static_fields_set_completion_time v p :
  static_fields (set_completion_time v p) = static_fields p.
Proof. done. Qed.
Lemma static_fields_set_response_time v p :
  static_fields (set_response_time v p) = static_fields p.
Proof. done. Qed.
Lemma static_fields_set_started v p :
  static_fields (set_started v p) = static_fields p.
Proof. done. Qed.
Lemma static_fields_metrics_step p :
  static_fields (metrics_step p) = static_fields p.
Proof. done. Qed.

Lemma static_fields_arrival p p' :
  static_fields p = static_fields p' -> arrival_time p = arrival_time p'.
Proof. unfold static_fields. congruence. Qed.
Lemma static_fields_burst p p' :
  static_fields p = static_fields p' -> burst_time p = burst_time p'.
Proof. unfold static_fields. congruence. Qed.

(** Updating a cell with a process of the same static fields. *)
Lemma map_static_fields_insert (l : list Process) i p p' :
  l !! i = Some p -> static_fields p' = static_fields p ->
  map static_fields (<[i:=p']> l) = map static_fields l.
Proof.
  intros Hi Hs. rewrite list_fmap_insert, Hs.
  apply list_insert_id. by rewrite list_lookup_fmap, Hi.
Qed.

Lemma map_static_fields_lookup (l l0 : list Process) i p :
  map static_fields l = map static_fields l0 -> l !! i = Some p ->
  exists p0, l0 !! i = Some p0 /\ static_fields p = static_fields p0.
Proof.
  intros Hm Hi.
  assert (map static_fields l !! i = Some (static_fields p)) as H
    by by rewrite list_lookup_fmap, Hi.
  rewrite Hm, list_lookup_fmap in H.
  destruct (l0 !! i) as [p0|]; [|done]. simpl in H. exists p0. split; [done|]. congruence.
Qed.

(** ** calculate_metrics *)

Lemma metrics_loop_fst processes tt tw tr :
  fst (metrics_loop processes tt tw tr) = map metrics_step processes.
Proof.
  revert tt tw tr. induction processes as [|p l IH]; intros; simpl; [done|].
  specialize (IH (tt + turnaround_time (metrics_step p))
    (tw + waiting_time (metrics_step p)) (tr + response_time (metrics_step p))).
  destruct (metrics_loop l _ _ _) as [rest totals]. simpl in *. by rewrite IH.
Qed.

Lemma calculate_metrics_fst processes :
  fst (calculate_metrics processes) = map metrics_step processes.
Proof.
  unfold calculate_metrics.
  pose proof (metrics_loop_fst processes 0 0 0) as H.
  destruct (metrics_loop processes 0 0 0) as [ps [[tt tw] tr]]. done.
Qed.

Lemma Forall_metrics_step (P : Process -> Prop) (l : list Process) :
  (forall p, P p -> P (metrics_step p)) ->
  Forall P l -> Forall P (map metrics_step l).
Proof. intros HP Hl. induction Hl; simpl; constructor; auto. Qed.

Lemma finished_metrics_step p : finished p -> finished (metrics_step p).
Proof. done. Qed.

(** ** Arrays sorted by arrival time *)

Lemma compare_le_arrival p1 p2 : compare_le p1 p2 <-> arrival_le p1 p2.
Proof. unfold compare_le, compare_arrival_time, arrival_le. lia. Qed.

Lemma Sorted_compare_strongly (l : list Process) :
  Sorted compare_le l -> StronglySorted arrival_le l.
Proof.
  intros Hs. apply Sorted_StronglySorted.
  - intros a b c. unfold arrival_le. lia.
  - induction Hs as [|a l Hs IH Hhd]; constructor; [done|].
    destruct Hhd; constructor. by apply compare_le_arrival.
Qed.

Lemma StronglySorted_arrival_lookup (l : list Process) i j a b :
  StronglySorted arrival_le l -> l !! i = Some a -> l !! j = Some b ->
  (i <= j)%nat -> arrival_time a <= arrival_time b.
Proof.
  intros Hs. revert i j.
  induction Hs as [|x l Hs IH Hall]; intros i j Hi Hj Hle; [done|].
  destruct i as [|i], j as [|j]; simpl in *; try lia.
  - injection Hi as ->. injection Hj as ->. lia.
  - injection Hi as ->. rewrite Forall_forall in Hall.
    apply Hall. by eapply list_elem_of_lookup_2.
  - eapply IH; [done..|lia].
Qed.

(** A sorted permutation of an array with increasing, distinct arrival
    times is that array. *)
Lemma sorted_permutation_unique (l l' : list Process) :
  StronglySorted (fun a b => arrival_time a < arrival_time b) l ->
  StronglySorted arrival_le l' -> l' ≡ₚ l -> l' = l.
Proof.
  intros Hl. revert l'.
  induction Hl as [|a l Hl IH Hall]; intros l' Hl' Hp.
  - by apply Permutation_nil_r in Hp.
  - destruct l' as [|a' t']; [by apply Permutation_nil_cons in Hp|].
    apply StronglySorted_inv in Hl' as [Hl' Hall'].
    rewrite Forall_forall in Hall, Hall'.
    assert (a' = a) as ->.
    { assert (a' ∈ a :: l) as Ha' by (rewrite <- Hp; left).
      assert (a ∈ a' :: t') as Ha by (rewrite Hp; left).
      apply elem_of_cons in Ha' as [->|Ha']; [done|].
      apply elem_of_cons in Ha as [->|Ha]; [done|].
      specialize (Hall _ Ha'). specialize (Hall' _ Ha).
      unfold arrival_le in Hall'. lia. }
    f_equal. apply IH; [done|]. by eapply Permutation_cons_inv.
Qed.

(** ** The insertion sort meets the assumptions on [qsort] *)

Lemma insert_sorted_Permutation p l :
  insert_sorted compare_arrival_time p l ≡ₚ p :: l.
Proof.
  induction l as [|q l IH]; simpl; [done|].
  destruct (compare_arrival_time p q <? 0); [done|].
  rewrite IH. apply Permutation_swap.
Qed.

Lemma insertion_sort_Permutation l :
  insertion_sort compare_arrival_time l ≡ₚ l.
Proof.
  induction l as [|p l IH]; simpl; [done|].
  by rewrite insert_sorted_Permutation, IH.
Qed.

Lemma insert_sorted_Sorted p l :
  Sorted compare_le l -> Sorted compare_le (insert_sorted compare_arrival_time p l).
Proof.
  induction 1 as [|q l Hs IH Hhd]; simpl.
  - by repeat constructor.
  - destruct (Z.ltb_spec (compare_arrival_time p q) 0) as [Hlt|Hge].
    + constructor; [by constructor|]. constructor.
      unfold compare_le. lia.
    + constructor; [done|].
      destruct Hhd as [|r l Hqr]; simpl.
      * constructor. unfold compare_le, compare_arrival_time in *. lia.
      * destruct (compare_arrival_time p r <? 0); constructor; [|done].
        unfold compare_le, compare_arrival_time in *. lia.
Qed.

Lemma insertion_sort_Sorted l :
  Sorted compare_le (insertion_sort compare_arrival_time l).
Proof.
  induction l as [|p l IH]; simpl; [constructor|].
  by apply insert_sorted_Sorted.
Qed.

(** ** fcfs.c *)

Lemma fcfs_loop_static_fields l t :
  map static_fields (fcfs_loop l t) = map static_fields l.
Proof. revert t. induction l as [|p l IH]; intros t; simpl; [done|]. by rewrite IH. Qed.

Lemma fcfs_loop_length l t : length (fcfs_loop l t) = length l.
Proof. revert t. induction l as [|p l IH]; intros t; simpl; [done|]. by rewrite IH. Qed.

Lemma fcfs_loop_finished l t :
  Forall (fun p => 0 <= burst_time p) l -> Forall finished (fcfs_loop l t).
Proof.
  intros Hl. revert t. induction Hl as [|p l Hp _ IH]; intros t; simpl.
  - constructor.
  - constructor; [|apply IH]. unfold finished. simpl.
    destruct (Z.ltb_spec t (arrival_time p)); lia.
Qed.

Lemma fcfs_loop_response l t :
  Forall (fun p => response_time p =
                   completion_time p - arrival_time p - burst_time p)
    (fcfs_loop l t).
Proof.
  revert t. induction l as [|p l IH]; intros t; simpl; constructor;
    [simpl; lia|apply IH].
Qed.

(** ** sjf.c: the two searches *)

Lemma find_shortest_spec key ps done ct i acc best :
  length done = length ps ->
  let r := find_shortest key ps done ct i acc best in
  (r = acc /\ forall j p, eligible ps done ct j p -> best <= key p) \/
  (exists j p, r = Some (i + j)%nat /\ eligible ps done ct j p /\
     key p < best /\
     forall j' p', eligible ps done ct j' p' ->
       key p <= key p' /\ (key p' = key p -> (j <= j')%nat)).
Proof.
  revert done i acc best.
  induction ps as [|p ps IH]; intros [|c done] i acc best Hlen; simpl in *;
    try lia.
  - left. split; [done|]. intros j q (Hq & _). done.
  - assert (length done = length ps) as Hlen' by lia.
    destruct (negb c && (arrival_time p <=? ct) && (key p <? best)) eqn:Hsel.
    + apply andb_prop in Hsel as [Hsel Hk]. apply andb_prop in Hsel as [Hc Ha].
      destruct c; [done|]. apply Z.leb_le in Ha. apply Z.ltb_lt in Hk.
      destruct (IH done (S i) (Some i) (key p) Hlen')
        as [[Hr Hmin]|(j & q & Hr & Hq & Hlt & Hmin)]; right.
      * exists O, p. rewrite Hr, Nat.add_0_r. repeat split; try done.
        -- destruct j' as [|j']; destruct H as (H1 & H2 & H3); simpl in *.
           ++ injection H1 as ->. lia.
           ++ by apply (Hmin j').
        -- lia.
      * exists (S j), q. rewrite Hr. split; [f_equal; lia|].
        split; [done|]. split; [lia|].
        intros [|j'] p' (H1 & H2 & H3); simpl in *.
        -- injection H1 as ->. lia.
        -- destruct (Hmin j' p') as [? ?]; [done|]. split; [done|]. lia.
    + destruct (IH done (S i) acc best Hlen')
        as [[Hr Hmin]|(j & q & Hr & Hq & Hlt & Hmin)].
      * left. split; [done|].
        intros [|j'] p' (H1 & H2 & H3); simpl in *.
        -- injection H1 as ->. injection H2 as ->. simpl in Hsel.
           apply Z.leb_le in H3. rewrite H3 in Hsel. simpl in Hsel.
           apply Z.ltb_ge in Hsel. lia.
        -- by apply (Hmin j').
      * right. exists (S j), q. rewrite Hr. split; [f_equal; lia|].
        split; [done|]. split; [done|].
        intros [|j'] p' (H1 & H2 & H3); simpl in *.
        -- injection H1 as ->. injection H2 as ->. simpl in Hsel.
           apply Z.leb_le in H3. rewrite H3 in Hsel. simpl in Hsel.
           apply Z.ltb_ge in Hsel. lia.
        -- destruct (Hmin j' p') as [? ?]; [done|]. split; [done|]. lia.
Qed.

(** What the search returns from its initial values. *)
Lemma find_shortest_Some key ps done ct idx :
  length done = length ps ->
  find_shortest key ps done ct 0 None INT_MAX = Some idx ->
  exists p, eligible ps done ct idx p /\ key p < INT_MAX /\
    forall j pj, eligible ps done ct j pj ->
      key p <= key pj /\ (key pj = key p -> (idx <= j)%nat).
Proof.
  intros Hlen Hf.
  destruct (find_shortest_spec key ps done ct 0 None INT_MAX Hlen)
    as [[Hr _]|(j & p & Hr & Hp & Hlt & Hmin)]; [congruence|].
  rewrite Hf in Hr. injection Hr as ->. by exists p.
Qed.

Lemma find_shortest_None key ps done ct :
  length done = length ps ->
  find_shortest key ps done ct 0 None INT_MAX = None ->
  forall j p, eligible ps done ct j p -> INT_MAX <= key p.
Proof.
  intros Hlen Hf.
  destruct (find_shortest_spec key ps done ct 0 None INT_MAX Hlen)
    as [[_ Hmin]|(j & p & Hr & _)]; [done|congruence].
Qed.

Lemma find_next_arrival_spec ps done t0 :
  length done = length ps ->
  let r := find_next_arrival ps done t0 in
  r <= t0 /\
  (forall j p, ps !! j = Some p -> done !! j = Some false ->
     r <= arrival_time p) /\
  (r = t0 \/ exists j p, ps !! j = Some p /\ done !! j = Some false /\
     arrival_time p = r).
Proof.
  revert done t0.
  induction ps as [|p ps IH]; intros [|c done] t0 Hlen; simpl in *; try lia.
  - split; [lia|]. split; [done|]. by left.
  - assert (length done = length ps) as Hlen' by lia.
    destruct (negb c && (arrival_time p <? t0)) eqn:Hsel.
    + apply andb_prop in Hsel as [Hc Ha]. destruct c; [done|].
      apply Z.ltb_lt in Ha.
      destruct (IH done (arrival_time p) Hlen') as (Hle & Hmin & Hwit).
      split; [lia|]. split.
      * intros [|j] q H1 H2; simpl in *; [injection H1 as ->; lia|].
        by apply (Hmin j).
      * right. destruct Hwit as [Hr|(j & q & H1 & H2 & H3)].
        -- by exists O, p.
        -- by exists (S j), q.
    + destruct (IH done t0 Hlen') as (Hle & Hmin & Hwit).
      split; [done|]. split.
      * intros [|j] q H1 H2; simpl in *; [|by apply (Hmin j)].
        injection H1 as ->. injection H2 as ->. simpl in Hsel.
        apply Z.ltb_ge in Hsel. lia.
      * destruct Hwit as [Hr|(j & q & H1 & H2 & H3)]; [by left|].
        right. by exists (S j), q.
Qed.

(** After the jump to the next arrival the search finds a process,
    provided the fields of the waiting processes are below [INT_MAX]. *)
Lemma find_shortest_after_idle key ps done :
  length done = length ps ->
  (count_if (fun c : bool => c) done < length done)%nat ->
  (forall i p, ps !! i = Some p -> done !! i = Some false ->
     arrival_time p <= INT_MAX /\ key p < INT_MAX) ->
  is_Some (find_shortest key ps done (find_next_arrival ps done INT_MAX)
             0 None INT_MAX).
Proof.
  intros Hlen Hcount Hbound.
  destruct (find_shortest key ps done (find_next_arrival ps done INT_MAX)
              0 None INT_MAX) as [idx|] eqn:Hf; [by eexists|].
  exfalso.
  pose proof (find_shortest_None _ _ _ _ Hlen Hf) as Hnone.
  destruct (find_next_arrival_spec ps done INT_MAX Hlen) as (Hle & Hmin & Hwit).
  assert (exists j p, eligible ps done (find_next_arrival ps done INT_MAX) j p)
    as (j & p & Hel).
  { destruct Hwit as [Hr|(j & p & H1 & H2 & H3)].
    - destruct (count_if_lt_exists _ _ Hcount) as (i & c & Hi & ->).
      destruct (lookup_lt_is_Some_2 ps i) as [p Hp].
      { rewrite <- Hlen. by eapply lookup_lt_Some. }
      exists i, p. repeat split; try done.
      destruct (Hbound i p Hp Hi) as [Ha _]. lia.
    - exists j, p. repeat split; try done. lia. }
  specialize (Hnone j p Hel). destruct Hel as (H1 & H2 & _).
  destruct (Hbound j p H1 H2). lia.
Qed.

(** ** sjf.c: the loop of the non-preemptive scheduler *)

Lemma sjf_inv_init (U D : Process -> Prop) sorted :
  Forall U sorted -> sjf_inv U D sorted (sjf_init sorted).
Proof.
  intros HU. unfold sjf_inv, sjf_init. simpl.
  split; [done|]. split; [by rewrite length_replicate|]. split.
  - induction (length sorted); simpl; [done|]. by rewrite <- IHn.
  - intros i p c Hp Hc. apply lookup_replicate in Hc as [-> _].
    rewrite Forall_lookup in HU. by eapply HU.
Qed.

(** When the loop condition fails every process is marked completed. *)
Lemma sjf_inv_exit (U D : Process -> Prop) sorted st :
  sjf_inv U D sorted st -> sjf_cond (length sorted) st = false ->
  Forall D (sjf_processes st).
Proof.
  intros (Hst & Hlen & Hcnt & Hall) Hc.
  unfold sjf_cond in Hc. apply Nat.ltb_ge in Hc.
  rewrite Hcnt, <- Hlen in Hc. apply count_if_all in Hc.
  rewrite Forall_lookup in Hc. apply Forall_lookup. intros i p Hp.
  assert (length (sjf_processes st) = length sorted) as Hlen'.
  { by rewrite <- (length_map static_fields), Hst, length_map. }
  destruct (lookup_lt_is_Some_2 (sjf_is_completed st) i) as [c Hi].
  { rewrite Hlen, <- Hlen'. by eapply lookup_lt_Some. }
  specialize (Hall i p c Hp Hi). by rewrite (Hc i c Hi) in Hall.
Qed.

Lemma sjf_inv_length (U D : Process -> Prop) sorted st :
  sjf_inv U D sorted st ->
  length (sjf_processes st) = length sorted /\
  length (sjf_is_completed st) = length (sjf_processes st).
Proof.
  intros (Hst & Hlen & _).
  assert (length (sjf_processes st) = length sorted) as Hlen'.
  { by rewrite <- (length_map static_fields), Hst, length_map. }
  split; [done|lia].
Qed.

Lemma sjf_inv_idle (U D : Process -> Prop) sorted st :
  sjf_inv U D sorted st -> sjf_inv U D sorted (sjf_idle st).
Proof. done. Qed.

Lemma sjf_non_preemptive_step (U D : Process -> Prop) sorted st :
  (forall p ct, U p -> arrival_time p <= ct ->
     D (set_remaining_time 0 (set_completion_time (ct + burst_time p)
          (set_started true (set_response_time (ct - arrival_time p) p))))) ->
  sjf_inv U D sorted st ->
  exists st', sjf_non_preemptive_body st = Next st' /\
    sjf_inv U D sorted st' /\
    match find_shortest burst_time (sjf_processes st) (sjf_is_completed st)
            (sjf_current_time st) 0 None INT_MAX with
    | Some _ => sjf_completed st' = S (sjf_completed st)
    | None => st' = sjf_idle st
    end.
Proof.
  intros Hrun Hinv. destruct (sjf_inv_length _ _ _ _ Hinv) as [Hlen1 Hlen2].
  unfold sjf_non_preemptive_body.
  destruct (find_shortest _ _ _ _ _ _ _) as [idx|] eqn:Hf.
  - destruct (find_shortest_Some _ _ _ _ _ Hlen2 Hf)
      as (p & (Hp & Hc & Ha) & _ & _).
    rewrite Hp. eexists. split; [done|]. split; [|done].
    destruct Hinv as (Hst & Hlen & Hcnt & Hall).
    unfold sjf_inv. simpl. split; [|split; [|split]].
    + rewrite <- Hst. by eapply map_static_fields_insert.
    + by rewrite length_insert.
    + pose proof (count_if_insert (fun c : bool => c) _ idx false true Hc).
      simpl in *. lia.
    + intros i q c Hq Hi. destruct (decide (i = idx)) as [->|Hne].
      * rewrite list_lookup_insert_eq in Hq by (by eapply lookup_lt_Some).
        rewrite list_lookup_insert_eq in Hi by (by eapply lookup_lt_Some).
        injection Hq as <-. injection Hi as <-.
        apply Hrun; [|done]. apply (Hall idx p false Hp Hc).
      * rewrite list_lookup_insert_ne in Hq by done.
        rewrite list_lookup_insert_ne in Hi by done. by eapply Hall.
  - eexists. split; [done|]. split; [by apply sjf_inv_idle|done].
Qed.

(** Partial correctness of the loop, for any pair of predicates the
    dispatch of a process takes from [U] to [D]. *)
Lemma sjf_non_preemptive_loop_partial (U D : Process -> Prop) sorted fuel st :
  (forall p ct, U p -> arrival_time p <= ct ->
     D (set_remaining_time 0 (set_completion_time (ct + burst_time p)
          (set_started true (set_response_time (ct - arrival_time p) p))))) ->
  Forall U sorted ->
  while (sjf_cond (length sorted)) sjf_non_preemptive_body fuel
    (sjf_init sorted) = Returned st ->
  Forall D (sjf_processes st) /\
  map static_fields (sjf_processes st) = map static_fields sorted.
Proof.
  intros Hrun HU Hw.
  eapply (while_partial _ _ (sjf_inv U D sorted)
            (fun st => Forall D (sjf_processes st) /\
               map static_fields (sjf_processes st) = map static_fields sorted));
    [| | |by apply sjf_inv_init|exact Hw].
  - intros s Hinv Hc. split; [by eapply sjf_inv_exit|]. by destruct Hinv.
  - intros s s' Hinv _ Hb.
    destruct (sjf_non_preemptive_step U D sorted s Hrun Hinv) as (? & ? & _).
    congruence.
  - intros s s' Hinv _ Hb.
    destruct (sjf_non_preemptive_step U D sorted s Hrun Hinv) as (? & ? & ? & _).
    congruence.
Qed.

(** The loop returns when the arrival and burst times are below
    [INT_MAX]: at most two iterations for each process. *)
Lemma sjf_non_preemptive_loop_total sorted :
  Forall below_INT_MAX sorted ->
  exists st,
    while (sjf_cond (length sorted)) sjf_non_preemptive_body
      (2 * length sorted + 1) (sjf_init sorted) = Returned st.
Proof.
  intros Hb.
  set (U := fun _ : Process => True).
  set (mu := fun st => (2 * (length sorted - sjf_completed st) +
                        sjf_idle_flag burst_time st)%nat).
  destruct (while_total (sjf_cond (length sorted)) sjf_non_preemptive_body
              (sjf_inv U U sorted) mu) with (s := sjf_init sorted)
    as (r & Hr & _).
  - intros s Hinv Hc.
    destruct (sjf_non_preemptive_step U U sorted s) as (s' & Hs' & Hinv' & Hcase);
      [done|done|].
    exists s'. split; [done|]. split; [done|].
    unfold sjf_cond in Hc. apply Nat.ltb_lt in Hc.
    assert (sjf_idle_flag burst_time s' <= 1)%nat as Hflag'
      by (unfold sjf_idle_flag; destruct (find_shortest _ (sjf_processes s') _ _ _ _ _); lia).
    unfold mu. unfold sjf_idle_flag at 2.
    destruct (find_shortest burst_time (sjf_processes s) _ _ _ _ _)
      as [idx|] eqn:Hf.
    + rewrite Hcase. lia.
    + subst s'. destruct (sjf_inv_length _ _ _ _ Hinv) as [Hlen1 Hlen2].
      destruct Hinv as (Hst & Hlen & Hcnt & _).
      destruct (find_shortest_after_idle burst_time (sjf_processes s)
                  (sjf_is_completed s)) as [idx Hidx]; [done|lia|..].
      { intros i p Hp _.
        destruct (map_static_fields_lookup _ _ _ _ Hst Hp) as (p0 & Hp0 & Heq).
        rewrite Forall_lookup in Hb. destruct (Hb i p0 Hp0) as [? ?].
        rewrite (static_fields_arrival _ _ Heq), (static_fields_burst _ _ Heq).
        done. }
      unfold sjf_idle_flag, sjf_idle. simpl. rewrite Hidx. lia.
  - by apply sjf_inv_init, Forall_true.
  - exists r. eapply while_fuel_mono; [exact Hr|].
    unfold mu, sjf_idle_flag, sjf_init. simpl.
    destruct (find_shortest _ _ _ _ _ _ _); lia.
Qed.

(** ** sjf.c: the loop of the preemptive scheduler *)

Lemma sjf_inv_remaining_nonneg sorted st :
  sjf_inv unfinished finished sorted st ->
  Forall (fun p => 0 <= remaining_time p) (sjf_processes st).
Proof.
  intros Hinv. destruct (sjf_inv_length _ _ _ _ Hinv) as [Hlen1 Hlen2].
  destruct Hinv as (_ & _ & _ & Hall).
  apply Forall_lookup. intros i p Hp.
  destruct (lookup_lt_is_Some_2 (sjf_is_completed st) i) as [c Hi].
  { rewrite Hlen2. by eapply lookup_lt_Some. }
  specialize (Hall i p c Hp Hi). destruct c; unfold finished, unfinished in *; lia.
Qed.

Lemma sjf_preemptive_step sorted st :
  sjf_inv unfinished finished sorted st ->
  exists st', sjf_preemptive_body st = Next st' /\
    sjf_inv unfinished finished sorted st' /\
    match find_shortest remaining_time (sjf_processes st)
            (sjf_is_completed st) (sjf_current_time st) 0 None INT_MAX with
    | Some _ =>
      total_remaining (sjf_processes st') =
      total_remaining (sjf_processes st) - 1
    | None => st' = sjf_idle st
    end.
Proof.
  intros Hinv. destruct (sjf_inv_length _ _ _ _ Hinv) as [Hlen1 Hlen2].
  unfold sjf_preemptive_body.
  destruct (find_shortest _ _ _ _ _ _ _) as [idx|] eqn:Hf.
  - destruct (find_shortest_Some _ _ _ _ _ Hlen2 Hf)
      as (p & (Hp & Hc & Ha) & _ & _).
    rewrite Hp. destruct Hinv as (Hst & Hlen & Hcnt & Hall).
    pose proof (Hall idx p false Hp Hc) as [Hpos Hle]. simpl in Hpos, Hle.
    set (p1 := if started p then p
               else set_started true
                      (set_response_time (sjf_current_time st - arrival_time p) p)).
    assert (static_fields p1 = static_fields p /\
            remaining_time p1 = remaining_time p) as [Hs1 Hr1]
      by (unfold p1; by destruct (started p)).
    simpl. rewrite Hr1.
    destruct (Z.eqb_spec (remaining_time p - 1) 0) as [Hz|Hnz].
    + eexists. split; [done|]. split.
      * unfold sjf_inv. simpl. split; [|split; [|split]].
        -- rewrite <- Hst. by eapply map_static_fields_insert.
        -- by rewrite length_insert.
        -- pose proof (count_if_insert (fun c : bool => c) _ idx false true Hc).
           simpl in *. lia.
        -- intros i q c Hq Hi. destruct (decide (i = idx)) as [->|Hne].
           ++ rewrite list_lookup_insert_eq in Hq by (by eapply lookup_lt_Some).
              rewrite list_lookup_insert_eq in Hi by (by eapply lookup_lt_Some).
              injection Hq as <-. injection Hi as <-.
              unfold finished. simpl.
              rewrite (static_fields_arrival _ _ Hs1). lia.
           ++ rewrite list_lookup_insert_ne in Hq by done.
              rewrite list_lookup_insert_ne in Hi by done. by eapply Hall.
      * simpl. rewrite (total_remaining_insert _ _ _ _ Hp). simpl. lia.
    + eexists. split; [done|]. split.
      * unfold sjf_inv. simpl. split; [|split; [|split]]; [|done|done|].
        -- rewrite <- Hst. by eapply map_static_fields_insert.
        -- intros i q c Hq Hi. destruct (decide (i = idx)) as [->|Hne].
           ++ rewrite list_lookup_insert_eq in Hq by (by eapply lookup_lt_Some).
              injection Hq as <-. rewrite Hc in Hi. injection Hi as <-.
              unfold unfinished. simpl.
              rewrite (static_fields_burst _ _ Hs1). lia.
           ++ rewrite list_lookup_insert_ne in Hq by done. by eapply Hall.
      * simpl. rewrite (total_remaining_insert _ _ _ _ Hp). simpl. lia.
  - eexists. split; [done|]. split; [by apply sjf_inv_idle|done].
Qed.

Lemma sjf_preemptive_loop_partial sorted fuel st :
  Forall unfinished sorted ->
  while (sjf_cond (length sorted)) sjf_preemptive_body fuel
    (sjf_init sorted) = Returned st ->
  Forall finished (sjf_processes st) /\
  map static_fields (sjf_processes st) = map static_fields sorted.
Proof.
  intros HU Hw.
  eapply (while_partial _ _ (sjf_inv unfinished finished sorted)
            (fun st => Forall finished (sjf_processes st) /\
               map static_fields (sjf_processes st) = map static_fields sorted));
    [| | |by apply sjf_inv_init|exact Hw].
  - intros s Hinv Hc. split; [by eapply sjf_inv_exit|]. by destruct Hinv.
  - intros s s' Hinv _ Hb.
    destruct (sjf_preemptive_step sorted s Hinv) as (? & ? & _). congruence.
  - intros s s' Hinv _ Hb.
    destruct (sjf_preemptive_step sorted s Hinv) as (? & ? & ? & _). congruence.
Qed.

(** The loop returns when the arrival and burst times are below
    [INT_MAX]: at most two iterations for each unit of burst time. *)
Lemma sjf_preemptive_loop_total sorted :
  Forall unfinished sorted -> Forall below_INT_MAX sorted ->
  exists st,
    while (sjf_cond (length sorted)) sjf_preemptive_body
      (2 * Z.to_nat (total_remaining sorted) + 1) (sjf_init sorted)
    = Returned st.
Proof.
  intros HU Hb.
  set (mu := fun st => (2 * Z.to_nat (total_remaining (sjf_processes st)) +
                        sjf_idle_flag remaining_time st)%nat).
  destruct (while_total (sjf_cond (length sorted)) sjf_preemptive_body
              (sjf_inv unfinished finished sorted) mu) with (s := sjf_init sorted)
    as (r & Hr & _).
  - intros s Hinv Hc.
    destruct (sjf_preemptive_step sorted s Hinv) as (s' & Hs' & Hinv' & Hcase).
    exists s'. split; [done|]. split; [done|].
    unfold sjf_cond in Hc. apply Nat.ltb_lt in Hc.
    assert (sjf_idle_flag remaining_time s' <= 1)%nat as Hflag'
      by (unfold sjf_idle_flag;
          destruct (find_shortest _ (sjf_processes s') _ _ _ _ _); lia).
    pose proof (total_remaining_nonneg _ (sjf_inv_remaining_nonneg _ _ Hinv')).
    unfold mu. unfold sjf_idle_flag at 2.
    destruct (find_shortest remaining_time (sjf_processes s) _ _ _ _ _)
      as [idx|] eqn:Hf.
    + lia.
    + subst s'. destruct (sjf_inv_length _ _ _ _ Hinv) as [Hlen1 Hlen2].
      destruct Hinv as (Hst & Hlen & Hcnt & Hall).
      destruct (find_shortest_after_idle remaining_time (sjf_processes s)
                  (sjf_is_completed s)) as [idx Hidx]; [done|lia|..].
      { intros i p Hp Hi.
        destruct (map_static_fields_lookup _ _ _ _ Hst Hp) as (p0 & Hp0 & Heq).
        rewrite Forall_lookup in Hb. destruct (Hb i p0 Hp0) as [? ?].
        destruct (Hall i p false Hp Hi) as [? ?].
        rewrite (static_fields_arrival _ _ Heq).
        rewrite (static_fields_burst _ _ Heq) in *. lia. }
      unfold sjf_idle_flag, sjf_idle. simpl. rewrite Hidx. lia.
  - by apply sjf_inv_init.
  - exists r. eapply while_fuel_mono; [exact Hr|].
    unfold mu, sjf_idle_flag, sjf_init. simpl.
    destruct (find_shortest _ _ _ _ _ _ _); lia.
Qed.

(** ** rr.c: the circular buffer *)

Lemma mod_neq_of_close a b c :
  0 <= a -> a < b -> b - a < c -> a mod c <> b mod c.
Proof.
  intros Ha Hab Hc Heq.
  assert ((b - a) mod c = 0) as H0.
  { rewrite Zminus_mod, Heq, Z.sub_diag. apply Z.mod_0_l. lia. }
  rewrite Z.mod_small in H0; lia.
Qed.

Lemma queue_contents_length queue :
  length (queue_contents queue) = Z.to_nat (size queue).
Proof. unfold queue_contents. by rewrite length_map, length_seq. Qed.

Lemma create_queue_wf capacity :
  0 < capacity -> queue_wf (create_queue capacity).
Proof.
  intros Hc. unfold queue_wf, create_queue. simpl.
  rewrite length_replicate. repeat split; try lia.
Qed.

Lemma create_queue_contents capacity :
  queue_contents (create_queue capacity) = [].
Proof. done. Qed.

Lemma is_empty_contents queue :
  queue_wf queue -> (is_empty queue = true <-> queue_contents queue = []).
Proof.
  intros (_ & _ & Hs & _). unfold is_empty. rewrite Z.eqb_eq. split.
  - intros H. unfold queue_contents. by rewrite H.
  - intros H. apply (f_equal length) in H.
    rewrite queue_contents_length in H. simpl in H. lia.
Qed.

Lemma enqueue_spec queue value :
  queue_wf queue -> size queue < capacity queue ->
  fst (enqueue queue value) = true /\
  queue_wf (snd (enqueue queue value)) /\
  queue_contents (snd (enqueue queue value)) =
  queue_contents queue ++ [value].
Proof.
  intros (Hcap & Hlen & Hsz & Hfr & Hre & Hmod) Hroom.
  unfold enqueue, is_full.
  destruct (Z.eqb_spec (size queue) (capacity queue)) as [|_]; [lia|]. simpl.
  rewrite Z.rem_mod_nonneg by lia.
  assert (0 <= (rear queue + 1) mod capacity queue < capacity queue) as Hr'
    by (apply Z.mod_pos_bound; lia).
  split; [done|]. split.
  - unfold queue_wf. simpl. rewrite length_insert.
    repeat split; try lia.
    rewrite Zplus_mod_idemp_l, Z.add_assoc.
    rewrite <- (Zplus_mod_idemp_l (rear queue + 1)), Hmod.
    by rewrite Zplus_mod_idemp_l.
  - unfold queue_contents. simpl.
    replace (Z.to_nat (size queue + 1)) with (Z.to_nat (size queue) + 1)%nat
      by lia.
    rewrite seq_app, map_app. simpl. f_equal.
    + apply map_ext_in. intros k Hk%in_seq.
      rewrite Hmod. rewrite list_lookup_total_insert_ne; [done|].
      intros Heq. apply Z2Nat.inj in Heq;
        [|apply Z.mod_pos_bound; lia..].
      symmetry in Heq. revert Heq. apply mod_neq_of_close; lia.
    + f_equal. rewrite Hmod.
      rewrite Z2Nat.id by lia.
      apply list_lookup_total_insert_eq. rewrite Hlen.
      pose proof (Z.mod_pos_bound (front queue + size queue) (capacity queue)).
      lia.
Qed.

Lemma dequeue_spec queue :
  queue_wf queue -> 0 < size queue ->
  exists value queue',
    dequeue queue = Some (value, queue') /\
    queue_contents queue = value :: queue_contents queue' /\
    queue_wf queue'.
Proof.
  intros (Hcap & Hlen & Hsz & Hfr & Hre & Hmod) Hpos.
  unfold dequeue, is_empty.
  destruct (Z.eqb_spec (size queue) 0) as [|_]; [lia|].
  eexists _, _. split; [done|].
  rewrite Z.rem_mod_nonneg by lia.
  assert (0 <= (front queue + 1) mod capacity queue < capacity queue) as Hf'
    by (apply Z.mod_pos_bound; lia).
  split.
  - unfold queue_contents. simpl.
    replace (Z.to_nat (size queue)) with (S (Z.to_nat (size queue - 1))) by lia.
    simpl. f_equal.
    + rewrite Z.add_0_r, Z.mod_small by lia. done.
    + rewrite <- seq_shift, map_map. apply map_ext. intros k.
      rewrite Zplus_mod_idemp_l. do 3 f_equal. lia.
  - unfold queue_wf. simpl. repeat split; try lia.
    rewrite Hmod, Zplus_mod_idemp_l. f_equal. lia.
Qed.

(** ** rr.c: the inner loop of arrivals *)

Lemma enqueue_capacity queue value :
  capacity (snd (enqueue queue value)) = capacity queue.
Proof. unfold enqueue. by destruct (is_full queue). Qed.

Lemma enqueue_size queue value :
  size queue < capacity queue ->
  size (snd (enqueue queue value)) = size queue + 1.
Proof.
  intros H. unfold enqueue, is_full.
  destruct (Z.eqb_spec (size queue) (capacity queue)); [lia|done].
Qed.

Lemma enqueue_arrivals_spec processes current_time k :
  forall next_arrival_idx queue,
  (k + next_arrival_idx = length processes)%nat ->
  queue_wf queue ->
  size queue + Z.of_nat k <= capacity queue ->
  exists queue' next',
    enqueue_arrivals (drop next_arrival_idx processes) current_time queue
      next_arrival_idx = (queue', next') /\
    queue_wf queue' /\ capacity queue' = capacity queue /\
    (next_arrival_idx <= next' <= length processes)%nat /\
    queue_contents queue' =
    queue_contents queue
      ++ map Z.of_nat (seq next_arrival_idx (next' - next_arrival_idx)) /\
    (forall i p, (next_arrival_idx <= i < next')%nat ->
       processes !! i = Some p -> arrival_time p <= current_time) /\
    (forall p, processes !! next' = Some p -> current_time < arrival_time p).
Proof.
  induction k as [|k IH]; intros nai queue Hk Hwf Hroom.
  - rewrite drop_ge by lia. simpl. exists queue, nai.
    split; [done|]. split; [done|]. split; [done|]. split; [lia|].
    rewrite Nat.sub_diag. simpl. rewrite app_nil_r. split; [done|].
    split; [intros; lia|]. intros p Hp. apply lookup_lt_Some in Hp. lia.
  - destruct (lookup_lt_is_Some_2 processes nai) as [p Hp]; [lia|].
    rewrite (drop_S _ _ _ Hp). simpl.
    destruct (Z.leb_spec (arrival_time p) current_time) as [Harr|Harr].
    + destruct (enqueue_spec queue (Z.of_nat nai) Hwf) as (_ & Hwf1 & Hc1);
        [lia|].
      destruct (IH (S nai) (snd (enqueue queue (Z.of_nat nai))))
        as (queue' & next' & Heq & Hwf' & Hcap' & Hrange & Hcont & Hall & Hstop);
        [lia|done|rewrite enqueue_size, enqueue_capacity; lia|].
      exists queue', next'. split; [done|]. split; [done|].
      split; [by rewrite Hcap', enqueue_capacity|]. split; [lia|].
      split; [|split; [|done]].
      * rewrite Hcont, Hc1, <- app_assoc. f_equal.
        replace (next' - nai)%nat with (S (next' - S nai)) by lia. done.
      * intros i q Hi Hq. destruct (decide (i = nai)) as [->|Hne].
        -- rewrite Hp in Hq. by injection Hq as <-.
        -- apply (Hall i); [lia|done].
    + exists queue, nai. split; [done|]. split; [done|]. split; [done|].
      split; [lia|]. rewrite Nat.sub_diag. simpl. rewrite app_nil_r.
      split; [done|]. split; [intros; lia|].
      intros q Hq. rewrite Hp in Hq. by injection Hq as <-.
Qed.

(** ** rr.c: the ready queue against the array *)

(** A queue without repetition of indices below [n] has at most [n]
    entries, one less when some index below [n] is not in it. *)
Lemma rr_ready_length running processes ready nai ct :
  rr_ready running processes ready nai ct ->
  (length ready + match running with Some _ => 1 | None => 0 end <= nai)%nat.
Proof.
  intros (Hnd & Hin & Hrun & _).
  set (full := match running with
               | Some i => Z.of_nat i :: ready
               | None => ready
               end).
  assert (length full <= nai)%nat as Hfull.
  { assert (NoDup full) as Hnd'.
    { unfold full. destruct running as [i|]; [|done].
      constructor; [|done]. intros Hi.
      destruct (Hin _ Hi) as (j & Hj & _ & Hne). apply Hne. f_equal. lia. }
    assert (forall v, v ∈ full -> v ∈ map Z.of_nat (seq 0 nai)) as Hsub.
    { intros v Hv.
      assert (exists i, v = Z.of_nat i /\ (i < nai)%nat) as (i & -> & Hi).
      { unfold full in Hv. destruct running as [i|].
        - apply elem_of_cons in Hv as [->|Hv].
          + exists i. split; [done|]. by apply Hrun.
          + destruct (Hin _ Hv) as (j & ? & ? & _). by exists j.
        - destruct (Hin _ Hv) as (j & ? & ? & _). by exists j. }
      apply list_elem_of_fmap. exists i. split; [done|].
      apply elem_of_seq. lia. }
    pose proof (submseteq_length _ _ (NoDup_submseteq _ _ Hnd' Hsub)) as Hl.
    by rewrite length_map, length_seq in Hl. }
  unfold full in Hfull. destruct running; simpl in *; lia.
Qed.

Lemma rr_ready_time running processes ready nai ct ct' :
  rr_ready running processes ready nai ct -> ct <= ct' ->
  rr_ready running processes ready nai ct'.
Proof.
  intros (Hnd & Hin & Hrun & Hall) Hle.
  split; [done|]. split; [done|]. split; [done|].
  intros i p Hp. destruct (Hall i p Hp) as (H1 & H2 & H3 & H4 & H5 & H6).
  repeat split; try done. intros Hi. specialize (H2 Hi). lia.
Qed.

Lemma elem_of_map_of_nat_seq v a n :
  v ∈ map Z.of_nat (seq a n) <-> exists i, v = Z.of_nat i /\ (a <= i < a + n)%nat.
Proof.
  rewrite list_elem_of_fmap. split.
  - intros (i & -> & Hi%elem_of_seq). by exists i.
  - intros (i & -> & Hi). exists i. split; [done|]. by apply elem_of_seq.
Qed.

(** The processes that arrive join the queue. *)
Lemma rr_ready_arrivals running processes ready nai nai' ct :
  rr_ready running processes ready nai ct ->
  (nai <= nai' <= length processes)%nat ->
  (forall i p, (nai <= i < nai')%nat -> processes !! i = Some p ->
     arrival_time p <= ct) ->
  rr_ready running processes
    (ready ++ map Z.of_nat (seq nai (nai' - nai))) nai' ct.
Proof.
  intros (Hnd & Hin & Hrun & Hall) Hrange Harr.
  split; [|split; [|split]].
  - apply NoDup_app. split; [done|]. split.
    + intros v Hv Hv'. destruct (Hin _ Hv) as (i & -> & Hi & _).
      apply elem_of_map_of_nat_seq in Hv' as (j & Hj & Hj'). lia.
    + apply NoDup_fmap_2; [intros ? ?; lia|]. apply NoDup_seq.
  - intros v [Hv|Hv]%elem_of_app.
    + destruct (Hin _ Hv) as (i & -> & Hi & Hne). exists i.
      split; [done|]. split; [lia|done].
    + apply elem_of_map_of_nat_seq in Hv as (i & -> & Hi). exists i.
      split; [done|]. split; [lia|]. intros Heq. symmetry in Heq.
      apply Hrun in Heq. lia.
  - intros i Hi. apply Hrun in Hi. lia.
  - intros i p Hp. destruct (Hall i p Hp) as (H1 & H2 & H3 & H4 & H5 & H6).
    split; [done|]. split; [|split; [|split; [|split]]]; try done.
    + intros Hi. destruct (decide (i < nai)%nat); [by apply H2|].
      apply (Harr i); [lia|done].
    + intros Hi. apply H3. lia.
    + intros Hne Hi Hpos. apply elem_of_app.
      destruct (decide (i < nai)%nat); [left; by apply H4|].
      right. apply elem_of_map_of_nat_seq. exists i. split; [done|lia].
    + intros [Hv|Hv]%elem_of_app; [by apply H5|].
      apply elem_of_map_of_nat_seq in Hv as (j & Hj & Hj').
      apply H3. lia.
Qed.

(** The process at the front leaves the queue to run. *)
Lemma rr_ready_dequeue processes v ready nai ct :
  rr_ready None processes (v :: ready) nai ct ->
  (nai <= length processes)%nat ->
  exists idx p, v = Z.of_nat idx /\ processes !! idx = Some p /\
    0 < remaining_time p /\ arrival_time p <= ct /\
    rr_ready (Some idx) processes ready nai ct.
Proof.
  intros (Hnd & Hin & Hrun & Hall) Hnai.
  destruct (Hin v) as (idx & -> & Hidx & _); [left|].
  destruct (lookup_lt_is_Some_2 processes idx) as [p Hp]; [lia|].
  exists idx, p. split; [done|]. split; [done|].
  destruct (Hall idx p Hp) as (H1 & H2 & H3 & H4 & H5 & H6).
  split; [apply H5; left|]. split; [by apply H2|].
  apply NoDup_cons in Hnd as [Hnotin Hnd].
  split; [done|]. split; [|split].
  - intros w Hw. destruct (Hin w) as (i & -> & Hi & _); [by right|].
    exists i. split; [done|]. split; [done|]. intros [= ->]. done.
  - intros i [= <-]. done.
  - intros i q Hq. destruct (Hall i q Hq) as (G1 & G2 & G3 & G4 & G5 & G6).
    repeat split; try done.
    + intros Hne Hi Hpos. specialize (G4 ltac:(done) Hi Hpos).
      apply elem_of_cons in G4 as [Heq|G4]; [|done].
      exfalso. apply Hne. f_equal. lia.
    + intros Hi. apply G5. by right.
    + intros _. by apply G6.
Qed.

(** The running process is rewritten and time moves on. *)
Lemma rr_ready_run idx p' processes ready nai ct ct' :
  rr_ready (Some idx) processes ready nai ct -> ct <= ct' ->
  0 <= remaining_time p' ->
  (forall p, processes !! idx = Some p -> arrival_time p' = arrival_time p) ->
  rr_ready (Some idx) (<[idx:=p']> processes) ready nai ct'.
Proof.
  intros Hr Hle Hrem Harr.
  apply (rr_ready_time _ _ _ _ ct ct') in Hr; [|done].
  destruct Hr as (Hnd & Hin & Hrun & Hall).
  split; [done|]. split; [done|]. split; [done|].
  intros i q Hq. destruct (decide (i = idx)) as [->|Hne].
  - assert (idx < length processes)%nat as Hlt.
    { apply lookup_lt_Some in Hq. by rewrite length_insert in Hq. }
    rewrite list_lookup_insert_eq in Hq by done. injection Hq as <-.
    destruct (lookup_lt_is_Some_2 processes idx Hlt) as [p Hp].
    destruct (Hall idx p Hp) as (H1 & H2 & H3 & H4 & H5 & H6).
    rewrite (Harr p Hp). repeat split; try done.
    + intros Hi. specialize (Hrun idx eq_refl). lia.
    + intros Hi. destruct (Hin _ Hi) as (j & Hj & _ & Hne).
      exfalso. apply Hne. f_equal. lia.
  - rewrite list_lookup_insert_ne in Hq by done. by apply Hall.
Qed.

(** The running process has finished and its completion time is set. *)
Lemma rr_ready_complete idx p' processes ready nai ct :
  rr_ready (Some idx) processes ready nai ct ->
  remaining_time p' = 0 -> arrival_time p' <= completion_time p' ->
  (forall p, processes !! idx = Some p -> arrival_time p' = arrival_time p) ->
  rr_ready None (<[idx:=p']> processes) ready nai ct.
Proof.
  intros (Hnd & Hin & Hrun & Hall) Hrem Hcomp Harr.
  split; [done|]. split; [|split; [done|]].
  - intros v Hv. destruct (Hin v Hv) as (i & ? & ? & _). by exists i.
  - intros i q Hq. destruct (decide (i = idx)) as [->|Hne].
    + assert (idx < length processes)%nat as Hlt.
      { apply lookup_lt_Some in Hq. by rewrite length_insert in Hq. }
      rewrite list_lookup_insert_eq in Hq by done. injection Hq as <-.
      destruct (lookup_lt_is_Some_2 processes idx Hlt) as [p Hp].
      destruct (Hall idx p Hp) as (H1 & H2 & H3 & H4 & H5 & H6).
      rewrite (Harr p Hp). repeat split; try done; try lia.
      * intros Hi. specialize (Hrun idx eq_refl). lia.
      * intros Hi. destruct (Hin _ Hi) as (j & Hj & _ & Hne).
        exfalso. apply Hne. f_equal. lia.
      * by rewrite <- (Harr p Hp).
    + rewrite list_lookup_insert_ne in Hq by done.
      destruct (Hall i q Hq) as (H1 & H2 & H3 & H4 & H5 & H6).
      repeat split; try done.
      * intros _. apply H4. congruence.
      * intros _. apply H6. congruence.
Qed.

(** The running process is preempted and goes to the tail. *)
Lemma rr_ready_requeue idx p processes ready nai ct :
  rr_ready (Some idx) processes ready nai ct ->
  processes !! idx = Some p -> 0 < remaining_time p ->
  rr_ready None processes (ready ++ [Z.of_nat idx]) nai ct.
Proof.
  intros (Hnd & Hin & Hrun & Hall) Hp Hpos.
  split; [|split; [|split; [done|]]].
  - apply NoDup_app. split; [done|]. split; [|apply NoDup_singleton].
    intros v Hv Hv'%list_elem_of_singleton. subst v.
    destruct (Hin _ Hv) as (j & Hj & _ & Hne). apply Hne. f_equal. lia.
  - intros v [Hv|Hv%list_elem_of_singleton]%elem_of_app.
    + destruct (Hin v Hv) as (i & ? & ? & _). by exists i.
    + subst v. exists idx. split; [done|]. split; [by apply Hrun|done].
  - intros i q Hq. destruct (Hall i q Hq) as (H1 & H2 & H3 & H4 & H5 & H6).
    repeat split; try done.
    + intros _ Hi Hq'. apply elem_of_app.
      destruct (decide (i = idx)) as [->|Hne].
      * right. by apply list_elem_of_singleton.
      * left. apply H4; [congruence|done..].
    + intros [Hv|Hv%list_elem_of_singleton]%elem_of_app; [by apply H5|].
      assert (i = idx) as -> by lia. rewrite Hp in Hq. by injection Hq as <-.
    + intros _ Hz. destruct (decide (i = idx)) as [->|Hne].
      * rewrite Hp in Hq. injection Hq as <-. lia.
      * apply H6; [congruence|done].
Qed.

(** ** rr.c: one iteration of the loop *)

Lemma rr_inv_length sorted st :
  rr_inv sorted st -> length (rr_processes st) = length sorted.
Proof.
  intros (Hst & _). by rewrite <- (length_map static_fields), Hst, length_map.
Qed.

Lemma rr_inv_nonempty sorted st : rr_inv sorted st -> (0 < length sorted)%nat.
Proof. intros (_ & (Hcap & _) & Hc & _). lia. Qed.

Lemma rr_inv_init sorted :
  sorted <> [] -> Forall unfinished sorted -> rr_inv sorted (rr_init sorted).
Proof.
  intros Hne HU. assert (0 < length sorted)%nat by (destruct sorted; simpl; [done|lia]).
  unfold rr_inv, rr_init. simpl.
  split; [done|]. split; [apply create_queue_wf; lia|]. split; [done|].
  split; [lia|]. split.
  - split; [constructor|]. split; [by intros v Hv%elem_of_nil|].
    split; [done|]. intros i p Hp. rewrite Forall_lookup in HU.
    destruct (HU i p Hp) as [Hpos _]. repeat split; try lia.
  - clear H Hne. induction HU as [|p l [Hp _] _ IH]; simpl; [done|].
    destruct (Z.eqb_spec (remaining_time p) 0); [lia|]. done.
Qed.

(** A state whose processes have all arrived and none of which is ready
    has only finished processes. *)
Lemma rr_ready_all_finished processes nai ct :
  rr_ready None processes [] nai ct -> (length processes <= nai)%nat ->
  Forall finished processes.
Proof.
  intros (_ & _ & _ & Hall) Hn. apply Forall_lookup. intros i p Hp.
  destruct (Hall i p Hp) as (H1 & H2 & H3 & H4 & H5 & H6).
  pose proof (lookup_lt_Some _ _ _ Hp) as Hi.
  assert (remaining_time p = 0) as Hz.
  { destruct (decide (0 < remaining_time p)) as [Hpos|]; [|lia].
    specialize (H4 ltac:(done) ltac:(lia) Hpos). by apply elem_of_nil in H4. }
  split; [done|]. by apply H6.
Qed.

Lemma rr_inv_exit sorted st :
  rr_inv sorted st -> rr_cond (length sorted) st = false ->
  Forall finished (rr_processes st).
Proof.
  intros Hinv Hc. pose proof (rr_inv_length _ _ Hinv) as Hlen.
  destruct Hinv as (_ & _ & _ & _ & (_ & _ & _ & Hall) & Hcnt).
  unfold rr_cond in Hc. apply Nat.ltb_ge in Hc.
  rewrite Hcnt, <- Hlen in Hc. apply count_if_all in Hc.
  rewrite Forall_lookup in Hc. apply Forall_lookup. intros i p Hp.
  specialize (Hc i p Hp). apply Z.eqb_eq in Hc.
  split; [done|]. destruct (Hall i p Hp) as (_ & _ & _ & _ & _ & H6).
  by apply H6.
Qed.

Lemma execution_time_bounds time_quantum p :
  0 <= time_quantum -> 0 < remaining_time p ->
  0 <= execution_time time_quantum p <= remaining_time p /\
  (0 < time_quantum -> 0 < execution_time time_quantum p) /\
  (remaining_time p <= time_quantum ->
   execution_time time_quantum p = remaining_time p).
Proof.
  intros Hq Hr. unfold execution_time.
  destruct (Z.ltb_spec (remaining_time p) time_quantum); lia.
Qed.

(** What one iteration does from a state of the invariant: it waits for
    the next arrival, or leaves the loop with every process finished, or
    runs the process at the front of the queue for one slice. *)
Lemma rr_body_spec time_quantum sorted st :
  0 <= time_quantum -> rr_inv sorted st ->
  let processes := rr_processes st in
  let ct := rr_current_time st in
  let nai := rr_next_arrival_idx st in
  exists next1 : nat,
    (nai <= next1 <= length sorted)%nat /\
    (forall i p, (nai <= i < next1)%nat -> processes !! i = Some p ->
       arrival_time p <= ct) /\
    (forall p, processes !! next1 = Some p -> ct < arrival_time p) /\
    let ready1 :=
      queue_contents (rr_ready_queue st)
        ++ map Z.of_nat (seq nai (next1 - nai)) in
    ((ready1 = [] /\ rr_idle_flag st = 1%nat /\
      exists p st', processes !! next1 = Some p /\
        rr_body time_quantum st = Next st' /\ rr_inv sorted st' /\
        rr_processes st' = processes /\
        queue_contents (rr_ready_queue st') = [] /\
        rr_current_time st' = arrival_time p /\
        rr_completed st' = rr_completed st /\
        rr_next_arrival_idx st' = next1) \/
     (ready1 = [] /\ processes !! next1 = None /\
      exists st', rr_body time_quantum st = Break st' /\
        rr_processes st' = processes /\ Forall finished processes) \/
     (exists idx p waiting next3 p' st',
        ready1 = Z.of_nat idx :: waiting /\ rr_idle_flag st = 0%nat /\
        processes !! idx = Some p /\
        0 < remaining_time p /\ arrival_time p <= ct /\
        rr_body time_quantum st = Next st' /\ rr_inv sorted st' /\
        rr_processes st' = <[idx:=p']> processes /\
        static_fields p' = static_fields p /\
        remaining_time p' = remaining_time p - execution_time time_quantum p /\
        (remaining_time p' = 0 ->
         completion_time p' = ct + execution_time time_quantum p) /\
        rr_current_time st' = ct + execution_time time_quantum p /\
        rr_next_arrival_idx st' = next3 /\
        (next1 <= next3 <= length sorted)%nat /\
        (forall i pi, (next1 <= i < next3)%nat -> processes !! i = Some pi ->
           arrival_time pi <= ct + execution_time time_quantum p) /\
        (forall pn, processes !! next3 = Some pn ->
           ct + execution_time time_quantum p < arrival_time pn) /\
        queue_contents (rr_ready_queue st') =
        waiting ++ map Z.of_nat (seq next1 (next3 - next1))
          ++ (if remaining_time p' =? 0 then [] else [Z.of_nat idx]) /\
        rr_completed st' =
        if remaining_time p' =? 0 then S (rr_completed st)
        else rr_completed st)).
Proof.
  intros Hq Hinv processes ct nai.
  pose proof (rr_inv_length _ _ Hinv) as Hlen. fold processes in Hlen.
  destruct Hinv as (Hst & Hwf & Hcap & Hnai & Hready & Hcnt).
  fold processes in Hst, Hready, Hcnt. fold nai in Hnai, Hready. fold ct in Hready.
  pose proof (rr_ready_length _ _ _ _ _ Hready) as HlenQ.
  rewrite queue_contents_length in HlenQ.
  assert (0 <= size (rr_ready_queue st)) as Hsz by (destruct Hwf; lia).
  destruct (enqueue_arrivals_spec processes ct (length processes - nai) nai
              (rr_ready_queue st))
    as (queue1 & next1 & Heq1 & Hwf1 & Hcap1 & Hrange1 & Hcont1 & Harr1 & Hstop1);
    [lia|done|lia|].
  exists next1. split; [lia|]. split; [done|]. split; [done|].
  pose proof (rr_ready_arrivals None processes _ nai next1 ct Hready Hrange1 Harr1)
    as Hready1.
  rewrite <- Hcont1. rewrite <- Hcont1 in Hready1.
  assert (rr_idle_flag st = if is_empty queue1 then 1%nat else 0%nat) as Hflag.
  { unfold rr_idle_flag. fold processes nai ct. by rewrite Heq1. }
  unfold rr_body. cbv zeta. fold processes nai ct. rewrite Heq1.
  cbv beta iota.
  destruct (is_empty queue1) eqn:Hemp.
  - apply is_empty_contents in Hemp; [|done].
    destruct (processes !! next1) as [p|] eqn:Hp.
    + left. split; [done|]. split; [done|]. eexists p, _.
      split; [done|]. split; [reflexivity|]. simpl.
      split; [|by rewrite Hemp].
      unfold rr_inv. simpl. fold processes.
      split; [done|]. split; [done|]. split; [lia|]. split; [lia|].
      split; [|done]. eapply rr_ready_time; [done|].
      specialize (Hstop1 p eq_refl). lia.
    + right. left. split; [done|]. split; [done|]. eexists.
      split; [reflexivity|]. split; [done|].
      rewrite Hemp in Hready1.
      eapply rr_ready_all_finished; [done|].
      apply lookup_ge_None in Hp. lia.
  - right. right.
    assert (0 < size queue1) as Hpos1.
    { unfold is_empty in Hemp. apply Z.eqb_neq in Hemp. destruct Hwf1; lia. }
    destruct (dequeue_spec queue1 Hwf1 Hpos1)
      as (v & queue2 & Hdeq & Hcont2 & Hwf2).
    rewrite Hcont2 in Hready1.
    destruct (rr_ready_dequeue processes v _ next1 ct Hready1)
      as (idx & p & -> & Hp & Hrem & Harr & Hready2); [lia|].
    rewrite Hdeq. cbv beta iota.
    destruct (Z.ltb_spec (Z.of_nat idx) 0) as [|_]; [lia|].
    rewrite Nat2Z.id, Hp.
    set (p1 := if started p then p
               else set_started true (set_response_time (ct - arrival_time p) p)).
    assert (static_fields p1 = static_fields p /\
            remaining_time p1 = remaining_time p /\
            completion_time p1 = completion_time p) as (Hs1 & Hr1 & Hc1)
      by (unfold p1; by destruct (started p)).
    fold (execution_time time_quantum p1).
    assert (execution_time time_quantum p1 = execution_time time_quantum p) as He
      by (unfold execution_time; by rewrite Hr1).
    rewrite He. set (e := execution_time time_quantum p).
    destruct (execution_time_bounds time_quantum p Hq Hrem) as (Hbe & _ & _).
    fold e in Hbe.
    set (p2 := set_remaining_time (remaining_time p1 - e) p1).
    set (processes2 := <[idx:=p2]> processes).
    assert (rr_ready (Some idx) processes2 (queue_contents queue2) next1 (ct + e))
      as Hready2'.
    { apply (rr_ready_run idx p2 processes _ next1 ct); [done|lia|simpl; lia|].
      intros p0 Hp0. rewrite Hp in Hp0. injection Hp0 as <-.
      simpl. by apply static_fields_arrival. }
    pose proof (rr_ready_length _ _ _ _ _ Hready2') as HlenQ2.
    rewrite queue_contents_length in HlenQ2.
    assert (length processes2 = length processes) as Hlen2
      by apply length_insert.
    assert (capacity queue2 = capacity queue1) as Hcap2.
    { unfold dequeue in Hdeq. destruct (is_empty queue1); [done|].
      by injection Hdeq as _ <-. }
    assert (0 <= size queue2) as Hsz2 by (destruct Hwf2; lia).
    destruct (enqueue_arrivals_spec processes2 (ct + e)
                (length processes2 - next1) next1 queue2)
      as (queue3 & next3 & Heq3 & Hwf3 & Hcap3 & Hrange3 & Hcont3 & Harr3 & Hstop3);
      [lia|done|lia|].
    rewrite Heq3. cbv beta iota.
    pose proof (rr_ready_arrivals (Some idx) processes2 _ next1 next3 (ct + e)
                  Hready2' Hrange3 Harr3) as Hready3.
    rewrite <- Hcont3 in Hready3.
    assert (idx < next1)%nat as Hidx
      by (destruct Hready2 as (_ & _ & Hrun & _); by apply Hrun).
    assert (forall i, (next1 <= i)%nat -> processes2 !! i = processes !! i)
      as Hsame.
    { intros i Hi. unfold processes2. apply list_lookup_insert_ne. lia. }
    assert (processes2 !! idx = Some p2) as Hp2.
    { unfold processes2. apply list_lookup_insert_eq.
      by eapply lookup_lt_Some. }
    assert (map static_fields processes2 = map static_fields sorted) as Hst2.
    { rewrite <- Hst. unfold processes2.
      eapply map_static_fields_insert; [done|]. by rewrite <- Hs1. }
    assert (remaining_time p2 = remaining_time p - e) as Hr2
      by (simpl; by rewrite Hr1).
    exists idx, p, (queue_contents queue2), next3.
    destruct (Z.eqb_spec (remaining_time p2) 0) as [Hz|Hnz].
    + eexists (set_completion_time (ct + e) p2), _.
      split; [done|]. split; [by rewrite Hflag|]. split; [done|].
      split; [done|]. split; [done|]. split; [reflexivity|]. simpl.
      assert (<[idx:=set_completion_time (ct + e) p2]> processes2 =
              <[idx:=set_completion_time (ct + e) p2]> processes) as Hins
        by apply list_insert_insert_eq.
      split.
      { unfold rr_inv. simpl. split; [|split; [done|split; [lia|split; [lia|split]]]].
        - rewrite <- Hst2. by eapply map_static_fields_insert.
        - apply rr_ready_complete; [done|done|simpl|].
          + rewrite (static_fields_arrival _ _ Hs1). lia.
          + intros p0 Hp0. rewrite Hp2 in Hp0. by injection Hp0 as <-.
        - pose proof (count_if_insert (fun p => remaining_time p =? 0)
                        processes2 idx p2 (set_completion_time (ct + e) p2) Hp2)
            as Hc2.
          pose proof (count_if_insert (fun p => remaining_time p =? 0)
                        processes idx p p2 Hp) as Hc3.
          fold processes2 in Hc3. simpl in Hc2, Hc3.
          destruct (Z.eqb_spec (remaining_time p) 0); [lia|].
          destruct (Z.eqb_spec (remaining_time p1 - e) 0); lia. }
      split; [done|]. split; [done|]. split; [by rewrite Hr1|].
      split; [done|]. split; [done|]. split; [done|]. split; [lia|].
      split; [intros i pi Hi Hpi; apply (Harr3 i); [done|by rewrite Hsame by lia]|].
      split; [intros pn Hpn; apply Hstop3; by rewrite Hsame by lia|].
      destruct (Z.eqb_spec (remaining_time p1 - e) 0); [|lia].
      split; [by rewrite Hcont3, app_nil_r|done].
    + eexists p2, _.
      split; [done|]. split; [by rewrite Hflag|]. split; [done|].
      split; [done|]. split; [done|]. split; [reflexivity|]. simpl.
      assert (size queue3 < capacity queue3) as Hroom3.
      { pose proof (rr_ready_length _ _ _ _ _ Hready3) as HlenQ3.
        rewrite queue_contents_length in HlenQ3.
        assert (0 <= size queue3) by (destruct Hwf3; lia). lia. }
      destruct (enqueue_spec queue3 (Z.of_nat idx) Hwf3 Hroom3)
        as (_ & Hwf4 & Hcont4).
      split.
      { unfold rr_inv. simpl. fold processes2.
        split; [done|]. split; [done|].
        split; [rewrite enqueue_capacity; lia|]. split; [lia|]. split; [|].
        - rewrite Hcont4. eapply rr_ready_requeue; [done|done|lia].
        - pose proof (count_if_insert (fun p => remaining_time p =? 0)
                        processes idx p p2 Hp) as Hc3.
          fold processes2 in Hc3. simpl in Hc3.
          destruct (Z.eqb_spec (remaining_time p) 0); [lia|].
          destruct (Z.eqb_spec (remaining_time p1 - e) 0); [simpl in *; lia|].
          lia. }
      split; [done|]. split; [by rewrite <- Hs1|]. split; [by rewrite Hr1|].
      split; [simpl in *; lia|]. split; [done|]. split; [done|]. split; [lia|].
      split; [intros i pi Hi Hpi; apply (Harr3 i); [done|by rewrite Hsame by lia]|].
      split; [intros pn Hpn; apply Hstop3; by rewrite Hsame by lia|].
      destruct (Z.eqb_spec (remaining_time p1 - e) 0); [simpl in *; lia|].
      split; [|done]. by rewrite Hcont4, Hcont3, <- app_assoc.
Qed.

(** ** rr.c: the loop *)

Lemma count_if_finished processes :
  Forall finished processes ->
  count_if (fun p => remaining_time p =? 0) processes = length processes.
Proof.
  induction 1 as [|p l [Hp _] _ IH]; simpl; [done|].
  rewrite Hp. simpl. by rewrite IH.
Qed.


Lemma rr_inv_remaining_nonneg sorted st :
  rr_inv sorted st ->
  Forall (fun p => 0 <= remaining_time p) (rr_processes st).
Proof.
  intros (_ & _ & _ & _ & (_ & _ & _ & Hall) & _).
  apply Forall_lookup. intros i p Hp. by destruct (Hall i p Hp).
Qed.

Lemma rr_loop_partial time_quantum sorted fuel st :
  0 <= time_quantum -> sorted <> [] -> Forall unfinished sorted ->
  while (rr_cond (length sorted)) (rr_body time_quantum) fuel
    (rr_init sorted) = Returned st ->
  Forall finished (rr_processes st) /\
  map static_fields (rr_processes st) = map static_fields sorted.
Proof.
  intros Hq Hne HU Hw.
  eapply (while_partial _ _ (rr_inv sorted)
            (fun st => Forall finished (rr_processes st) /\
               map static_fields (rr_processes st) = map static_fields sorted));
    [| | |by apply rr_inv_init|exact Hw].
  - intros s Hinv Hc. split; [by eapply rr_inv_exit|]. by destruct Hinv.
  - intros s s' Hinv _ Hb.
    destruct (rr_body_spec time_quantum sorted s Hq Hinv)
      as (next1 & _ & _ & _ & [Hidle|[Hbreak|Hrun]]).
    + destruct Hidle as (_ & _ & p & s1 & _ & Hb1 & _). congruence.
    + destruct Hbreak as (_ & _ & s1 & Hb1 & Hps & Hfin).
      assert (s1 = s') as -> by congruence. rewrite Hps.
      split; [done|]. by destruct Hinv.
    + destruct Hrun as (idx & p & w & n3 & p' & s1 & _ & _ & _ & _ & _ & Hb1 & _).
      congruence.
  - intros s s' Hinv _ Hb.
    destruct (rr_body_spec time_quantum sorted s Hq Hinv)
      as (next1 & _ & _ & _ & [Hidle|[Hbreak|Hrun]]).
    + destruct Hidle as (_ & _ & p & s1 & _ & Hb1 & Hinv1 & _). congruence.
    + destruct Hbreak as (_ & _ & s1 & Hb1 & _). congruence.
    + destruct Hrun as (idx & p & w & n3 & p' & s1 & _ & _ & _ & _ & _ & Hb1
                        & Hinv1 & _).
      congruence.
Qed.

(** After the jump to the next arrival some process is ready. *)
Lemma rr_idle_flag_after_jump time_quantum sorted st p :
  0 <= time_quantum -> rr_inv sorted st ->
  queue_contents (rr_ready_queue st) = [] ->
  rr_processes st !! rr_next_arrival_idx st = Some p ->
  rr_current_time st = arrival_time p ->
  rr_idle_flag st = 0%nat.
Proof.
  intros Hq Hinv Hempty Hp Hct.
  destruct (rr_body_spec time_quantum sorted st Hq Hinv)
    as (next1 & Hrange & _ & Hstop & [Hidle|[Hbreak|Hrun]]).
  - exfalso. destruct Hidle as (Hr & _). rewrite Hempty in Hr. simpl in Hr.
    apply (f_equal length) in Hr. rewrite length_map, length_seq in Hr.
    simpl in Hr. assert (next1 = rr_next_arrival_idx st) as -> by lia.
    specialize (Hstop p Hp). lia.
  - exfalso. destruct Hbreak as (Hr & _). rewrite Hempty in Hr. simpl in Hr.
    apply (f_equal length) in Hr. rewrite length_map, length_seq in Hr.
    simpl in Hr. assert (next1 = rr_next_arrival_idx st) as -> by lia.
    specialize (Hstop p Hp). lia.
  - by destruct Hrun as (idx & p0 & w & n3 & p' & s1 & _ & Hflag & _).
Qed.

(** With a positive quantum the loop returns: at most two iterations for
    each unit of burst time. *)
Lemma rr_loop_total time_quantum sorted :
  0 < time_quantum -> sorted <> [] -> Forall unfinished sorted ->
  exists st,
    while (rr_cond (length sorted)) (rr_body time_quantum)
      (2 * Z.to_nat (total_remaining sorted) + 1) (rr_init sorted)
    = Returned st.
Proof.
  intros Hq Hne HU.
  set (mu := fun st => (2 * Z.to_nat (total_remaining (rr_processes st)) +
                        rr_idle_flag st)%nat).
  destruct (while_total (rr_cond (length sorted)) (rr_body time_quantum)
              (rr_inv sorted) mu) with (s := rr_init sorted)
    as (r & Hr & _).
  - intros s Hinv Hc.
    pose proof (rr_inv_length _ _ Hinv) as Hlen.
    destruct (rr_body_spec time_quantum sorted s ltac:(lia) Hinv)
      as (next1 & _ & _ & _ & [Hidle|[Hbreak|Hrun]]).
    + destruct Hidle as (_ & Hflag & p & s' & Hp & Hb & Hinv' & Hps & Hq' & Hct
                         & _ & Hn').
      exists s'. split; [done|]. split; [done|].
      assert (rr_idle_flag s' = 0%nat) as Hflag'.
      { eapply (rr_idle_flag_after_jump time_quantum); [lia|done|done| |done].
        by rewrite Hps, Hn'. }
      unfold mu. rewrite Hps, Hflag, Hflag'. lia.
    + exfalso. destruct Hbreak as (_ & _ & _ & _ & _ & Hfin).
      apply count_if_finished in Hfin.
      destruct Hinv as (_ & _ & _ & _ & _ & Hcnt).
      unfold rr_cond in Hc. apply Nat.ltb_lt in Hc. lia.
    + destruct Hrun as (idx & p & w & n3 & p' & s' & _ & Hflag & Hp & Hrem & _
                        & Hb & Hinv' & Hps & _ & Hrem' & _).
      exists s'. split; [done|]. split; [done|].
      destruct (execution_time_bounds time_quantum p ltac:(lia) Hrem)
        as (_ & He & _). specialize (He Hq).
      pose proof (total_remaining_nonneg _ (rr_inv_remaining_nonneg _ _ Hinv')).
      assert (rr_idle_flag s' <= 1)%nat
        by (unfold rr_idle_flag; destruct (is_empty _); lia).
      unfold mu. rewrite Hflag.
      rewrite Hps, (total_remaining_insert _ _ _ _ Hp) in *. lia.
  - by apply rr_inv_init.
  - exists r. eapply while_fuel_mono; [exact Hr|].
    unfold mu. simpl.
    assert (rr_idle_flag (rr_init sorted) <= 1)%nat
      by (unfold rr_idle_flag; destruct (is_empty _); lia).
    lia.
Qed.


(** ** fcfs.c against rr.c *)

Lemma fcfs_finish_time_app l1 l2 t :
  fcfs_finish_time (l1 ++ l2) t = fcfs_finish_time l2 (fcfs_finish_time l1 t).
Proof. revert t. induction l1 as [|p l1 IH]; intros t; simpl; [done|]. by rewrite IH. Qed.

Lemma fcfs_loop_completion l t i p :
  fcfs_loop l t !! i = Some p ->
  completion_time p = fcfs_finish_time (take (S i) l) t.
Proof.
  revert t i. induction l as [|q l IH]; intros t i Hp; [done|].
  destruct i as [|i]; simpl in *.
  - injection Hp as <-. simpl. by destruct l.
  - by apply IH.
Qed.

Lemma seq_app_consecutive a b c :
  (a <= b <= c)%nat -> seq a (b - a) ++ seq b (c - b) = seq a (c - a).
Proof.
  intros H. replace (c - a)%nat with ((b - a) + (c - b))%nat by lia.
  rewrite seq_app. do 2 f_equal. lia.
Qed.

Lemma rr_fcfs_inv_init sorted :
  sorted <> [] -> Forall unfinished sorted ->
  Forall (fun p => remaining_time p = burst_time p) sorted ->
  rr_fcfs_inv sorted (rr_init sorted).
Proof.
  intros Hne HU Hfresh. unfold rr_fcfs_inv. simpl.
  split; [by apply rr_inv_init|]. split; [intros; lia|].
  split; [|done].
  intros i p _ Hp. rewrite Forall_lookup in Hfresh. by eapply Hfresh.
Qed.

Lemma rr_fcfs_step time_quantum sorted st st' :
  Forall (fun p => 0 < burst_time p <= time_quantum) sorted ->
  rr_fcfs_inv sorted st -> rr_body time_quantum st = Next st' ->
  rr_fcfs_inv sorted st'.
Proof.
  intros Hq (Hinv & Hdone & Hwait & Hk & Hqueue & Hfin & Hjump) Hb.
  pose proof (rr_inv_nonempty _ _ Hinv) as Hn.
  assert (0 <= time_quantum) as Hq0.
  { destruct sorted as [|p0 l]; [simpl in Hn; lia|].
    apply Forall_cons in Hq as [? _]. lia. }
  pose proof Hinv as (Hst & _).
  destruct (rr_body_spec time_quantum sorted st Hq0 Hinv)
    as (next1 & Hrange1 & _ & Hstop1 & [Hidle|[Hbreak|Hrun]]).
  - destruct Hidle as (Hr & _ & p & s1 & Hp & Hb1 & Hinv1 & Hps & Hq1 & Hct & Hc
                       & Hn1).
    assert (s1 = st') as -> by congruence.
    rewrite Hqueue in Hr. apply (f_equal length) in Hr.
    rewrite length_app, !length_map, !length_seq in Hr. simpl in Hr.
    assert (rr_next_arrival_idx st = rr_completed st) as Hnk by lia.
    assert (next1 = rr_completed st) as -> by lia.
    specialize (Hstop1 p Hp).
    unfold rr_fcfs_inv. rewrite Hps, Hq1, Hct, Hc, Hn1.
    split; [done|]. split; [done|]. split; [done|]. split; [done|].
    split; [by rewrite Nat.sub_diag|]. split; [lia|]. intros _.
    split; [done|].
    destruct (map_static_fields_lookup _ _ _ _ Hst Hp) as (p0 & Hp0 & Heq).
    exists p0. split; [done|]. symmetry. by apply static_fields_arrival.
  - destruct Hbreak as (_ & _ & s1 & Hb1 & _). congruence.
  - destruct Hrun as (idx & p & w & next3 & p' & s1 & Hr & _ & Hp & Hrem & Harr
                      & Hb1 & Hinv1 & Hps & Hs' & Hrem' & Hcomp & Hct & Hn3
                      & Hrange3 & _ & _ & Hq3 & Hc).
    assert (s1 = st') as -> by congruence.
    rewrite Hqueue, <- map_app, seq_app_consecutive in Hr by lia.
    assert (idx = rr_completed st /\
            w = map Z.of_nat (seq (S (rr_completed st))
                                (next1 - S (rr_completed st)))) as [-> ->].
    { destruct (next1 - rr_completed st)%nat as [|m] eqn:Hm; [done|].
      simpl in Hr. injection Hr as Hidx Hw.
      split; [lia|]. rewrite <- Hw. do 2 f_equal. lia. }
    set (k := rr_completed st) in *.
    assert (k < next1)%nat as Hk1.
    { destruct (next1 - k)%nat eqn:Hm; [done|lia]. }
    destruct (map_static_fields_lookup _ _ _ _ Hst Hp) as (p0 & Hp0 & Heq).
    rewrite Forall_lookup in Hq. pose proof (Hq k p0 Hp0) as [Hb0 Hbq].
    pose proof (Hwait k p ltac:(lia) Hp) as Hfresh.
    rewrite <- (static_fields_burst _ _ Heq) in Hb0, Hbq.
    destruct (execution_time_bounds time_quantum p Hq0 Hrem) as (_ & _ & He).
    rewrite He in * by lia.
    assert (remaining_time p' = 0) as Hz by lia.
    rewrite Hz in Hc, Hq3. simpl in Hc, Hq3. specialize (Hcomp Hz).
    assert (fcfs_finish_time (take (S k) sorted) 0 =
            rr_current_time st + remaining_time p) as Hfinish.
    { rewrite (take_S_r _ _ _ Hp0), fcfs_finish_time_app. simpl.
      rewrite <- (static_fields_arrival _ _ Heq), <- (static_fields_burst _ _ Heq).
      rewrite Hfresh.
      destruct (Z.ltb_spec (fcfs_finish_time (take k sorted) 0) (arrival_time p))
        as [Hlt|Hge].
      - destruct Hjump as (_ & p1 & Hp1 & Hct1); [lia|].
        rewrite Hp0 in Hp1. injection Hp1 as <-.
        rewrite <- (static_fields_arrival _ _ Heq) in Hct1. lia.
      - destruct (decide (fcfs_finish_time (take k sorted) 0 < rr_current_time st))
          as [Hlt|]; [|lia].
        destruct (Hjump Hlt) as (_ & p1 & Hp1 & Hct1).
        rewrite Hp0 in Hp1. injection Hp1 as <-.
        rewrite <- (static_fields_arrival _ _ Heq) in Hct1. lia. }
    unfold rr_fcfs_inv. rewrite Hps, Hct, Hn3, Hc, Hq3. fold k.
    split; [done|]. split; [|split; [|split; [lia|split; [|split; [lia|lia]]]]].
    + intros i q Hi Hq'. destruct (decide (i = k)) as [->|Hne].
      * rewrite list_lookup_insert_eq in Hq' by (by eapply lookup_lt_Some).
        injection Hq' as <-. lia.
      * rewrite list_lookup_insert_ne in Hq' by done.
        apply (Hdone i); [lia|done].
    + intros i q Hi Hq'. rewrite list_lookup_insert_ne in Hq' by lia.
      apply (Hwait i); [lia|done].
    + rewrite app_nil_r, <- map_app. f_equal.
      apply seq_app_consecutive. lia.
Qed.

(** When no burst exceeds the quantum, the loop of [rr_schedule] leaves
    the completion times of the loop of [fcfs_schedule]. *)
Lemma rr_loop_fcfs time_quantum sorted fuel st :
  sorted <> [] -> Forall unfinished sorted ->
  Forall (fun p => remaining_time p = burst_time p) sorted ->
  Forall (fun p => 0 < burst_time p <= time_quantum) sorted ->
  while (rr_cond (length sorted)) (rr_body time_quantum) fuel
    (rr_init sorted) = Returned st ->
  map completion_time (rr_processes st) =
  map completion_time (fcfs_loop sorted 0).
Proof.
  intros Hne HU Hfresh Hq Hw.
  assert (forall s, rr_fcfs_inv sorted s ->
            (length sorted <= rr_completed s)%nat ->
            map completion_time (rr_processes s) =
            map completion_time (fcfs_loop sorted 0)) as Hexit.
  { intros s (Hinv & Hdone & _) Hc.
    pose proof (rr_inv_length _ _ Hinv) as Hlen.
    apply list_eq. intros i. rewrite !list_lookup_fmap.
    destruct (rr_processes s !! i) as [p|] eqn:Hp.
    - pose proof (lookup_lt_Some _ _ _ Hp) as Hi.
      destruct (lookup_lt_is_Some_2 (fcfs_loop sorted 0) i) as [p' Hp'].
      { rewrite fcfs_loop_length. lia. }
      rewrite Hp'. simpl. f_equal.
      rewrite (Hdone i p ltac:(lia) Hp).
      symmetry. by apply fcfs_loop_completion.
    - apply lookup_ge_None in Hp.
      rewrite (proj2 (lookup_ge_None (fcfs_loop sorted 0) i)); [done|].
      rewrite fcfs_loop_length. lia. }
  eapply (while_partial _ _ (rr_fcfs_inv sorted)
            (fun st => map completion_time (rr_processes st) =
                        map completion_time (fcfs_loop sorted 0)));
    [| | |by apply rr_fcfs_inv_init|exact Hw].
  - intros s Hinv Hc. apply Hexit; [done|].
    unfold rr_cond in Hc. by apply Nat.ltb_ge in Hc.
  - intros s s' Hinv _ Hb. pose proof Hinv as (Hinv0 & _).
    assert (0 <= time_quantum) as Hq0.
    { destruct sorted as [|p0 l]; [done|].
      apply Forall_cons in Hq as [? _]. lia. }
    destruct (rr_body_spec time_quantum sorted s Hq0 Hinv0)
      as (next1 & _ & _ & _ & [Hidle|[Hbreak|Hrun]]).
    + destruct Hidle as (_ & _ & p & s1 & _ & Hb1 & _). congruence.
    + destruct Hbreak as (_ & _ & s1 & Hb1 & Hps & Hfin).
      assert (s1 = s') as -> by congruence. rewrite Hps.
      apply Hexit; [done|].
      apply count_if_finished in Hfin.
      pose proof (rr_inv_length _ _ Hinv0) as Hlen.
      destruct Hinv0 as (Hst & _ & _ & _ & _ & Hcnt).
      rewrite Hcnt, Hfin. lia.
    + destruct Hrun as (idx & p & w & n3 & p' & s1 & _ & _ & _ & _ & _ & Hb1 & _).
      congruence.
  - intros s s' Hinv _ Hb. by eapply rr_fcfs_step.
Qed.

(** ** Steps that keep the static fields, whatever the state *)

Lemma sjf_preemptive_body_static st st' :
  sjf_preemptive_body st = Next st' ->
  map static_fields (sjf_processes st') = map static_fields (sjf_processes st).
Proof.
  unfold sjf_preemptive_body.
  destruct (find_shortest _ _ _ _ _ _ _) as [idx|]; [|by intros [= <-]].
  destruct (sjf_processes st !! idx) as [p|] eqn:Hp; [|done].
  cbv zeta. destruct (_ =? 0); intros [= <-]; simpl;
    (eapply map_static_fields_insert; [done|]); by destruct (started p).
Qed.

Lemma rr_body_static time_quantum st st' :
  rr_body time_quantum st = Next st' \/ rr_body time_quantum st = Break st' ->
  map static_fields (rr_processes st') = map static_fields (rr_processes st).
Proof.
  unfold rr_body. cbv zeta.
  destruct (enqueue_arrivals _ _ _ _) as [queue1 next1].
  destruct (is_empty queue1).
  { destruct (rr_processes st !! next1); intros [[= <-]|[= <-]]; done. }
  destruct (dequeue queue1) as [[v queue2]|]; [|by intros [|]].
  destruct (v <? 0); [by intros [|]|].
  destruct (rr_processes st !! Z.to_nat v) as [p|] eqn:Hp; [|by intros [|]].
  destruct (enqueue_arrivals _ _ _ _) as [queue3 next3].
  destruct (_ =? 0); intros [[= <-]|[=]]; simpl.
  - rewrite list_insert_insert_eq.
    eapply map_static_fields_insert; [done|]. by destruct (started p).
  - eapply map_static_fields_insert; [done|]. by destruct (started p).
Qed.

Lemma sjf_preemptive_loop_static sorted fuel st :
  while (sjf_cond (length sorted)) sjf_preemptive_body fuel
    (sjf_init sorted) = Returned st ->
  map static_fields (sjf_processes st) = map static_fields sorted.
Proof.
  apply (while_partial _ _
           (fun s => map static_fields (sjf_processes s) =
                     map static_fields sorted)
           (fun s => map static_fields (sjf_processes s) =
                     map static_fields sorted)); try done.
  - unfold sjf_preemptive_body. intros s s' _ _.
    destruct (find_shortest _ _ _ _ _ _ _); [|done].
    destruct (_ !! _); [|done]. cbv zeta. by destruct (_ =? 0).
  - intros s s' Hs _ Hb. by rewrite (sjf_preemptive_body_static _ _ Hb).
Qed.

Lemma rr_loop_static time_quantum sorted fuel st :
  while (rr_cond (length sorted)) (rr_body time_quantum) fuel
    (rr_init sorted) = Returned st ->
  map static_fields (rr_processes st) = map static_fields sorted.
Proof.
  apply (while_partial _ _
           (fun s => map static_fields (rr_processes s) =
                     map static_fields sorted)
           (fun s => map static_fields (rr_processes s) =
                     map static_fields sorted)); try done.
  - intros s s' Hs _ Hb. rewrite <- Hs. eapply rr_body_static. by right.
  - intros s s' Hs _ Hb. rewrite <- Hs. eapply rr_body_static. by left.
Qed.

Lemma map_static_fields_metrics processes :
  map static_fields (fst (calculate_metrics processes)) =
  map static_fields processes.
Proof. rewrite calculate_metrics_fst, map_map. by apply map_ext. Qed.

Lemma map_completion_time_metrics processes :
  map completion_time (fst (calculate_metrics processes)) =
  map completion_time processes.
Proof. rewrite calculate_metrics_fst, map_map. by apply map_ext. Qed.

Lemma Forall_finished_metrics processes :
  Forall finished processes -> Forall finished (fst (calculate_metrics processes)).
Proof.
  intros H. rewrite calculate_metrics_fst.
  apply Forall_metrics_step; [|done]. apply finished_metrics_step.
Qed.

Lemma well_formed_unfinished p : well_formed p -> unfinished p.
Proof. unfold well_formed, unfinished. lia. Qed.


Lemma below_INT_MAX_P123 : Forall below_INT_MAX [P1; P2; P3].
Proof. repeat constructor; simpl; unfold INT_MAX; lia. Qed.

(** * The schedulers as the specification describes them *)

Section Specification.

Variable qsort : (Process -> Process -> Z) -> list Process -> list Process.
Hypothesis qsort_Permutation :
  forall l, qsort compare_arrival_time l ≡ₚ l.
Hypothesis qsort_Sorted :
  forall l, Sorted compare_le (qsort compare_arrival_time l).

Lemma qsort_Forall (P : Process -> Prop) l :
  Forall P l -> Forall P (qsort compare_arrival_time l).
Proof. intros H. by rewrite qsort_Permutation. Qed.

Lemma qsort_nil l : qsort compare_arrival_time l = [] -> l = [].
Proof.
  intros H. apply Permutation_nil_r. by rewrite <- H, qsort_Permutation.
Qed.

Lemma qsort_arrival_sorted l :
  StronglySorted arrival_le (qsort compare_arrival_time l).
Proof. apply Sorted_compare_strongly, qsort_Sorted. Qed.

(** ** Runs of the four schedulers return *)

Lemma sjf_non_preemptive_schedule_returns processes :
  Forall below_INT_MAX processes ->
  exists r,
    sjf_non_preemptive_schedule qsort (2 * length processes + 1) processes
    = Returned r.
Proof.
  intros Hb. unfold sjf_non_preemptive_schedule.
  destruct (sjf_non_preemptive_loop_total (qsort compare_arrival_time processes))
    as [st Hst]; [by apply qsort_Forall|].
  rewrite (Permutation_length (qsort_Permutation processes)) in Hst at 2.
  rewrite Hst. by eexists.
Qed.

Lemma total_remaining_Permutation l l' :
  l ≡ₚ l' -> total_remaining l = total_remaining l'.
Proof.
  unfold total_remaining.
  induction 1 as [|x l l' _ IH|x y l|l l' l'' _ IH1 _ IH2]; simpl; lia.
Qed.

Lemma sjf_preemptive_schedule_returns processes :
  Forall well_formed processes -> Forall below_INT_MAX processes ->
  exists r,
    sjf_preemptive_schedule qsort
      (2 * Z.to_nat (total_remaining processes) + 1) processes
    = Returned r.
Proof.
  intros Hwf Hb. unfold sjf_preemptive_schedule.
  destruct (sjf_preemptive_loop_total (qsort compare_arrival_time processes))
    as [st Hst]; [|by apply qsort_Forall|].
  { apply qsort_Forall. eapply Forall_impl; [exact Hwf|].
    apply well_formed_unfinished. }
  rewrite (total_remaining_Permutation _ _ (qsort_Permutation processes)) in Hst.
  rewrite Hst. by eexists.
Qed.

Lemma rr_schedule_returns processes time_quantum :
  Forall well_formed processes -> 0 < time_quantum ->
  exists r,
    rr_schedule qsort (2 * Z.to_nat (total_remaining processes) + 1)
      processes time_quantum
    = Returned r.
Proof.
  intros Hwf Hq. unfold rr_schedule.
  destruct (decide (qsort compare_arrival_time processes = [])) as [Hnil|Hne].
  - rewrite Hnil. rewrite while_cond_false by done. by eexists.
  - destruct (rr_loop_total time_quantum (qsort compare_arrival_time processes))
      as [st Hst]; [done|done| |].
    { apply qsort_Forall. eapply Forall_impl; [exact Hwf|].
      apply well_formed_unfinished. }
    rewrite (total_remaining_Permutation _ _ (qsort_Permutation processes)) in Hst.
    rewrite Hst. by eexists.
Qed.

(** ** Every process is finished *)

(** The array a scheduler leaves holds the processes of the input with
    their static fields, in another order. *)
Lemma schedulers_static processes time_quantum :
  map static_fields (fst (fcfs_schedule qsort processes))
    ≡ₚ map static_fields processes /\
  (forall fuel r,
     sjf_non_preemptive_schedule qsort fuel processes = Returned r ->
     map static_fields (fst r) ≡ₚ map static_fields processes) /\
  (forall fuel r,
     sjf_preemptive_schedule qsort fuel processes = Returned r ->
     map static_fields (fst r) ≡ₚ map static_fields processes) /\
  (forall fuel r,
     rr_schedule qsort fuel processes time_quantum = Returned r ->
     map static_fields (fst r) ≡ₚ map static_fields processes).
Proof.
  assert (map static_fields (qsort compare_arrival_time processes)
            ≡ₚ map static_fields processes) as Hperm
    by (apply Permutation_map, qsort_Permutation).
  split; [|split; [|split]].
  - unfold fcfs_schedule.
    by rewrite map_static_fields_metrics, fcfs_loop_static_fields.
  - intros fuel r Hr. unfold sjf_non_preemptive_schedule in Hr.
    apply outcome_map_Returned in Hr as (st & Hst & ->).
    rewrite map_static_fields_metrics.
    eapply (sjf_non_preemptive_loop_partial (fun _ => True) (fun _ => True))
      in Hst as [_ Hst]; [by rewrite Hst|done|by apply Forall_true].
  - intros fuel r Hr. unfold sjf_preemptive_schedule in Hr.
    apply outcome_map_Returned in Hr as (st & Hst & ->).
    rewrite map_static_fields_metrics.
    by rewrite (sjf_preemptive_loop_static _ _ _ Hst).
  - intros fuel r Hr. unfold rr_schedule in Hr.
    apply outcome_map_Returned in Hr as (st & Hst & ->).
    rewrite map_static_fields_metrics.
    by rewrite (rr_loop_static _ _ _ _ Hst).
Qed.

(** Over unbounded integers: on a well-formed process set, whenever one
    of the four schedulers returns, Round Robin with a positive quantum,
    every process is finished; FCFS and Round Robin do return, and so do
    the two SJF schedulers when the arrival and burst times are below
    [INT_MAX]. *)
Lemma schedulers_finish_unbounded processes time_quantum :
  Forall well_formed processes -> 0 < time_quantum ->
  Forall finished (fst (fcfs_schedule qsort processes)) /\
  (forall fuel r,
     sjf_non_preemptive_schedule qsort fuel processes = Returned r ->
     Forall finished (fst r)) /\
  (forall fuel r,
     sjf_preemptive_schedule qsort fuel processes = Returned r ->
     Forall finished (fst r)) /\
  (forall fuel r,
     rr_schedule qsort fuel processes time_quantum = Returned r ->
     Forall finished (fst r)) /\
  (exists fuel r,
     rr_schedule qsort fuel processes time_quantum = Returned r) /\
  (Forall below_INT_MAX processes ->
   (exists fuel r,
      sjf_non_preemptive_schedule qsort fuel processes = Returned r) /\
   (exists fuel r,
      sjf_preemptive_schedule qsort fuel processes = Returned r)).
Proof.
  intros Hwf Hq.
  assert (Forall well_formed (qsort compare_arrival_time processes)) as Hwf'
    by by apply qsort_Forall.
  assert (Forall unfinished (qsort compare_arrival_time processes)) as HU.
  { eapply Forall_impl; [exact Hwf'|]. apply well_formed_unfinished. }
  split; [|split; [|split; [|split; [|split]]]].
  - unfold fcfs_schedule. apply Forall_finished_metrics, fcfs_loop_finished.
    eapply Forall_impl; [exact Hwf'|]. intros p (_ & ? & _). simpl. lia.
  - intros fuel r Hr. unfold sjf_non_preemptive_schedule in Hr.
    apply outcome_map_Returned in Hr as (st & Hst & ->).
    apply Forall_finished_metrics.
    eapply (sjf_non_preemptive_loop_partial
              (fun p => 0 <= burst_time p) finished); [| |exact Hst].
    + intros p ct Hp Ha. unfold finished. simpl. lia.
    + eapply Forall_impl; [exact Hwf'|]. intros p (_ & ? & _). simpl. lia.
  - intros fuel r Hr. unfold sjf_preemptive_schedule in Hr.
    apply outcome_map_Returned in Hr as (st & Hst & ->).
    apply Forall_finished_metrics.
    by eapply sjf_preemptive_loop_partial.
  - intros fuel r Hr. unfold rr_schedule in Hr.
    apply outcome_map_Returned in Hr as (st & Hst & ->).
    apply Forall_finished_metrics.
    destruct (decide (qsort compare_arrival_time processes = [])) as [Hnil|Hne].
    + rewrite Hnil, while_cond_false in Hst by done. by injection Hst as <-.
    + eapply rr_loop_partial; [|done|done|exact Hst]. lia.
  - destruct (rr_schedule_returns processes time_quantum Hwf Hq) as [r Hr].
    by eexists _, r.
  - intros Hb. split.
    + destruct (sjf_non_preemptive_schedule_returns processes Hb) as [r Hr].
      by eexists _, r.
    + destruct (sjf_preemptive_schedule_returns processes Hwf Hb) as [r Hr].
      by eexists _, r.
Qed.

(** ** C8 *)

Lemma response_is_waiting_metrics_step p :
  response_time p = completion_time p - arrival_time p - burst_time p ->
  response_time (metrics_step p) = waiting_time (metrics_step p).
Proof. simpl. lia. Qed.

(** C8.  After [fcfs_schedule], and after [sjf_non_preemptive_schedule]
    whenever it returns, both of which end with the metrics computation,
    the array holds the processes of the input, and every one of them has
    [response_time = waiting_time].  The SJF run does return when the
    arrival and burst times are below [INT_MAX]. *)
Theorem response_time_is_waiting_time processes :
  let same_wait (r : list Process) :=
    map static_fields r ≡ₚ map static_fields processes /\
    Forall (fun p => response_time p = waiting_time p) r in
  same_wait (fst (fcfs_schedule qsort processes)) /\
  (forall fuel r,
     sjf_non_preemptive_schedule qsort fuel processes = Returned r ->
     same_wait (fst r)) /\
  (Forall below_INT_MAX processes ->
   exists fuel r,
     sjf_non_preemptive_schedule qsort fuel processes = Returned r).
Proof.
  intros same_wait.
  destruct (schedulers_static processes 1) as (Hs1 & Hs2 & _).
  split; [|split].
  - split; [exact Hs1|].
    unfold fcfs_schedule. rewrite calculate_metrics_fst.
    pose proof (fcfs_loop_response (qsort compare_arrival_time processes) 0) as H.
    induction H; simpl; constructor; [|done].
    by apply response_is_waiting_metrics_step.
  - intros fuel r Hr. split; [by eapply Hs2|].
    unfold sjf_non_preemptive_schedule in Hr.
    apply outcome_map_Returned in Hr as (st & Hst & ->).
    rewrite calculate_metrics_fst.
    eapply (sjf_non_preemptive_loop_partial (fun _ => True)
              (fun p => response_time p =
                        completion_time p - arrival_time p - burst_time p))
      in Hst as [Hst _].
    + induction Hst; simpl; constructor; [|done].
      by apply response_is_waiting_metrics_step.
    + intros p ct _ _. simpl. lia.
    + by apply Forall_true.
  - intros Hb.
    destruct (sjf_non_preemptive_schedule_returns processes Hb) as [r Hr].
    by eexists _, r.
Qed.

(** ** C10 *)

(** C10.  The array a scheduler leaves holds the processes of the input
    with their [id], [arrival_time], [burst_time] and [priority]
    unchanged, in another order: the static fields of the result are a
    permutation of those of the input. *)
Theorem schedulers_keep_static_fields processes time_quantum :
  map static_fields (fst (fcfs_schedule qsort processes))
    ≡ₚ map static_fields processes /\
  (forall fuel r,
     sjf_non_preemptive_schedule qsort fuel processes = Returned r ->
     map static_fields (fst r) ≡ₚ map static_fields processes) /\
  (forall fuel r,
     sjf_preemptive_schedule qsort fuel processes = Returned r ->
     map static_fields (fst r) ≡ₚ map static_fields processes) /\
  (forall fuel r,
     rr_schedule qsort fuel processes time_quantum = Returned r ->
     map static_fields (fst r) ≡ₚ map static_fields processes).
Proof.
  assert (map static_fields (qsort compare_arrival_time processes)
            ≡ₚ map static_fields processes) as Hperm
    by (apply Permutation_map, qsort_Permutation).
  split; [|split; [|split]].
  - unfold fcfs_schedule.
    by rewrite map_static_fields_metrics, fcfs_loop_static_fields.
  - intros fuel r Hr. unfold sjf_non_preemptive_schedule in Hr.
    apply outcome_map_Returned in Hr as (st & Hst & ->).
    rewrite map_static_fields_metrics.
    eapply (sjf_non_preemptive_loop_partial (fun _ => True) (fun _ => True))
      in Hst as [_ Hst]; [by rewrite Hst|done|by apply Forall_true].
  - intros fuel r Hr. unfold sjf_preemptive_schedule in Hr.
    apply outcome_map_Returned in Hr as (st & Hst & ->).
    rewrite map_static_fields_metrics.
    by rewrite (sjf_preemptive_loop_static _ _ _ Hst).
  - intros fuel r Hr. unfold rr_schedule in Hr.
    apply outcome_map_Returned in Hr as (st & Hst & ->).
    rewrite map_static_fields_metrics.
    by rewrite (rr_loop_static _ _ _ _ Hst).
Qed.

(** ** C2 *)

Lemma qsort_P123 : qsort compare_arrival_time [P1; P2; P3] = [P1; P2; P3].
Proof.
  apply sorted_permutation_unique;
    [|apply qsort_arrival_sorted|apply qsort_Permutation].
  repeat constructor; simpl; lia.
Qed.

(** C2.  On P1(arrival 0, burst 5), P2(1, 3), P3(2, 8): [fcfs_schedule]
    gives the completion times 5, 8, 16 and the waiting times 0, 4, 6;
    [sjf_preemptive_schedule] returns, after 16 iterations, with the
    completion times 8 for P1, 4 for P2 and 16 for P3, and its search
    picks P1 at time 0, P2 at times 1 to 3 (P1 is preempted at 1), P1 at
    times 4 to 7 and P3 only from time 8 on. *)
Theorem scenario_fcfs_and_srtf :
  map (fun p => (id p, completion_time p, waiting_time p))
    (fst (fcfs_schedule qsort [P1; P2; P3]))
  = [("P1", 5, 0); ("P2", 8, 4); ("P3", 16, 6)] /\
  (forall fuel, (16 <= fuel)%nat ->
   exists r,
     sjf_preemptive_schedule qsort fuel [P1; P2; P3] = Returned r /\
     map (fun p => (id p, completion_time p)) (fst r)
     = [("P1", 8); ("P2", 4); ("P3", 16)]) /\
  map sjf_preemptive_choice
    (while_states (sjf_cond 3) sjf_preemptive_body 16
       (sjf_init (qsort compare_arrival_time [P1; P2; P3])))
  = [(0, Some "P1"); (1, Some "P2"); (2, Some "P2"); (3, Some "P2");
     (4, Some "P1"); (5, Some "P1"); (6, Some "P1"); (7, Some "P1");
     (8, Some "P3"); (9, Some "P3"); (10, Some "P3"); (11, Some "P3");
     (12, Some "P3"); (13, Some "P3"); (14, Some "P3"); (15, Some "P3")].
Proof.
  split; [|split].
  - unfold fcfs_schedule. rewrite qsort_P123. vm_compute. reflexivity.
  - intros fuel Hfuel. unfold sjf_preemptive_schedule. rewrite qsort_P123.
    assert (exists st,
              while (sjf_cond (length [P1; P2; P3])) sjf_preemptive_body 16
                (sjf_init [P1; P2; P3]) = Returned st /\
              map (fun p => (id p, completion_time p))
                (fst (calculate_metrics (sjf_processes st)))
              = [("P1", 8); ("P2", 4); ("P3", 16)]) as (st & Hst & Hmap).
    { vm_compute. eexists. split; reflexivity. }
    rewrite (while_fuel_mono _ _ _ _ _ _ Hst Hfuel).
    eexists. split; [reflexivity|exact Hmap].
  - rewrite qsort_P123. vm_compute. reflexivity.
Qed.

(** ** C3 *)




(** ** The search of sjf.c *)

Lemma sjf_non_preemptive_reachable_inv sorted st :
  sjf_non_preemptive_reachable sorted st ->
  sjf_inv (fun _ => True) (fun _ => True) sorted st.
Proof.
  induction 1 as [|st st' _ IH _ Hb]; [by apply sjf_inv_init, Forall_true|].
  destruct (sjf_non_preemptive_step (fun _ => True) (fun _ => True) sorted st)
    as (s1 & Hb1 & Hinv1 & _); [done|done|]. congruence.
Qed.

(** What the search of a state of the loop picks, on the array sorted
    with the comparator over unbounded integers. *)
Lemma sjf_search_picks_shortest processes st :
  sjf_non_preemptive_reachable (qsort compare_arrival_time processes) st ->
  let ready := eligible (sjf_processes st) (sjf_is_completed st)
                 (sjf_current_time st) in
  let choice := find_shortest burst_time (sjf_processes st)
                  (sjf_is_completed st) (sjf_current_time st) 0 None INT_MAX in
  (forall idx, choice = Some idx ->
   exists p, ready idx p /\
     (forall j pj, ready j pj ->
        burst_time p <= burst_time pj /\
        (burst_time pj = burst_time p ->
         (idx <= j)%nat /\ arrival_time p <= arrival_time pj)) /\
     exists st', sjf_non_preemptive_body st = Next st' /\
       sjf_is_completed st' = <[idx:=true]> (sjf_is_completed st) /\
       sjf_current_time st' = sjf_current_time st + burst_time p) /\
  (choice = None -> forall j pj, ready j pj -> INT_MAX <= burst_time pj).
Proof.
  intros Hreach ready choice.
  pose proof (sjf_non_preemptive_reachable_inv _ _ Hreach) as Hinv.
  destruct (sjf_inv_length _ _ _ _ Hinv) as [Hlen1 Hlen2].
  destruct Hinv as (Hst & _).
  split.
  - intros idx Hc.
    destruct (find_shortest_Some _ _ _ _ _ Hlen2 Hc) as (p & Hp & _ & Hmin).
    exists p. split; [done|]. split.
    + intros j pj Hpj. destruct (Hmin j pj Hpj) as [Hle Htie].
      split; [done|]. intros Heq. specialize (Htie Heq). split; [done|].
      destruct Hp as (Hp & _). destruct Hpj as (Hpj & _).
      destruct (map_static_fields_lookup _ _ _ _ Hst Hp) as (q & Hq & Heqp).
      destruct (map_static_fields_lookup _ _ _ _ Hst Hpj) as (qj & Hqj & Heqj).
      rewrite (static_fields_arrival _ _ Heqp), (static_fields_arrival _ _ Heqj).
      by eapply (StronglySorted_arrival_lookup _ idx j);
        [apply qsort_arrival_sorted|..].
    + unfold sjf_non_preemptive_body. fold choice. rewrite Hc.
      destruct Hp as (-> & _). by eexists.
  - intros Hc. by apply find_shortest_None.
Qed.

(** ** C6 *)

(** C6, at the input on which the code fails.  [longest_job] is a
    well-formed process of burst time [INT_MAX].  On the set that holds it
    alone both SJF schedulers run out of any fuel: the searches never find
    a burst time below their initial value [INT_MAX], and the idle branch
    sets the time to the arrival time 0 again. *)
Theorem sjf_loops_forever_on_longest_job fuel :
  well_formed longest_job /\
  sjf_non_preemptive_schedule qsort fuel [longest_job] = OutOfFuel /\
  sjf_preemptive_schedule qsort fuel [longest_job] = OutOfFuel.
Proof.
  assert (qsort compare_arrival_time [longest_job] = [longest_job]) as Hq
    by (apply Permutation_singleton_r, qsort_Permutation).
  split; [by unfold well_formed|].
  unfold sjf_non_preemptive_schedule, sjf_preemptive_schedule. rewrite Hq.
  split.
  - rewrite (while_diverges _ _ (fun st => st = sjf_init [longest_job]));
      [done| |done].
    intros s ->. split; [done|]. by eexists.
  - rewrite (while_diverges _ _ (fun st => st = sjf_init [longest_job]));
      [done| |done].
    intros s ->. split; [done|]. by eexists.
Qed.

(** ** Round Robin with a large quantum *)

Lemma map_pair_eq {A B C : Type} (f : A -> B) (g : A -> C) (l l' : list A) :
  map f l = map f l' -> map g l = map g l' ->
  map (fun x => (f x, g x)) l = map (fun x => (f x, g x)) l'.
Proof.
  revert l'. induction l as [|x l IH]; intros [|y l']; simpl; try done.
  intros [= Hf Hfs] [= Hg Hgs]. rewrite Hf, Hg. f_equal. by apply IH.
Qed.

(** Over unbounded integers: on a well-formed process set none of whose
    burst times exceeds the quantum, [rr_schedule] returns, and the array
    it leaves has, cell by cell, the processes and the completion times of
    the array [fcfs_schedule] leaves on the same input. *)
Lemma rr_with_large_quantum_unbounded processes time_quantum :
  Forall well_formed processes ->
  Forall (fun p => burst_time p <= time_quantum) processes ->
  (exists fuel r,
     rr_schedule qsort fuel processes time_quantum = Returned r) /\
  (forall fuel r,
     rr_schedule qsort fuel processes time_quantum = Returned r ->
     map (fun p => (static_fields p, completion_time p)) (fst r) =
     map (fun p => (static_fields p, completion_time p))
       (fst (fcfs_schedule qsort processes))).
Proof.
  intros Hwf Hq.
  set (sorted := qsort compare_arrival_time processes).
  assert (Forall well_formed sorted) as Hwf' by by apply qsort_Forall.
  assert (Forall (fun p => burst_time p <= time_quantum) sorted) as Hq'
    by by apply qsort_Forall.
  destruct (decide (sorted = [])) as [Hnil|Hne].
  { split.
    - exists O. unfold rr_schedule. fold sorted. rewrite Hnil. by eexists.
    - intros fuel r Hr. unfold rr_schedule, fcfs_schedule in *.
      fold sorted in Hr |- *. rewrite Hnil in Hr |- *.
      rewrite while_cond_false in Hr by done. by injection Hr as <-. }
  split.
  - assert (0 < time_quantum) as Hpos.
    { destruct sorted as [|p l]; [done|].
      apply Forall_cons in Hwf' as [(_ & ? & _) _].
      apply Forall_cons in Hq' as [? _]. lia. }
    destruct (rr_schedule_returns processes time_quantum Hwf Hpos) as [r Hr].
    by eexists _, r.
  - intros fuel r Hr. unfold rr_schedule in Hr. fold sorted in Hr.
    apply outcome_map_Returned in Hr as (st & Hst & ->).
    unfold fcfs_schedule. fold sorted. apply map_pair_eq.
    + rewrite !map_static_fields_metrics, fcfs_loop_static_fields.
      by eapply rr_loop_static.
    + rewrite !map_completion_time_metrics.
      eapply rr_loop_fcfs; [done| | | |exact Hst].
      * eapply Forall_impl; [exact Hwf'|]. apply well_formed_unfinished.
      * eapply Forall_impl; [exact Hwf'|]. by intros p (_ & _ & ?).
      * rewrite Forall_forall in Hwf', Hq'. apply Forall_forall.
        intros p Hp. destruct (Hwf' p Hp) as (_ & ? & _).
        specialize (Hq' p Hp). simpl in *. lia.
Qed.

End Specification.

(** ** C9 *)

(** C9, the counterexample: on a completed process whose derived fields
    are still 0, [calculate_metrics] leaves an array that differs from
    the one it was given. *)
Lemma calculate_metrics_changes_the_array :
  fst (calculate_metrics [completed_P2]) <> [completed_P2].
Proof. rewrite calculate_metrics_fst. simpl. intros [= H]. Qed.

Lemma metrics_loop_totals processes tt tw tr :
  snd (metrics_loop processes tt tw tr) =
  (tt + Zsum (map turnaround_time (map metrics_step processes)),
   tw + Zsum (map waiting_time (map metrics_step processes)),
   tr + Zsum (map response_time processes)).
Proof.
  revert tt tw tr. induction processes as [|p l IH]; intros; simpl.
  - unfold Zsum. simpl. by rewrite !Z.add_0_r.
  - specialize (IH (tt + turnaround_time (metrics_step p))
      (tw + waiting_time (metrics_step p)) (tr + response_time (metrics_step p))).
    destruct (metrics_loop l _ _ _) as [rest totals]. simpl in *.
    rewrite IH. unfold Zsum. simpl. f_equal; [f_equal|]; lia.
Qed.

(** ** C4, the counterexample *)


(** * The theorems at concrete inputs, with the insertion sort as [qsort] *)

(** A goal [exists r, run = Returned r /\ _] on a closed run: the run is
    evaluated only to exclude the outcomes other than [Returned]. *)
Ltac run_returns H :=
  match goal with
  | |- exists r, ?run = Returned r /\ _ =>
    destruct run as [r| |] eqn:H;
    [exists r; split; [reflexivity|]|vm_compute in H; discriminate..]
  end.

Lemma scenario_fcfs_and_srtf_witness :
  (16 <= 20)%nat /\
  map (fun p => (id p, completion_time p, waiting_time p))
    (fst (fcfs_schedule insertion_sort [P1; P2; P3]))
  = [("P1", 5, 0); ("P2", 8, 4); ("P3", 16, 6)] /\
  exists r,
    sjf_preemptive_schedule insertion_sort 20 [P1; P2; P3] = Returned r /\
    map (fun p => (id p, completion_time p)) (fst r)
    = [("P1", 8); ("P2", 4); ("P3", 16)].
Proof.
  destruct (scenario_fcfs_and_srtf insertion_sort insertion_sort_Permutation
              insertion_sort_Sorted) as (Hfcfs & Hsrtf & _).
  split; [lia|]. split; [exact Hfcfs|]. apply Hsrtf. lia.
Defined.


Lemma sjf_loops_forever_on_longest_job_witness :
  sjf_non_preemptive_schedule insertion_sort 100 [longest_job] = OutOfFuel /\
  sjf_preemptive_schedule insertion_sort 100 [longest_job] = OutOfFuel.
Proof.
  exact (proj2 (sjf_loops_forever_on_longest_job insertion_sort
                  insertion_sort_Permutation 100%nat)).
Defined.

Lemma response_time_is_waiting_time_witness :
  let same_wait (r : list Process) :=
    map static_fields r ≡ₚ map static_fields [P3; P1; P2] /\
    Forall (fun p => response_time p = waiting_time p) r in
  Forall below_INT_MAX [P3; P1; P2] /\
  same_wait (fst (fcfs_schedule insertion_sort [P3; P1; P2])) /\
  (exists r,
     sjf_non_preemptive_schedule insertion_sort 3 [P3; P1; P2] = Returned r /\
     same_wait (fst r)) /\
  (exists fuel r,
     sjf_non_preemptive_schedule insertion_sort fuel [P3; P1; P2]
     = Returned r).
Proof.
  intros same_wait.
  assert (Forall below_INT_MAX [P3; P1; P2]) as Hbelow
    by (repeat constructor; simpl; unfold INT_MAX; lia).
  destruct (response_time_is_waiting_time insertion_sort
              insertion_sort_Permutation [P3; P1; P2]) as (Hfcfs & Hsjf & Hret).
  split; [exact Hbelow|]. split; [exact Hfcfs|]. split.
  - run_returns Hrun. exact (Hsjf 3%nat r Hrun).
  - exact (Hret Hbelow).
Defined.

Lemma schedulers_keep_static_fields_witness :
  map static_fields (fst (fcfs_schedule insertion_sort [P3; P1; P2]))
    ≡ₚ map static_fields [P3; P1; P2] /\
  (exists r,
     sjf_non_preemptive_schedule insertion_sort 3 [P3; P1; P2] = Returned r /\
     map static_fields (fst r) ≡ₚ map static_fields [P3; P1; P2]) /\
  (exists r,
     sjf_preemptive_schedule insertion_sort 16 [P3; P1; P2] = Returned r /\
     map static_fields (fst r) ≡ₚ map static_fields [P3; P1; P2]) /\
  (exists r,
     rr_schedule insertion_sort 9 [P3; P1; P2] 2 = Returned r /\
     map static_fields (fst r) ≡ₚ map static_fields [P3; P1; P2]).
Proof.
  destruct (schedulers_keep_static_fields insertion_sort
              insertion_sort_Permutation [P3; P1; P2] 2)
    as (Hfcfs & Hsjf & Hsrtf & Hrr).
  split; [exact Hfcfs|]. split; [|split].
  - run_returns Hrun. exact (Hsjf 3%nat r Hrun).
  - run_returns Hrun. exact (Hsrtf 16%nat r Hrun).
  - run_returns Hrun. exact (Hrr 9%nat r Hrun).
Defined.

(** * Further properties of the code *)

(** ** rr.c: the queue *)

(** X1.  On a buffer as the queue functions build them, [enqueue] succeeds
    exactly when fewer values than the capacity are held; it then puts the
    value behind all the others, also when the rear index wraps around to
    cell 0.  On a full buffer it returns [false] and changes nothing. *)
Theorem enqueue_appends_unless_full queue value :
  queue_wf queue ->
  (size queue < capacity queue ->
   fst (enqueue queue value) = true /\
   queue_wf (snd (enqueue queue value)) /\
   queue_contents (snd (enqueue queue value)) =
   queue_contents queue ++ [value]) /\
  (size queue = capacity queue -> enqueue queue value = (false, queue)).
Proof.
  intros Hwf. split.
  - intros Hroom. by apply enqueue_spec.
  - intros Hfull. unfold enqueue, is_full. by rewrite Hfull, Z.eqb_refl.
Qed.

(** X2.  On such a buffer [dequeue] fails exactly when no value is held,
    and otherwise returns the oldest value and leaves the others in their
    order. *)
Theorem dequeue_takes_the_oldest queue :
  queue_wf queue ->
  (queue_contents queue = [] -> dequeue queue = None) /\
  (forall value rest, queue_contents queue = value :: rest ->
   exists queue',
     dequeue queue = Some (value, queue') /\ queue_wf queue' /\
     queue_contents queue' = rest).
Proof.
  intros Hwf. split.
  - intros Hnil. apply is_empty_contents in Hnil; [|done].
    unfold dequeue. by rewrite Hnil.
  - intros value rest Hc.
    destruct (dequeue_spec queue Hwf) as (v & queue' & Hd & Hc' & Hwf').
    { pose proof (queue_contents_length queue) as Hl. rewrite Hc in Hl.
      simpl in Hl. lia. }
    rewrite Hc in Hc'. injection Hc' as -> ->. by exists queue'.
Qed.

Lemma queue_step_fifo op queue :
  queue_wf queue ->
  let bound := Z.to_nat (capacity queue) in
  fst (queue_step op queue) =
  fst (fifo_step bound op (queue_contents queue)) /\
  queue_wf (snd (queue_step op queue)) /\
  capacity (snd (queue_step op queue)) = capacity queue /\
  queue_contents (snd (queue_step op queue)) =
  snd (fifo_step bound op (queue_contents queue)).
Proof.
  intros Hwf bound. pose proof Hwf as (Hcap & _ & Hsz & _).
  pose proof (queue_contents_length queue) as Hlen.
  destruct op as [value|]; simpl.
  - rewrite Hlen. destruct (Nat.ltb_spec (Z.to_nat (size queue)) bound) as [Hlt|Hge].
    + destruct (enqueue_spec queue value Hwf) as (Hok & Hwf' & Hc);
        [unfold bound in Hlt; lia|].
      pose proof (enqueue_capacity queue value) as Hcap'.
      destruct (enqueue queue value) as [ok queue']. simpl in *. by subst ok.
    + assert (size queue = capacity queue) as Hfull
        by (unfold bound in Hge; lia).
      unfold enqueue, is_full. by rewrite Hfull, Z.eqb_refl.
  - destruct (queue_contents queue) as [|value rest] eqn:Hc.
    + pose proof (proj2 (is_empty_contents queue Hwf) Hc) as He.
      unfold dequeue. rewrite He. simpl. by rewrite Hc.
    + destruct (dequeue_spec queue Hwf) as (v & queue' & Hd & Hc' & Hwf').
      { simpl in Hlen. lia. }
      rewrite Hc in Hc'. injection Hc' as <- Hrest.
      assert (capacity queue' = capacity queue) as Hcap'.
      { unfold dequeue in Hd. destruct (is_empty queue); [done|].
        by injection Hd as _ <-. }
      rewrite Hd. simpl. by rewrite Hrest.
Qed.

(** X3.  Any sequence of [enqueue] and [dequeue] calls on a buffer from
    [create_queue] with a positive capacity returns, call by call, what
    the same sequence returns on a first-in first-out list bounded by the
    capacity, and the buffer ends up holding that list: no value is lost,
    repeated or reordered however often the indices wrap around. *)
Theorem queue_run_is_fifo ops cap :
  0 < cap ->
  fst (queue_run ops (create_queue cap)) =
  fst (fifo_run (Z.to_nat cap) ops []) /\
  queue_contents (snd (queue_run ops (create_queue cap))) =
  snd (fifo_run (Z.to_nat cap) ops []) /\
  queue_wf (snd (queue_run ops (create_queue cap))).
Proof.
  intros Hcap.
  assert (forall ops queue, queue_wf queue ->
            fst (queue_run ops queue) =
            fst (fifo_run (Z.to_nat (capacity queue)) ops
                   (queue_contents queue)) /\
            queue_contents (snd (queue_run ops queue)) =
            snd (fifo_run (Z.to_nat (capacity queue)) ops
                   (queue_contents queue)) /\
            queue_wf (snd (queue_run ops queue))) as Hgen.
  { clear. induction ops as [|op ops IH]; intros queue Hwf; [done|].
    destruct (queue_step_fifo op queue Hwf) as (Hr & Hwf' & Hcap' & Hc').
    simpl.
    destruct (queue_step op queue) as [r queue'].
    destruct (fifo_step _ op (queue_contents queue)) as [r' l'].
    simpl in *. subst r' l'.
    destruct (IH queue' Hwf') as (IH1 & IH2 & IH3). rewrite Hcap' in IH1, IH2.
    destruct (queue_run ops queue') as [rs queue''].
    destruct (fifo_run _ ops (queue_contents queue')) as [rs' l''].
    simpl in *. by subst. }
  destruct (Hgen ops (create_queue cap) (create_queue_wf _ Hcap))
    as (H1 & H2 & H3).
  by rewrite create_queue_contents in H1, H2.
Qed.

Lemma wrapped_queue_wf : queue_wf wrapped_queue.
Proof.
  unfold queue_wf. replace wrapped_queue with
    {| data := [7; 8]; capacity := 2; size := 1; front := 1; rear := 1 |}
    by reflexivity.
  simpl. repeat split; lia.
Qed.

Lemma enqueue_appends_unless_full_witness :
  queue_wf wrapped_queue /\ size wrapped_queue < capacity wrapped_queue /\
  queue_contents wrapped_queue = [8] /\
  rear (snd (enqueue wrapped_queue 9)) = 0 /\
  queue_contents (snd (enqueue wrapped_queue 9)) = [8; 9].
Proof.
  split; [exact wrapped_queue_wf|]. split; [reflexivity|].
  split; [reflexivity|]. split; [reflexivity|].
  exact (proj2 (proj2 (proj1 (enqueue_appends_unless_full wrapped_queue 9
                                wrapped_queue_wf) eq_refl))).
Defined.

Lemma dequeue_takes_the_oldest_witness :
  queue_wf wrapped_queue /\
  exists queue', dequeue wrapped_queue = Some (8, queue') /\
    queue_wf queue' /\ queue_contents queue' = [].
Proof.
  split; [exact wrapped_queue_wf|].
  exact (proj2 (dequeue_takes_the_oldest wrapped_queue wrapped_queue_wf)
           8 [] eq_refl).
Defined.

Lemma queue_run_is_fifo_witness :
  0 < 2 /\
  fst (queue_run [Enqueue 7; Enqueue 8; Enqueue 9; Dequeue; Enqueue 10;
                  Dequeue; Dequeue; Dequeue] (create_queue 2)) =
  [Enqueued true; Enqueued true; Enqueued false; Dequeued (Some 7);
   Enqueued true; Dequeued (Some 8); Dequeued (Some 10); Dequeued None].
Proof.
  split; [lia|].
  exact (proj1 (queue_run_is_fifo
                  [Enqueue 7; Enqueue 8; Enqueue 9; Dequeue; Enqueue 10;
                   Dequeue; Dequeue; Dequeue] 2 ltac:(lia))).
Defined.

(** ** common.c: the averages *)

Lemma metrics_step_idempotent p : metrics_step (metrics_step p) = metrics_step p.
Proof. done. Qed.

Lemma calculate_metrics_snd processes :
  snd (calculate_metrics processes) =
  let n := inject_Z (Z.of_nat (length processes)) in
  {| avg_turnaround_time :=
       (inject_Z (Zsum (map turnaround_time (map metrics_step processes))) / n)%Q;
     avg_waiting_time :=
       (inject_Z (Zsum (map waiting_time (map metrics_step processes))) / n)%Q;
     avg_response_time :=
       (inject_Z (Zsum (map response_time processes)) / n)%Q |}.
Proof.
  unfold calculate_metrics.
  pose proof (metrics_loop_totals processes 0 0 0) as H.
  destruct (metrics_loop processes 0 0 0) as [ps [[tt tw] tr]].
  simpl in *. by injection H as -> -> ->.
Qed.

Lemma Zsum_nonneg l : Forall (fun x => 0 <= x) l -> 0 <= Zsum l.
Proof. unfold Zsum. induction 1; simpl; lia. Qed.

(** X5.  Computing the metrics a second time changes nothing: on the
    array [calculate_metrics] leaves, it leaves the same array and returns
    the same averages. *)
Theorem calculate_metrics_idempotent processes :
  calculate_metrics (fst (calculate_metrics processes)) =
  calculate_metrics processes.
Proof.
  apply injective_projections.
  - rewrite !calculate_metrics_fst, map_map. apply map_ext.
    apply metrics_step_idempotent.
  - rewrite !calculate_metrics_snd, calculate_metrics_fst. cbv zeta.
    rewrite length_map.
    assert (map metrics_step (map metrics_step processes) =
            map metrics_step processes) as ->.
    { rewrite map_map. apply map_ext. apply metrics_step_idempotent. }
    assert (map response_time (map metrics_step processes) =
            map response_time processes) as ->; [|done].
    rewrite map_map. by apply map_ext.
Qed.

(** ** fcfs.c: the order of service *)

Lemma fcfs_loop_successor l t i a b :
  fcfs_loop l t !! i = Some a -> fcfs_loop l t !! S i = Some b ->
  completion_time b =
  Z.max (completion_time a) (arrival_time b) + burst_time b /\
  response_time b = Z.max (completion_time a) (arrival_time b) - arrival_time b.
Proof.
  revert t i. induction l as [|p l IH]; intros t i Ha Hb; [done|].
  destruct i as [|i].
  - simpl in Ha. injection Ha as <-. destruct l as [|q l]; [done|].
    simpl in Hb. injection Hb as <-. simpl.
    destruct (Z.ltb_spec ((if t <? arrival_time p then arrival_time p else t)
                          + burst_time p) (arrival_time q)); lia.
  - simpl in Ha, Hb. by eapply IH.
Qed.

Lemma fcfs_loop_first l t a :
  fcfs_loop l t !! O = Some a ->
  completion_time a = Z.max t (arrival_time a) + burst_time a /\
  response_time a = Z.max t (arrival_time a) - arrival_time a.
Proof.
  destruct l as [|p l]; [done|]. simpl. intros [= <-]. simpl.
  destruct (Z.ltb_spec t (arrival_time p)); lia.
Qed.

Lemma metrics_step_lookup (l : list Process) i p' :
  map metrics_step l !! i = Some p' ->
  exists p, l !! i = Some p /\ p' = metrics_step p.
Proof.
  rewrite list_lookup_fmap. destruct (l !! i) as [p|]; [|done].
  intros [= <-]. by exists p.
Qed.

Lemma StronglySorted_arrival_transfer (l l' : list Process) :
  map arrival_time l' = map arrival_time l ->
  StronglySorted arrival_le l -> StronglySorted arrival_le l'.
Proof.
  intros Hm Hs. revert l' Hm.
  induction Hs as [|x l Hs IH Hall]; intros [|y l'] Hm; simpl in Hm;
    try done; [constructor|].
  injection Hm as Hy Hm. constructor; [by apply IH|].
  rewrite Forall_forall in Hall. apply Forall_forall. intros z Hz.
  apply list_elem_of_lookup in Hz as [i Hi].
  assert (map arrival_time l' !! i = Some (arrival_time z)) as Hz
    by by rewrite list_lookup_fmap, Hi.
  rewrite Hm, list_lookup_fmap in Hz.
  destruct (l !! i) as [w|] eqn:Hw; [|done]. simpl in Hz. injection Hz as Hz.
  unfold arrival_le. rewrite Hy, <- Hz. apply Hall.
  by eapply list_elem_of_lookup_2.
Qed.


Section Extras.

Variable qsort : (Process -> Process -> Z) -> list Process -> list Process.
Hypothesis qsort_Permutation :
  forall l, qsort compare_arrival_time l ≡ₚ l.
Hypothesis qsort_Sorted :
  forall l, Sorted compare_le (qsort compare_arrival_time l).

Lemma qsort_unfinished processes :
  Forall well_formed processes ->
  Forall unfinished (qsort compare_arrival_time processes).
Proof.
  intros Hwf. rewrite qsort_Permutation.
  eapply Forall_impl; [exact Hwf|]. apply well_formed_unfinished.
Qed.

(** Over unbounded integers: [fcfs_schedule] leaves the array in
    arrival order and serves it in that order without gaps. *)
Lemma fcfs_serves_unbounded processes :
  let r := fst (fcfs_schedule qsort processes) in
  StronglySorted arrival_le r /\
  (forall p, r !! O = Some p ->
     completion_time p = Z.max 0 (arrival_time p) + burst_time p /\
     response_time p = Z.max 0 (arrival_time p) - arrival_time p) /\
  (forall i a b, r !! i = Some a -> r !! S i = Some b ->
     completion_time b =
     Z.max (completion_time a) (arrival_time b) + burst_time b /\
     response_time b =
     Z.max (completion_time a) (arrival_time b) - arrival_time b).
Proof.
  intros r. unfold r, fcfs_schedule. rewrite calculate_metrics_fst.
  split; [|split].
  - apply (StronglySorted_arrival_transfer
             (qsort compare_arrival_time processes)).
    + rewrite map_map.
      pose proof (fcfs_loop_static_fields
                    (qsort compare_arrival_time processes) 0) as Hs.
      apply (f_equal (map (fun t : string * Z * Z * Z => t.1.1.2))) in Hs.
      by rewrite !map_map in Hs.
    + apply Sorted_compare_strongly, qsort_Sorted.
  - intros p Hp. apply metrics_step_lookup in Hp as (p0 & Hp0 & ->).
    by apply fcfs_loop_first in Hp0.
  - intros i a b Ha Hb.
    apply metrics_step_lookup in Ha as (a0 & Ha0 & ->).
    apply metrics_step_lookup in Hb as (b0 & Hb0 & ->).
    by apply (fcfs_loop_successor _ _ _ _ _ Ha0 Hb0).
Qed.

(** ** rr.c: the queue in the scheduler *)



(** ** sjf.c: the preemptive search and the idle jump *)

Lemma sjf_preemptive_reachable_inv sorted st :
  Forall unfinished sorted -> sjf_preemptive_reachable sorted st ->
  sjf_inv unfinished finished sorted st.
Proof.
  intros HU. induction 1 as [|st st' _ IH _ Hb]; [by apply sjf_inv_init|].
  destruct (sjf_preemptive_step sorted st IH) as (s1 & Hb1 & Hinv1 & _).
  congruence.
Qed.

(** Over unbounded integers: what the search of a state of the loop of
    [sjf_preemptive_schedule] picks on a well-formed process set, and
    what the body does with it. *)
Lemma srtf_search_picks_least processes st idx :
  Forall well_formed processes ->
  sjf_preemptive_reachable (qsort compare_arrival_time processes) st ->
  find_shortest remaining_time (sjf_processes st) (sjf_is_completed st)
    (sjf_current_time st) 0 None INT_MAX = Some idx ->
  let ready := eligible (sjf_processes st) (sjf_is_completed st)
                 (sjf_current_time st) in
  exists p, ready idx p /\ 0 < remaining_time p /\
    (forall j pj, ready j pj ->
       remaining_time p <= remaining_time pj /\
       (remaining_time pj = remaining_time p ->
        (idx <= j)%nat /\ arrival_time p <= arrival_time pj)) /\
    exists st' p', sjf_preemptive_body st = Next st' /\
      sjf_current_time st' = sjf_current_time st + 1 /\
      sjf_processes st' !! idx = Some p' /\
      remaining_time p' = remaining_time p - 1 /\
      forall j, j <> idx -> sjf_processes st' !! j = sjf_processes st !! j.
Proof.
  intros Hwf Hreach Hc ready.
  pose proof (sjf_preemptive_reachable_inv _ _ (qsort_unfinished _ Hwf) Hreach)
    as Hinv.
  destruct (sjf_inv_length _ _ _ _ Hinv) as [Hlen1 Hlen2].
  destruct Hinv as (Hst & _ & _ & Hall).
  destruct (find_shortest_Some _ _ _ _ _ Hlen2 Hc) as (p & Hp & _ & Hmin).
  pose proof Hp as (Hp1 & Hp2 & Hp3).
  destruct (Hall idx p false Hp1 Hp2) as [Hpos _].
  exists p. split; [done|]. split; [done|]. split.
  - intros j pj Hpj. destruct (Hmin j pj Hpj) as [Hle Htie].
    split; [done|]. intros Heq. specialize (Htie Heq). split; [done|].
    destruct Hpj as (Hpj & _).
    destruct (map_static_fields_lookup _ _ _ _ Hst Hp1) as (q & Hq & Heqp).
    destruct (map_static_fields_lookup _ _ _ _ Hst Hpj) as (qj & Hqj & Heqj).
    rewrite (static_fields_arrival _ _ Heqp), (static_fields_arrival _ _ Heqj).
    eapply (StronglySorted_arrival_lookup _ idx j); [|done..].
    apply Sorted_compare_strongly, qsort_Sorted.
  - unfold sjf_preemptive_body. rewrite Hc, Hp1. cbv zeta.
    assert (idx < length (sjf_processes st))%nat as Hidx
      by by eapply lookup_lt_Some.
    destruct (_ =? 0); eexists _, _; (split; [reflexivity|]); simpl;
      (split; [done|]); (split; [by apply list_lookup_insert_eq|]);
      (split; [by destruct (started p)|]);
      intros j Hj; by apply list_lookup_insert_ne.
Qed.

End Extras.

(** ** The time line of a run *)

Lemma total_burst_insert (l : list Process) i p p' :
  l !! i = Some p -> burst_time p' = burst_time p ->
  total_burst (<[i:=p']> l) = total_burst l.
Proof.
  intros Hi Hb. unfold total_burst.
  rewrite list_fmap_insert, Hb, list_insert_id; [done|].
  by rewrite list_lookup_fmap, Hi.
Qed.

Lemma total_burst_static (l l' : list Process) :
  map static_fields l = map static_fields l' -> total_burst l = total_burst l'.
Proof.
  intros H. unfold total_burst.
  apply (f_equal (map (fun t : string * Z * Z * Z => t.1.2))) in H.
  rewrite !map_map in H. simpl in H.
  by replace (map burst_time l) with (map burst_time l').
Qed.

Lemma total_burst_Permutation l l' :
  l ≡ₚ l' -> total_burst l = total_burst l'.
Proof.
  unfold total_burst, Zsum.
  induction 1 as [|x l l' _ IH|x y l|l l' l'' _ IH1 _ IH2]; simpl; lia.
Qed.

Lemma total_remaining_le_burst (l : list Process) :
  Forall (fun p => remaining_time p <= burst_time p) l ->
  total_remaining l <= total_burst l.
Proof.
  unfold total_remaining, total_burst, Zsum.
  induction 1 as [|p l Hp _ IH]; simpl; lia.
Qed.

Lemma total_remaining_fresh (l : list Process) :
  Forall (fun p => remaining_time p = burst_time p) l ->
  total_remaining l = total_burst l.
Proof.
  unfold total_remaining, total_burst, Zsum.
  induction 1 as [|p l Hp _ IH]; simpl; lia.
Qed.

Lemma served_remaining_le ct p : served ct p -> remaining_time p <= burst_time p.
Proof. unfold served. destruct (started p); lia. Qed.

Lemma served_later ct ct' p : served ct p -> ct <= ct' -> served ct' p.
Proof. unfold served. destruct (started p); [|done]. intros (?&?&?&?) ?. repeat split; try done; lia. Qed.

Lemma timeline_inv_init latest processes :
  Forall fresh processes -> 0 <= latest -> timeline_inv latest processes 0.
Proof.
  intros Hf Hl. split.
  - rewrite total_remaining_fresh; [lia|].
    eapply Forall_impl; [exact Hf|]. by intros p ((_ & _ & ?) & _).
  - eapply Forall_impl; [exact Hf|].
    intros p ((Ha & Hb & Hr) & Hs). unfold served. rewrite Hs.
    split; [lia|]. split; [done|]. done.
Qed.

Lemma timeline_inv_idle latest processes ct ct' :
  timeline_inv latest processes ct -> ct <= ct' <= latest ->
  timeline_inv latest processes ct'.
Proof.
  intros [Hct Hall] [Hle Hlat]. split.
  - assert (total_remaining processes <= total_burst processes); [|lia].
    apply total_remaining_le_burst. eapply Forall_impl; [exact Hall|].
    intros p (_ & Hs & _). by eapply served_remaining_le.
  - eapply Forall_impl; [exact Hall|].
    intros p (H1 & H2 & H3). split; [done|]. split; [|done].
    by eapply served_later.
Qed.

Lemma timeline_inv_run latest processes ct idx p p' e :
  timeline_inv latest processes ct ->
  processes !! idx = Some p -> arrival_time p <= ct ->
  0 <= e <= remaining_time p ->
  static_fields p' = static_fields p -> started p' = true ->
  response_time p' =
    (if started p then response_time p else ct - arrival_time p) ->
  remaining_time p' = remaining_time p - e ->
  (remaining_time p' = 0 -> completion_time p' = ct + e) ->
  timeline_inv latest (<[idx:=p']> processes) (ct + e).
Proof.
  intros [Hct Hall] Hp Harr He Hst Hs' Hresp Hrem Hcomp.
  pose proof (static_fields_arrival _ _ Hst) as Ha.
  pose proof (static_fields_burst _ _ Hst) as Hb.
  unfold timeline_inv. rewrite (total_burst_insert _ _ _ _ Hp Hb).
  rewrite (total_remaining_insert _ _ _ _ Hp).
  assert (0 <= total_remaining processes - remaining_time p + remaining_time p')
    as Hnonneg.
  { rewrite <- (total_remaining_insert _ _ _ _ Hp).
    apply total_remaining_nonneg. apply Forall_insert; [|lia].
    eapply Forall_impl; [exact Hall|]. by intros q (? & _). }
  split; [lia|].
  pose proof (proj1 (Forall_lookup _ _) Hall idx p Hp) as (Hp1 & Hp2 & Hp3).
  assert (served (ct + e) p') as Hserved.
  { unfold served in *. rewrite Hs', Hresp, Ha, Hb, Hrem.
    destruct (started p).
    - destruct Hp2 as (? & ? & ? & ?). repeat split; try lia.
    - repeat split; try lia. }
  apply Forall_insert.
  - eapply Forall_impl; [exact Hall|].
    intros q (H1 & H2 & H3). split; [done|]. split; [|done].
    eapply served_later; [done|lia].
  - split; [lia|]. split; [done|]. intros _ Hz. rewrite (Hcomp Hz). lia.
Qed.

(** At the end of a run on bursts above 0 every process is accounted
    for. *)
Lemma timeline_inv_final latest processes ct :
  timeline_inv latest processes ct ->
  Forall finished processes ->
  Forall (fun p => 0 < burst_time p) processes ->
  Forall (accounted latest (total_burst processes)) processes.
Proof.
  intros [_ Hall] Hfin Hpos. rewrite Forall_forall in Hall, Hfin, Hpos.
  apply Forall_forall. intros p Hp.
  destruct (Hall p Hp) as (_ & Hs & Hc). destruct (Hfin p Hp) as [Hz _].
  specialize (Hpos p Hp). unfold served in Hs. unfold accounted.
  destruct (started p); [|lia].
  destruct Hs as (? & ? & ? & Hcomp). specialize (Hcomp Hz).
  specialize (Hc eq_refl Hz). done.
Qed.

Lemma accounted_metrics_step latest total p :
  accounted latest total p ->
  accounted latest total (metrics_step p) /\
  0 <= response_time (metrics_step p) <= waiting_time (metrics_step p).
Proof.
  unfold accounted. intros (H1 & H2 & H3 & H4). simpl.
  repeat split; try done; lia.
Qed.

Lemma Forall_burst_pos_static (l l' : list Process) :
  map static_fields l = map static_fields l' ->
  Forall (fun p => 0 < burst_time p) l' -> Forall (fun p => 0 < burst_time p) l.
Proof.
  intros Hm Hl. apply Forall_lookup. intros i p Hp.
  destruct (map_static_fields_lookup _ _ _ _ Hm Hp) as (p0 & Hp0 & Heq).
  rewrite (static_fields_burst _ _ Heq).
  by apply (proj1 (Forall_lookup _ _) Hl i p0).
Qed.

Lemma Forall_arrival_le_static latest (l l' : list Process) :
  map static_fields l = map static_fields l' ->
  Forall (fun p => arrival_time p <= latest) l' ->
  Forall (fun p => arrival_time p <= latest) l.
Proof.
  intros Hm Hl. apply Forall_lookup. intros i p Hp.
  destruct (map_static_fields_lookup _ _ _ _ Hm Hp) as (p0 & Hp0 & Heq).
  rewrite (static_fields_arrival _ _ Heq).
  by apply (proj1 (Forall_lookup _ _) Hl i p0).
Qed.

(** ** sjf.c: the jump to the next arrival *)

Lemma idle_jump_spec key ps done ct :
  length done = length ps ->
  (count_if (fun c : bool => c) done < length done)%nat ->
  (forall i p, ps !! i = Some p -> done !! i = Some false ->
     arrival_time p <= INT_MAX /\ key p < INT_MAX) ->
  find_shortest key ps done ct 0 None INT_MAX = None ->
  let t := find_next_arrival ps done INT_MAX in
  ct < t /\
  (exists j p, ps !! j = Some p /\ done !! j = Some false /\
     arrival_time p = t) /\
  (forall j p, ps !! j = Some p -> done !! j = Some false ->
     t <= arrival_time p).
Proof.
  intros Hlen Hcount Hbound Hf t.
  pose proof (find_shortest_None _ _ _ _ Hlen Hf) as Hnone.
  destruct (find_next_arrival_spec ps done INT_MAX Hlen) as (Hle & Hmin & Hwit).
  fold t in Hle, Hmin, Hwit.
  assert (exists j p, ps !! j = Some p /\ done !! j = Some false /\
            arrival_time p = t) as (j & p & Hp & Hd & Ht).
  { destruct Hwit as [Hr|Hw]; [|done].
    destruct (count_if_lt_exists _ _ Hcount) as (i & c & Hi & ->).
    destruct (lookup_lt_is_Some_2 ps i) as [p Hp].
    { rewrite <- Hlen. by eapply lookup_lt_Some. }
    exists i, p. split; [done|]. split; [done|].
    destruct (Hbound i p Hp Hi) as [Ha _]. specialize (Hmin i p Hp Hi). lia. }
  split; [|split; [by exists j, p|done]].
  destruct (decide (ct < t)) as [|Hge]; [done|]. exfalso.
  assert (eligible ps done ct j p) as Hel by (repeat split; [done..|lia]).
  specialize (Hnone j p Hel). destruct (Hbound j p Hp Hd). lia.
Qed.

(** ** fcfs.c: the time line *)

Lemma fcfs_loop_accounted latest l t W :
  Forall (fun p => arrival_time p <= latest /\ 0 <= burst_time p) l ->
  0 <= W -> t <= latest + W ->
  Forall (accounted latest (W + total_burst l)) (fcfs_loop l t).
Proof.
  intros Hl. revert t W.
  induction Hl as [|p l [Ha Hb] Hl IH]; intros t W HW Ht; simpl; [constructor|].
  assert (0 <= total_burst l) as Hnonneg.
  { apply Zsum_nonneg. apply Forall_fmap.
    eapply Forall_impl; [exact Hl|]. by intros q [_ ?]. }
  assert (total_burst (p :: l) = burst_time p + total_burst l) as -> by done.
  constructor.
  - unfold accounted. simpl.
    destruct (Z.ltb_spec t (arrival_time p)); repeat split; try done; lia.
  - replace (W + (burst_time p + total_burst l))
      with ((W + burst_time p) + total_burst l) by lia.
    apply IH; [lia|]. destruct (Z.ltb_spec t (arrival_time p)); lia.
Qed.

(** ** sjf.c: the time line *)

Lemma sjf_count_lt sorted (U D : Process -> Prop) st :
  sjf_inv U D sorted st -> sjf_cond (length sorted) st = true ->
  (count_if (fun c : bool => c) (sjf_is_completed st)
   < length (sjf_is_completed st))%nat.
Proof.
  intros (_ & Hlen & Hcnt & _) Hc. unfold sjf_cond in Hc.
  apply Nat.ltb_lt in Hc. lia.
Qed.

Lemma sjf_idle_timeline latest sorted (U D : Process -> Prop) key st :
  sjf_inv U D sorted st -> sjf_cond (length sorted) st = true ->
  Forall (fun p => arrival_time p <= latest) sorted ->
  (forall i p, sjf_processes st !! i = Some p ->
     sjf_is_completed st !! i = Some false ->
     arrival_time p <= INT_MAX /\ key p < INT_MAX) ->
  find_shortest key (sjf_processes st) (sjf_is_completed st)
    (sjf_current_time st) 0 None INT_MAX = None ->
  sjf_current_time st < sjf_current_time (sjf_idle st) <= latest.
Proof.
  intros Hinv Hc Hlat Hbound Hf.
  destruct (sjf_inv_length _ _ _ _ Hinv) as [Hlen1 Hlen2].
  destruct (idle_jump_spec key _ _ _ Hlen2 (sjf_count_lt _ _ _ _ Hinv Hc)
              Hbound Hf) as (Hlt & (j & p & Hp & _ & Ht) & _).
  simpl. split; [done|]. rewrite <- Ht.
  destruct Hinv as (Hst & _).
  by apply (proj1 (Forall_lookup _ _)
              (Forall_arrival_le_static latest _ _ Hst Hlat) j p).
Qed.

Lemma sjf_non_preemptive_timeline latest sorted st st' :
  Forall below_INT_MAX sorted ->
  Forall (fun p => arrival_time p <= latest) sorted ->
  sjf_inv (fun p => started p = false) (fun _ => True) sorted st ->
  timeline_inv latest (sjf_processes st) (sjf_current_time st) ->
  sjf_cond (length sorted) st = true ->
  sjf_non_preemptive_body st = Next st' ->
  sjf_inv (fun p => started p = false) (fun _ => True) sorted st' /\
  timeline_inv latest (sjf_processes st') (sjf_current_time st').
Proof.
  intros Hb Hlat Hinv Htl Hc Hbody.
  destruct (sjf_non_preemptive_step (fun p => started p = false)
              (fun _ => True) sorted st) as (s1 & Hb1 & Hinv1 & _);
    [done|done|].
  assert (s1 = st') as -> by congruence. split; [done|].
  destruct (sjf_inv_length _ _ _ _ Hinv) as [Hlen1 Hlen2].
  pose proof Hinv as (Hst & _ & _ & Hall).
  unfold sjf_non_preemptive_body in Hbody.
  destruct (find_shortest _ _ _ _ _ _ _) as [idx|] eqn:Hf.
  - destruct (find_shortest_Some _ _ _ _ _ Hlen2 Hf)
      as (p & (Hp & Hd & Ha) & _ & _).
    rewrite Hp in Hbody. injection Hbody as <-. simpl.
    pose proof (Hall idx p false Hp Hd) as Hns. simpl in Hns.
    pose proof Htl as [_ Hps].
    destruct (proj1 (Forall_lookup _ _) Hps idx p Hp) as (Hr0 & Hsv & _).
    unfold served in Hsv. rewrite Hns in Hsv.
    apply (timeline_inv_run latest _ _ idx p); try done; simpl; try lia.
    by rewrite Hns.
  - injection Hbody as <-. simpl.
    eapply timeline_inv_idle; [done|].
    pose proof (sjf_idle_timeline latest sorted _ _ burst_time st Hinv Hc Hlat)
      as Hj. simpl in Hj. split; [|apply Hj; [|done]]; [apply Z.lt_le_incl, Hj; [|done]|];
      intros i p Hp _;
      destruct (map_static_fields_lookup _ _ _ _ Hst Hp) as (p0 & Hp0 & Heq);
      destruct (proj1 (Forall_lookup _ _) Hb i p0 Hp0) as [? ?];
      rewrite (static_fields_arrival _ _ Heq), (static_fields_burst _ _ Heq);
      done.
Qed.

Lemma sjf_preemptive_timeline latest sorted st st' :
  Forall below_INT_MAX sorted ->
  Forall (fun p => arrival_time p <= latest) sorted ->
  sjf_inv unfinished finished sorted st ->
  timeline_inv latest (sjf_processes st) (sjf_current_time st) ->
  sjf_cond (length sorted) st = true ->
  sjf_preemptive_body st = Next st' ->
  sjf_inv unfinished finished sorted st' /\
  timeline_inv latest (sjf_processes st') (sjf_current_time st').
Proof.
  intros Hb Hlat Hinv Htl Hc Hbody.
  destruct (sjf_preemptive_step sorted st Hinv) as (s1 & Hb1 & Hinv1 & _).
  assert (s1 = st') as -> by congruence. split; [done|].
  destruct (sjf_inv_length _ _ _ _ Hinv) as [Hlen1 Hlen2].
  pose proof Hinv as (Hst & _ & _ & Hall).
  unfold sjf_preemptive_body in Hbody.
  destruct (find_shortest _ _ _ _ _ _ _) as [idx|] eqn:Hf.
  - destruct (find_shortest_Some _ _ _ _ _ Hlen2 Hf)
      as (p & (Hp & Hd & Ha) & _ & _).
    rewrite Hp in Hbody. cbv zeta in Hbody.
    pose proof (Hall idx p false Hp Hd) as [Hpos Hle]. simpl in Hpos, Hle.
    destruct (_ =? 0) eqn:Hz in Hbody; injection Hbody as <-; simpl;
      apply (timeline_inv_run latest _ _ idx p); try done; try lia;
      destruct (started p) eqn:Hs; simpl; try done; try lia.
  - injection Hbody as <-. simpl.
    eapply timeline_inv_idle; [done|].
    pose proof (sjf_idle_timeline latest sorted _ _ remaining_time st Hinv Hc Hlat)
      as Hj. simpl in Hj.
    split; [|apply Hj; [|done]]; [apply Z.lt_le_incl, Hj; [|done]|];
      intros i p Hp Hi;
      destruct (map_static_fields_lookup _ _ _ _ Hst Hp) as (p0 & Hp0 & Heq);
      destruct (proj1 (Forall_lookup _ _) Hb i p0 Hp0) as [? ?];
      destruct (Hall i p false Hp Hi) as [? ?];
      rewrite (static_fields_arrival _ _ Heq);
      rewrite (static_fields_burst _ _ Heq) in *; lia.
Qed.

(** ** rr.c: the time line *)

Lemma rr_body_started time_quantum st st' i p p' :
  rr_body time_quantum st = Next st' ->
  rr_processes st !! i = Some p -> rr_processes st' !! i = Some p' ->
  p' = p \/
  (started p' = true /\
   response_time p' =
   if started p then response_time p
   else rr_current_time st - arrival_time p).
Proof.
  unfold rr_body. cbv zeta.
  destruct (enqueue_arrivals _ _ _ _) as [queue1 next1].
  destruct (is_empty queue1).
  { destruct (rr_processes st !! next1); intros [= <-]; simpl.
    intros Hp Hp'. left. congruence. }
  destruct (dequeue queue1) as [[v queue2]|]; [|done].
  destruct (v <? 0); [done|].
  destruct (rr_processes st !! Z.to_nat v) as [pj|] eqn:Hpj; [|done].
  destruct (enqueue_arrivals _ _ _ _) as [queue3 next3].
  assert (Z.to_nat v < length (rr_processes st))%nat as Hlt
    by by eapply lookup_lt_Some.
  destruct (_ =? 0); intros [= <-]; simpl; intros Hp Hp';
    destruct (decide (i = Z.to_nat v)) as [->|Hne].
  - right. rewrite list_insert_insert_eq, list_lookup_insert_eq in Hp' by done.
    injection Hp' as <-. rewrite Hpj in Hp. injection Hp as <-.
    destruct (started pj) eqn:Hs; simpl; by rewrite ?Hs.
  - left. rewrite list_insert_insert_eq, list_lookup_insert_ne in Hp' by done.
    congruence.
  - right. rewrite list_lookup_insert_eq in Hp' by done.
    injection Hp' as <-. rewrite Hpj in Hp. injection Hp as <-.
    destruct (started pj) eqn:Hs; simpl; by rewrite ?Hs.
  - left. rewrite list_lookup_insert_ne in Hp' by done. congruence.
Qed.

Lemma rr_timeline latest time_quantum sorted st st' :
  0 < time_quantum ->
  Forall (fun p => arrival_time p <= latest) sorted ->
  rr_inv sorted st ->
  timeline_inv latest (rr_processes st) (rr_current_time st) ->
  rr_body time_quantum st = Next st' ->
  rr_inv sorted st' /\
  timeline_inv latest (rr_processes st') (rr_current_time st').
Proof.
  intros Hq Hlat Hinv Htl Hbody. pose proof Hinv as (Hst & _).
  destruct (rr_body_spec time_quantum sorted st ltac:(lia) Hinv)
    as (next1 & _ & _ & Hstop & [Hidle|[Hbreak|Hrun]]).
  - destruct Hidle as (_ & _ & p & s1 & Hp & Hb1 & Hinv1 & Hps & _ & Hct & _).
    assert (s1 = st') as -> by congruence. split; [done|].
    rewrite Hps, Hct. eapply timeline_inv_idle; [done|].
    specialize (Hstop p Hp). split; [lia|].
    by apply (proj1 (Forall_lookup _ _)
                (Forall_arrival_le_static latest _ _ Hst Hlat) next1 p).
  - destruct Hbreak as (_ & _ & s1 & Hb1 & _). congruence.
  - destruct Hrun as (idx & p & w & n3 & p' & s1 & _ & _ & Hp & Hrem & Harr
                      & Hb1 & Hinv1 & Hps & Hs' & Hrem' & Hcomp & Hct & _).
    assert (s1 = st') as -> by congruence. split; [done|].
    destruct (execution_time_bounds time_quantum p ltac:(lia) Hrem)
      as (He & Hpos & _). specialize (Hpos Hq).
    assert (rr_processes st' !! idx = Some p') as Hp'.
    { rewrite Hps. apply list_lookup_insert_eq. by eapply lookup_lt_Some. }
    destruct (rr_body_started _ _ _ _ _ _ Hbody Hp Hp') as [Heq|[Hs Hr]].
    { rewrite Heq in Hrem'. lia. }
    rewrite Hps, Hct.
    by apply (timeline_inv_run latest _ _ idx p).
Qed.

Section Timeline.

Variable qsort : (Process -> Process -> Z) -> list Process -> list Process.
Hypothesis qsort_Permutation :
  forall l, qsort compare_arrival_time l ≡ₚ l.

(** Every process of the array a scheduler returns is accounted for:
    the common part of the two theorems below. *)
Lemma schedulers_account_for_every_process processes time_quantum latest :
  Forall fresh processes ->
  Forall (fun p => arrival_time p <= latest) processes ->
  0 < time_quantum ->
  let total := total_burst processes in
  Forall (accounted latest total) (fst (fcfs_schedule qsort processes)) /\
  (Forall below_INT_MAX processes ->
   forall fuel r,
     sjf_non_preemptive_schedule qsort fuel processes = Returned r ->
     Forall (accounted latest total) (fst r)) /\
  (Forall below_INT_MAX processes ->
   forall fuel r,
     sjf_preemptive_schedule qsort fuel processes = Returned r ->
     Forall (accounted latest total) (fst r)) /\
  (forall fuel r,
     rr_schedule qsort fuel processes time_quantum = Returned r ->
     Forall (accounted latest total) (fst r)).
Proof.
  intros Hfresh Hlat Hq total.
  set (sorted := qsort compare_arrival_time processes).
  assert (Forall fresh sorted) as Hfresh'
    by (unfold sorted; by rewrite qsort_Permutation).
  assert (Forall (fun p => arrival_time p <= latest) sorted) as Hlat'
    by (unfold sorted; by rewrite qsort_Permutation).
  assert (total_burst sorted = total) as Htotal
    by apply total_burst_Permutation, qsort_Permutation.
  assert (Forall well_formed sorted) as Hwf
    by (eapply Forall_impl; [exact Hfresh'|]; by intros p [? _]).
  assert (Forall unfinished sorted) as HU
    by (eapply Forall_impl; [exact Hwf|]; apply well_formed_unfinished).
  assert (Forall (fun p => 0 < burst_time p) sorted) as Hpos
    by (eapply Forall_impl; [exact Hwf|]; by intros p (_ & ? & _)).
  assert (0 <= latest \/ sorted = []) as Hlatest.
  { destruct sorted as [|p l]; [by right|]. left.
    apply Forall_cons in Hwf as [(? & _) _].
    apply Forall_cons in Hlat' as [? _]. lia. }
  assert (forall l, Forall (accounted latest total) l ->
            Forall (accounted latest total) (fst (calculate_metrics l)))
    as Hmetrics.
  { intros l Hl. rewrite calculate_metrics_fst.
    apply Forall_metrics_step; [|done].
    intros p Hp. by apply accounted_metrics_step. }
  assert (forall ps ct, timeline_inv latest ps ct -> Forall finished ps ->
            map static_fields ps = map static_fields sorted ->
            Forall (accounted latest total) ps) as Hfinal.
  { intros ps ct Htl Hfin Hst. rewrite <- Htotal.
    rewrite <- (total_burst_static _ _ Hst).
    eapply timeline_inv_final; [done..|].
    by eapply Forall_burst_pos_static. }
  split; [|split; [|split]].
  - unfold fcfs_schedule. fold sorted. apply Hmetrics.
    destruct Hlatest as [Hl|Hnil]; [|by rewrite Hnil].
    rewrite <- Htotal.
    replace (total_burst sorted) with (0 + total_burst sorted) by lia.
    apply fcfs_loop_accounted; [|lia..].
    rewrite Forall_forall in Hlat', Hpos. apply Forall_forall.
    intros p Hp. specialize (Hlat' p Hp). specialize (Hpos p Hp).
    simpl in *. lia.
  - intros Hb fuel r Hr. unfold sjf_non_preemptive_schedule in Hr.
    fold sorted in Hr.
    apply outcome_map_Returned in Hr as (st & Hst & ->). apply Hmetrics.
    assert (Forall below_INT_MAX sorted) as Hb'
      by (unfold sorted; by rewrite qsort_Permutation).
    destruct Hlatest as [Hl|Hnil].
    2:{ rewrite Hnil, while_cond_false in Hst by done.
        injection Hst as <-. constructor. }
    pose proof (sjf_non_preemptive_loop_partial
                  (fun p => 0 <= burst_time p) finished sorted fuel st) as Hfin.
    destruct Hfin as [Hfin Hstat]; [| |exact Hst|].
    { intros p ct Hp Ha. unfold finished. simpl. lia. }
    { eapply Forall_impl; [exact Hpos|]. intros p ?. simpl in *. lia. }
    eapply (while_partial _ _
              (fun s => sjf_inv (fun p => started p = false) (fun _ => True)
                          sorted s /\
                        timeline_inv latest (sjf_processes s)
                          (sjf_current_time s))
              (fun s => timeline_inv latest (sjf_processes s)
                          (sjf_current_time s))) in Hst.
    + by eapply Hfinal.
    + by intros s [_ ?] _.
    + intros s s' [Hinv _] _ Hbr.
      destruct (sjf_non_preemptive_step (fun p => started p = false)
                  (fun _ => True) sorted s) as (? & ? & _); [done|done|].
      congruence.
    + intros s s' [Hinv Htl] Hc Hbody.
      by eapply sjf_non_preemptive_timeline.
    + split.
      * apply sjf_inv_init. eapply Forall_impl; [exact Hfresh'|].
        by intros p [_ ?].
      * by apply timeline_inv_init.
  - intros Hb fuel r Hr. unfold sjf_preemptive_schedule in Hr.
    fold sorted in Hr.
    apply outcome_map_Returned in Hr as (st & Hst & ->). apply Hmetrics.
    assert (Forall below_INT_MAX sorted) as Hb'
      by (unfold sorted; by rewrite qsort_Permutation).
    destruct Hlatest as [Hl|Hnil].
    2:{ rewrite Hnil, while_cond_false in Hst by done.
        injection Hst as <-. constructor. }
    destruct (sjf_preemptive_loop_partial sorted fuel st HU Hst)
      as [Hfin Hstat].
    eapply (while_partial _ _
              (fun s => sjf_inv unfinished finished sorted s /\
                        timeline_inv latest (sjf_processes s)
                          (sjf_current_time s))
              (fun s => timeline_inv latest (sjf_processes s)
                          (sjf_current_time s))) in Hst.
    + by eapply Hfinal.
    + by intros s [_ ?] _.
    + intros s s' [Hinv _] _ Hbr.
      destruct (sjf_preemptive_step sorted s Hinv) as (? & ? & _). congruence.
    + intros s s' [Hinv Htl] Hc Hbody. by eapply sjf_preemptive_timeline.
    + split; [by apply sjf_inv_init|by apply timeline_inv_init].
  - intros fuel r Hr. unfold rr_schedule in Hr. fold sorted in Hr.
    apply outcome_map_Returned in Hr as (st & Hst & ->). apply Hmetrics.
    destruct Hlatest as [Hl|Hnil].
    2:{ rewrite Hnil, while_cond_false in Hst by done.
        injection Hst as <-. constructor. }
    destruct (decide (sorted = [])) as [Hnil|Hne].
    { rewrite Hnil, while_cond_false in Hst by done.
      injection Hst as <-. constructor. }
    destruct (rr_loop_partial time_quantum sorted fuel st ltac:(lia) Hne HU Hst)
      as [Hfin Hstat].
    eapply (while_partial _ _
              (fun s => rr_inv sorted s /\
                        timeline_inv latest (rr_processes s)
                          (rr_current_time s))
              (fun s => Forall (accounted latest total) (rr_processes s)))
      in Hst; [done| | | |].
    + intros s [Hinv Htl] Hc. eapply Hfinal; [done| |by destruct Hinv].
      by eapply rr_inv_exit.
    + intros s s' [Hinv Htl] _ Hbr.
      destruct (rr_body_spec time_quantum sorted s ltac:(lia) Hinv)
        as (next1 & _ & _ & _ & [Hidle|[Hbreak|Hrun]]).
      * destruct Hidle as (_ & _ & p & s1 & _ & Hb1 & _). congruence.
      * destruct Hbreak as (_ & _ & s1 & Hb1 & Hps & Hfin').
        assert (s1 = s') as -> by congruence. rewrite Hps.
        eapply Hfinal; [done..|]. by destruct Hinv.
      * destruct Hrun as (idx & p & w & n3 & p' & s1 & _ & _ & _ & _ & _ & Hb1
                          & _).
        congruence.
    + intros s s' [Hinv Htl] _ Hbody. by eapply rr_timeline.
    + split; [by apply rr_inv_init|by apply timeline_inv_init].
Qed.

Lemma latest_arrival_bound processes :
  Forall (fun p => arrival_time p <= latest_arrival processes) processes.
Proof.
  induction processes as [|p l IH]; simpl; constructor; [lia|].
  eapply Forall_impl; [exact IH|]. intros q Hq. simpl in *. lia.
Qed.

Lemma calculate_metrics_derived l :
  Forall (fun p => turnaround_time p = completion_time p - arrival_time p /\
                   waiting_time p = turnaround_time p - burst_time p)
    (fst (calculate_metrics l)).
Proof.
  rewrite calculate_metrics_fst. induction l; simpl; constructor; done.
Qed.

Lemma Forall_and {A} (P Q : A -> Prop) (l : list A) :
  Forall P l -> Forall Q l -> Forall (fun x => P x /\ Q x) l.
Proof. intros HP HQ. induction HP; inversion HQ; subst; constructor; auto. Qed.

(** Over unbounded integers: every process of the array a scheduler
    returns has been dispatched, and its response time is at least 0 and
    at most its waiting time. *)
Lemma response_time_bounds_unbounded processes time_quantum :
  Forall fresh processes -> 0 < time_quantum ->
  let good p :=
    started p = true /\ 0 <= response_time p <= waiting_time p in
  Forall good (fst (fcfs_schedule qsort processes)) /\
  (Forall below_INT_MAX processes ->
   forall fuel r,
     sjf_non_preemptive_schedule qsort fuel processes = Returned r ->
     Forall good (fst r)) /\
  (Forall below_INT_MAX processes ->
   forall fuel r,
     sjf_preemptive_schedule qsort fuel processes = Returned r ->
     Forall good (fst r)) /\
  (forall fuel r,
     rr_schedule qsort fuel processes time_quantum = Returned r ->
     Forall good (fst r)).
Proof.
  intros Hfresh Hq good.
  destruct (schedulers_account_for_every_process processes time_quantum
              (latest_arrival processes) Hfresh
              (latest_arrival_bound processes) Hq)
    as (Hfcfs & Hsjf & Hsrtf & Hrr).
  assert (forall l total,
            Forall (accounted (latest_arrival processes) total)
              (fst (calculate_metrics l)) ->
            Forall good (fst (calculate_metrics l))) as Hgood.
  { intros l total Hl.
    pose proof (Forall_and _ _ _ Hl (calculate_metrics_derived l)) as H.
    eapply Forall_impl; [exact H|].
    intros p ((H1 & H2 & H3 & H4) & H5 & H6). unfold good.
    repeat split; try done; lia. }
  split; [|split; [|split]].
  - unfold fcfs_schedule in *. by eapply Hgood.
  - intros Hb fuel r Hr. specialize (Hsjf Hb fuel r Hr).
    unfold sjf_non_preemptive_schedule in Hr.
    apply outcome_map_Returned in Hr as (st & _ & ->). by eapply Hgood.
  - intros Hb fuel r Hr. specialize (Hsrtf Hb fuel r Hr).
    unfold sjf_preemptive_schedule in Hr.
    apply outcome_map_Returned in Hr as (st & _ & ->). by eapply Hgood.
  - intros fuel r Hr. specialize (Hrr fuel r Hr).
    unfold rr_schedule in Hr.
    apply outcome_map_Returned in Hr as (st & _ & ->). by eapply Hgood.
Qed.

(** Over unbounded integers: the completion times a scheduler records
    lie between the arrival time plus the burst time of the process and
    the latest arrival time plus the sum of all burst times. *)
Lemma completion_times_bounds_unbounded processes time_quantum :
  Forall fresh processes -> 0 < time_quantum ->
  let good p :=
    arrival_time p + burst_time p <= completion_time p /\
    completion_time p <= latest_arrival processes + total_burst processes /\
    burst_time p <= turnaround_time p in
  Forall good (fst (fcfs_schedule qsort processes)) /\
  (Forall below_INT_MAX processes ->
   forall fuel r,
     sjf_non_preemptive_schedule qsort fuel processes = Returned r ->
     Forall good (fst r)) /\
  (Forall below_INT_MAX processes ->
   forall fuel r,
     sjf_preemptive_schedule qsort fuel processes = Returned r ->
     Forall good (fst r)) /\
  (forall fuel r,
     rr_schedule qsort fuel processes time_quantum = Returned r ->
     Forall good (fst r)).
Proof.
  intros Hfresh Hq good.
  destruct (schedulers_account_for_every_process processes time_quantum
              (latest_arrival processes) Hfresh
              (latest_arrival_bound processes) Hq)
    as (Hfcfs & Hsjf & Hsrtf & Hrr).
  assert (forall l,
            Forall (accounted (latest_arrival processes)
                      (total_burst processes))
              (fst (calculate_metrics l)) ->
            Forall good (fst (calculate_metrics l))) as Hgood.
  { intros l Hl.
    pose proof (Forall_and _ _ _ Hl (calculate_metrics_derived l)) as H.
    eapply Forall_impl; [exact H|].
    intros p ((H1 & H2 & H3 & H4) & H5 & H6). unfold good.
    repeat split; try done; lia. }
  split; [|split; [|split]].
  - unfold fcfs_schedule in *. by eapply Hgood.
  - intros Hb fuel r Hr. specialize (Hsjf Hb fuel r Hr).
    unfold sjf_non_preemptive_schedule in Hr.
    apply outcome_map_Returned in Hr as (st & _ & ->). by eapply Hgood.
  - intros Hb fuel r Hr. specialize (Hsrtf Hb fuel r Hr).
    unfold sjf_preemptive_schedule in Hr.
    apply outcome_map_Returned in Hr as (st & _ & ->). by eapply Hgood.
  - intros fuel r Hr. specialize (Hrr fuel r Hr).
    unfold rr_schedule in Hr.
    apply outcome_map_Returned in Hr as (st & _ & ->). by eapply Hgood.
Qed.

(** X10.  When the search of an SJF loop finds nothing to run and
    processes are left, the body only moves the clock: forward, to the
    earliest arrival time among the processes not yet completed.  The
    process set is well formed with arrival and burst times below
    [INT_MAX]. *)
Theorem sjf_idle_jumps_to_earliest_arrival processes st :
  Forall well_formed processes -> Forall below_INT_MAX processes ->
  let sorted := qsort compare_arrival_time processes in
  let waiting j p :=
    sjf_processes st !! j = Some p /\
    sjf_is_completed st !! j = Some false in
  let jumps (key : Process -> Z) (body : sjf_state -> flow sjf_state) :=
    sjf_cond (length sorted) st = true ->
    find_shortest key (sjf_processes st) (sjf_is_completed st)
      (sjf_current_time st) 0 None INT_MAX = None ->
    exists st', body st = Next st' /\
      sjf_processes st' = sjf_processes st /\
      sjf_is_completed st' = sjf_is_completed st /\
      sjf_completed st' = sjf_completed st /\
      sjf_current_time st < sjf_current_time st' /\
      (exists j p, waiting j p /\ arrival_time p = sjf_current_time st') /\
      (forall j p, waiting j p -> sjf_current_time st' <= arrival_time p) in
  (sjf_non_preemptive_reachable sorted st ->
   jumps burst_time sjf_non_preemptive_body) /\
  (sjf_preemptive_reachable sorted st ->
   jumps remaining_time sjf_preemptive_body).
Proof.
  intros Hwf Hb sorted waiting jumps.
  assert (Forall below_INT_MAX sorted) as Hb'
    by (unfold sorted; by rewrite qsort_Permutation).
  assert (Forall unfinished sorted) as HU.
  { unfold sorted. rewrite qsort_Permutation.
    eapply Forall_impl; [exact Hwf|]. apply well_formed_unfinished. }
  assert (forall (U D : Process -> Prop) key body,
            sjf_inv U D sorted st ->
            (forall i p, sjf_processes st !! i = Some p ->
               sjf_is_completed st !! i = Some false ->
               arrival_time p <= INT_MAX /\ key p < INT_MAX) ->
            (find_shortest key (sjf_processes st) (sjf_is_completed st)
               (sjf_current_time st) 0 None INT_MAX = None ->
             body st = Next (sjf_idle st)) ->
            jumps key body) as Hgen.
  { intros U D key body Hinv Hbound Hbody Hc Hf.
    destruct (sjf_inv_length _ _ _ _ Hinv) as [Hlen1 Hlen2].
    destruct (idle_jump_spec key _ _ _ Hlen2 (sjf_count_lt _ _ _ _ Hinv Hc)
                Hbound Hf) as (Hlt & Hwit & Hmin).
    exists (sjf_idle st). split; [by apply Hbody|].
    split; [done|]. split; [done|]. split; [done|]. split; [exact Hlt|].
    split.
    - destruct Hwit as (j & p & ? & ? & ?). by exists j, p.
    - intros j p [? ?]. by apply (Hmin j). }
  split.
  - intros Hreach.
    pose proof (sjf_non_preemptive_reachable_inv _ _ Hreach) as Hinv.
    apply (Hgen _ _ _ _ Hinv).
    + intros i p Hp _. destruct Hinv as (Hst & _).
      destruct (map_static_fields_lookup _ _ _ _ Hst Hp) as (p0 & Hp0 & Heq).
      destruct (proj1 (Forall_lookup _ _) Hb' i p0 Hp0) as [? ?].
      by rewrite (static_fields_arrival _ _ Heq), (static_fields_burst _ _ Heq).
    + intros Hf. unfold sjf_non_preemptive_body. by rewrite Hf.
  - intros Hreach.
    pose proof (sjf_preemptive_reachable_inv _ _ HU Hreach) as Hinv.
    apply (Hgen _ _ _ _ Hinv).
    + intros i p Hp Hi. destruct Hinv as (Hst & _ & _ & Hall).
      destruct (map_static_fields_lookup _ _ _ _ Hst Hp) as (p0 & Hp0 & Heq).
      destruct (proj1 (Forall_lookup _ _) Hb' i p0 Hp0) as [? ?].
      destruct (Hall i p false Hp Hi) as [? ?].
      rewrite (static_fields_arrival _ _ Heq).
      rewrite (static_fields_burst _ _ Heq) in *. lia.
    + intros Hf. unfold sjf_preemptive_body. by rewrite Hf.
Qed.

End Timeline.

(** ** fcfs.c and sjf.c: one process at a time *)

Lemma fcfs_loop_starts_later l t :
  Forall (fun p => 0 <= burst_time p) l ->
  Forall (fun p => t <= completion_time p - burst_time p) (fcfs_loop l t).
Proof.
  intros Hl. revert t. induction Hl as [|p l Hp _ IH]; intros t; simpl;
    constructor.
  - simpl. destruct (Z.ltb_spec t (arrival_time p)); lia.
  - eapply Forall_impl; [apply IH|]. intros q Hq. simpl in *.
    destruct (Z.ltb_spec t (arrival_time p)); lia.
Qed.

Lemma fcfs_loop_sequential l t i j p q :
  Forall (fun p => 0 <= burst_time p) l -> (i < j)%nat ->
  fcfs_loop l t !! i = Some p -> fcfs_loop l t !! j = Some q ->
  completion_time p <= completion_time q - burst_time q.
Proof.
  intros Hl. revert t i j.
  induction Hl as [|x l Hx Hl IH]; intros t i j Hij Hp Hq; [done|].
  destruct j as [|j]; [lia|]. destruct i as [|i]; simpl in Hp, Hq.
  - injection Hp as <-. simpl.
    pose proof (fcfs_loop_starts_later l
                  ((if t <? arrival_time x then arrival_time x else t)
                   + burst_time x) Hl) as Hs.
    by apply (proj1 (Forall_lookup _ _) Hs j q).
  - eapply (IH _ i j); [lia|done..].
Qed.

Lemma sjf_sequential_step sorted st st' :
  Forall below_INT_MAX sorted ->
  Forall (fun p => 0 <= burst_time p) sorted ->
  sjf_inv (fun _ => True) (fun _ => True) sorted st ->
  sjf_sequential st ->
  sjf_cond (length sorted) st = true ->
  sjf_non_preemptive_body st = Next st' ->
  sjf_sequential st'.
Proof.
  intros Hb Hpos Hinv [Hpast Hdis] Hc Hbody.
  destruct (sjf_inv_length _ _ _ _ Hinv) as [Hlen1 Hlen2].
  pose proof Hinv as (Hst & _).
  unfold sjf_non_preemptive_body in Hbody.
  destruct (find_shortest _ _ _ _ _ _ _) as [idx|] eqn:Hf.
  - destruct (find_shortest_Some _ _ _ _ _ Hlen2 Hf)
      as (p & (Hp & Hd & Ha) & _ & _).
    rewrite Hp in Hbody. injection Hbody as <-.
    assert (0 <= burst_time p) as Hbp.
    { destruct (map_static_fields_lookup _ _ _ _ Hst Hp) as (p0 & Hp0 & Heq).
      rewrite (static_fields_burst _ _ Heq).
      by apply (proj1 (Forall_lookup _ _) Hpos idx p0). }
    assert (idx < length (sjf_processes st))%nat as Hi1
      by by eapply lookup_lt_Some.
    assert (idx < length (sjf_is_completed st))%nat as Hi2 by lia.
    split; simpl.
    + intros i q Hq Hi. destruct (decide (i = idx)) as [->|Hne].
      * rewrite list_lookup_insert_eq in Hq by done. injection Hq as <-.
        simpl. lia.
      * rewrite list_lookup_insert_ne in Hq by done. rewrite list_lookup_insert_ne in Hi by done.
        specialize (Hpast i q Hq Hi). lia.
    + intros i j a b Hij Ha' Hb' Hia Hjb. unfold disjoint_runs.
      destruct (decide (i = idx)) as [->|Hni];
        destruct (decide (j = idx)) as [->|Hnj]; [done|..].
      * rewrite list_lookup_insert_eq in Ha' by done. injection Ha' as <-.
        rewrite list_lookup_insert_ne in Hb' by done. rewrite list_lookup_insert_ne in Hjb by done.
        specialize (Hpast j b Hb' Hjb). simpl. lia.
      * rewrite list_lookup_insert_eq in Hb' by done. injection Hb' as <-.
        rewrite list_lookup_insert_ne in Ha' by done. rewrite list_lookup_insert_ne in Hia by done.
        specialize (Hpast i a Ha' Hia). simpl. lia.
      * rewrite list_lookup_insert_ne in Ha' by done. rewrite list_lookup_insert_ne in Hia by done. rewrite list_lookup_insert_ne in Hb' by done. rewrite list_lookup_insert_ne in Hjb by done.
        by apply (Hdis i j).
  - injection Hbody as <-.
    assert (sjf_current_time st < sjf_current_time (sjf_idle st)) as Hlt.
    { destruct (idle_jump_spec burst_time _ _ (sjf_current_time st) Hlen2
                  (sjf_count_lt _ _ _ _ Hinv Hc)) as (Hlt & _); [|done|done].
      intros i p Hp _.
      destruct (map_static_fields_lookup _ _ _ _ Hst Hp) as (p0 & Hp0 & Heq).
      destruct (proj1 (Forall_lookup _ _) Hb i p0 Hp0) as [? ?].
      by rewrite (static_fields_arrival _ _ Heq), (static_fields_burst _ _ Heq). }
    split; [|done]. intros i p Hp Hi. specialize (Hpast i p Hp Hi).
    simpl in *. lia.
Qed.

Section Sequential.

Variable qsort : (Process -> Process -> Z) -> list Process -> list Process.
Hypothesis qsort_Permutation :
  forall l, qsort compare_arrival_time l ≡ₚ l.

(** Over unbounded integers: the two schedulers without preemption run
    one process at a time. *)
Lemma nonpreemptive_runs_unbounded processes :
  Forall (fun p => 0 <= burst_time p) processes ->
  (forall i j p q, (i < j)%nat ->
     fst (fcfs_schedule qsort processes) !! i = Some p ->
     fst (fcfs_schedule qsort processes) !! j = Some q ->
     completion_time p <= completion_time q - burst_time q) /\
  (Forall below_INT_MAX processes ->
   forall fuel r i j p q,
     sjf_non_preemptive_schedule qsort fuel processes = Returned r ->
     i <> j -> fst r !! i = Some p -> fst r !! j = Some q ->
     disjoint_runs p q).
Proof.
  intros Hpos.
  set (sorted := qsort compare_arrival_time processes).
  assert (Forall (fun p => 0 <= burst_time p) sorted) as Hpos'
    by (unfold sorted; by rewrite qsort_Permutation).
  split.
  - intros i j p q Hij Hp Hq. unfold fcfs_schedule in Hp, Hq.
    rewrite calculate_metrics_fst in Hp, Hq.
    apply metrics_step_lookup in Hp as (p0 & Hp0 & ->).
    apply metrics_step_lookup in Hq as (q0 & Hq0 & ->). simpl.
    by eapply (fcfs_loop_sequential _ _ i j).
  - intros Hb fuel r i j p q Hr Hij Hp Hq.
    assert (Forall below_INT_MAX sorted) as Hb'
      by (unfold sorted; by rewrite qsort_Permutation).
    unfold sjf_non_preemptive_schedule in Hr. fold sorted in Hr.
    apply outcome_map_Returned in Hr as (st & Hst & ->).
    rewrite calculate_metrics_fst in Hp, Hq.
    apply metrics_step_lookup in Hp as (p0 & Hp0 & ->).
    apply metrics_step_lookup in Hq as (q0 & Hq0 & ->).
    assert (disjoint_runs p0 q0) as Hd; [|exact Hd].
    revert i j p0 q0 Hij Hp0 Hq0.
    eapply (while_partial _ _
              (fun s => sjf_inv (fun _ => True) (fun _ => True) sorted s /\
                        sjf_sequential s)
              (fun s => forall i j p q, i <> j ->
                 sjf_processes s !! i = Some p ->
                 sjf_processes s !! j = Some q -> disjoint_runs p q));
      [| | | |exact Hst].
    + intros s [Hinv [_ Hdis]] Hc i' j' p' q' Hne Hp' Hq'.
      destruct (sjf_inv_length _ _ _ _ Hinv) as [Hlen1 Hlen2].
      destruct Hinv as (_ & Hlen & Hcnt & _).
      unfold sjf_cond in Hc. apply Nat.ltb_ge in Hc.
      rewrite Hcnt, <- Hlen in Hc. apply count_if_all in Hc.
      rewrite Forall_lookup in Hc.
      destruct (lookup_lt_is_Some_2 (sjf_is_completed s) i') as [ci Hci].
      { rewrite Hlen2. by eapply lookup_lt_Some. }
      destruct (lookup_lt_is_Some_2 (sjf_is_completed s) j') as [cj Hcj].
      { rewrite Hlen2. by eapply lookup_lt_Some. }
      pose proof (Hc i' ci Hci) as Hi. pose proof (Hc j' cj Hcj) as Hj.
      simpl in Hi, Hj. subst ci cj. by apply (Hdis i' j').
    + intros s s' [Hinv _] _ Hbr.
      destruct (sjf_non_preemptive_step (fun _ => True) (fun _ => True)
                  sorted s) as (? & ? & _); [done|done|]. congruence.
    + intros s s' [Hinv Hseq] Hc Hbody. split.
      * destruct (sjf_non_preemptive_step (fun _ => True) (fun _ => True)
                    sorted s) as (? & ? & ? & _); [done|done|]. congruence.
      * by eapply sjf_sequential_step.
    + split; [by apply sjf_inv_init, Forall_true|]. split.
      * intros i' p' _ Hi. simpl in Hi. by apply lookup_replicate in Hi as [? _].
      * intros i' j' p' q' _ _ _ Hi. simpl in Hi.
        by apply lookup_replicate in Hi as [? _].
Qed.

End Sequential.

Lemma string_app_cons (x : Ascii.ascii) (a b : string) :
  String x a +:+ b = String x (a +:+ b).
Proof. reflexivity. Qed.

Lemma string_app_nil (b : string) : EmptyString +:+ b = b.
Proof. reflexivity. Qed.

Ltac string_simpl :=
  repeat first [rewrite string_app_cons | rewrite string_app_nil].

Lemma string_app_assoc (a b c : string) : (a +:+ b) +:+ c = a +:+ (b +:+ c).
Proof. induction a as [|x a IH]; string_simpl; [done|by rewrite IH]. Qed.

Lemma string_app_nil_r (a : string) : a +:+ EmptyString = a.
Proof. induction a as [|x a IH]; string_simpl; [done|by rewrite IH]. Qed.

Lemma string_app_length (a b : string) :
  String.length (a +:+ b) = (String.length a + String.length b)%nat.
Proof. induction a as [|x a IH]; string_simpl; simpl; [done|by rewrite IH]. Qed.

Lemma fgets_chars_spec (n : nat) (stream buffer rest : string) :
  fgets_chars n stream = (buffer, rest) ->
  buffer +:+ rest = stream /\ (String.length buffer <= n)%nat /\
  (stream <> EmptyString -> (0 < n)%nat -> buffer <> EmptyString).
Proof.
  revert stream buffer rest.
  induction n as [|n IH]; intros stream buffer rest; simpl.
  - intros [= <- <-]. repeat split; [done|lia].
  - destruct stream as [|c stream].
    + intros [= <- <-]. repeat split; [simpl; lia|done].
    + destruct (Ascii.eqb c newline).
      * intros [= <- <-]. repeat split; [simpl; lia|done].
      * destruct (fgets_chars n stream) as [b r] eqn:Hn.
        intros [= <- <-]. destruct (IH _ _ _ Hn) as (Happ & Hlen & _).
        string_simpl. rewrite Happ. simpl. repeat split; [lia|done].
Qed.

Lemma fgets_loop_spec (fuel : nat) (stream : string) :
  (String.length stream <= fuel)%nat ->
  concat_strings (fgets_loop fuel stream) = stream /\
  Forall (fun buffer =>
    buffer <> EmptyString /\ (String.length buffer <= 255)%nat)
    (fgets_loop fuel stream).
Proof.
  revert stream. induction fuel as [|fuel IH]; intros stream Hlen.
  - destruct stream; simpl in *; [done|lia].
  - destruct stream as [|c stream]; [done|].
    cbn [fgets_loop fgets].
    destruct (fgets_chars (256 - 1) (String c stream)) as [buffer rest] eqn:Hf.
    apply fgets_chars_spec in Hf as (Happ & Hb & Hne).
    specialize (Hne ltac:(done) ltac:(lia)).
    assert (String.length rest <= fuel)%nat as Hrest.
    { apply (f_equal String.length) in Happ.
      rewrite string_app_length in Happ.
      destruct buffer; [done|]. simpl in *. lia. }
    destruct (IH _ Hrest) as [Hcat Hall]. split.
    + unfold concat_strings in *. simpl. by rewrite Hcat.
    + constructor; [|done]. split; [done|lia].
Qed.

Lemma fgets_chars_line (n : nat) (line rest : string) :
  (String.length line < n)%nat ->
  Forall (fun c => c <> newline) (String.list_ascii_of_string line) ->
  fgets_chars n (line +:+ String newline rest) =
  (line +:+ String newline EmptyString, rest).
Proof.
  revert n. induction line as [|c line IH]; intros n Hn Hall.
  - destruct n; [simpl in Hn; lia|]. string_simpl. cbn [fgets_chars].
    by rewrite Ascii.eqb_refl.
  - destruct n; [simpl in Hn; lia|]. string_simpl. cbn [fgets_chars].
    cbn [String.list_ascii_of_string String.length] in *.
    apply Forall_cons in Hall as [Hc Hall].
    apply Ascii.eqb_neq in Hc. rewrite Hc.
    rewrite IH; [done|lia|done].
Qed.

Lemma fgets_chars_last (n : nat) (line : string) :
  (String.length line <= n)%nat ->
  Forall (fun c => c <> newline) (String.list_ascii_of_string line) ->
  fgets_chars n line = (line, EmptyString).
Proof.
  revert n. induction line as [|c line IH]; intros n Hn Hall.
  - by destruct n.
  - destruct n; [simpl in Hn; lia|]. cbn [fgets_chars].
    cbn [String.list_ascii_of_string String.length] in *.
    apply Forall_cons in Hall as [Hc Hall].
    apply Ascii.eqb_neq in Hc. rewrite Hc.
    rewrite IH; [done|lia|done].
Qed.

Lemma fgets_loop_lines (fuel : nat) (lines : list string) (last : string) :
  (String.length (lines_text lines last) <= fuel)%nat ->
  Forall short_line lines -> short_line last ->
  fgets_loop fuel (lines_text lines last) = lines_buffers lines last.
Proof.
  revert fuel. induction lines as [|line lines IH]; intros fuel Hfuel Hall Hlast.
  - unfold lines_buffers. cbn [lines_text foldr map app] in *.
    destruct last as [|c last]; [by destruct fuel|].
    destruct fuel; [simpl in Hfuel; lia|].
    cbn [fgets_loop fgets]. destruct Hlast as [Hlen Hnl].
    rewrite fgets_chars_last; [|simpl in *; lia|done].
    by destruct fuel.
  - apply Forall_cons in Hall as [[Hlen Hnl] Hall].
    unfold lines_buffers. cbn [lines_text foldr map app] in *.
    rewrite string_app_length in Hfuel. cbn [String.length] in Hfuel.
    destruct fuel; [lia|].
    cbn [fgets_loop]. unfold fgets.
    destruct (line +:+ String newline (foldr _ last lines)) eqn:Htext.
    { by destruct line. }
    rewrite <- Htext. rewrite fgets_chars_line; [|simpl; lia|done].
    f_equal. apply IH; [unfold lines_text; lia|done|done].
Qed.

Lemma c_str_app (a b : string) :
  clean_field a -> c_str (a +:+ b) = a +:+ c_str b.
Proof.
  unfold clean_field. induction a as [|c a IH]; intros Hall; [done|].
  cbn [String.list_ascii_of_string] in Hall.
  apply Forall_cons in Hall as [[_ Hc] Hall].
  string_simpl. cbn [c_str]. apply Ascii.eqb_neq in Hc. rewrite Hc.
  by rewrite IH.
Qed.

Lemma c_str_comma (b : string) :
  c_str (String comma b) = String comma (c_str b).
Proof. reflexivity. Qed.

Lemma c_str_row (fields : list string) :
  Forall clean_field fields -> c_str (row_text fields) = row_text fields.
Proof.
  induction fields as [|field fields IH]; intros Hall; [done|].
  apply Forall_cons in Hall as [Hf Hall].
  destruct fields as [|field' fields].
  - cbn [row_text]. rewrite <- (string_app_nil_r field) at 1.
    rewrite c_str_app by done. apply string_app_nil_r.
  - change (row_text (field :: field' :: fields))
      with (field +:+ String comma (row_text (field' :: fields))).
    rewrite c_str_app by done. rewrite c_str_comma. by rewrite IH.
Qed.

Lemma strtok_tokens_field (field rest token : string) :
  clean_field field ->
  strtok_tokens (field +:+ rest) token = strtok_tokens rest (token +:+ field).
Proof.
  unfold clean_field. revert token.
  induction field as [|c field IH]; intros token Hall.
  - string_simpl. by rewrite string_app_nil_r.
  - cbn [String.list_ascii_of_string] in Hall.
    apply Forall_cons in Hall as [[Hc _] Hall].
    string_simpl. cbn [strtok_tokens]. apply Ascii.eqb_neq in Hc. rewrite Hc.
    rewrite IH by done. by rewrite string_app_assoc.
Qed.

Lemma strtok_tokens_row (fields : list string) :
  Forall clean_field fields ->
  strtok_tokens (row_text fields) EmptyString =
  filter (fun field => field <> EmptyString) fields.
Proof.
  induction fields as [|field fields IH]; intros Hall; [done|].
  apply Forall_cons in Hall as [Hf Hall].
  destruct fields as [|field' fields].
  - cbn [row_text]. rewrite <- (string_app_nil_r field) at 1.
    rewrite strtok_tokens_field by done. string_simpl.
    by destruct field.
  - change (row_text (field :: field' :: fields))
      with (field +:+ String comma (row_text (field' :: fields))).
    rewrite strtok_tokens_field by done. string_simpl.
    cbn [strtok_tokens]. change (Ascii.eqb comma comma) with true.
    cbn match. rewrite IH by done.
    by destruct field.
Qed.

Lemma plain_fields_filter (fields : list string) :
  Forall plain_field fields ->
  filter (fun field => field <> EmptyString) fields = fields /\
  Forall clean_field fields.
Proof.
  induction 1 as [|field fields [Hne Hclean] _ [IH1 IH2]]; [done|].
  split; [|by constructor].
  rewrite filter_cons_True by done. by rewrite IH1.
Qed.

Section ReadProperties.

Variable atoi : string -> Z.

Lemma read_rows_imap (memory : nat -> Process) (count i : nat)
  (buffers : list string) :
  (i + length buffers <= count)%nat ->
  read_rows atoi memory count i buffers =
  imap (fun k buffer => parse_row atoi (memory (i + k)%nat) buffer) buffers.
Proof.
  revert i. induction buffers as [|buffer buffers IH]; intros i Hlen; [done|].
  cbn [read_rows imap length] in *.
  destruct (Nat.ltb_spec i count) as [_|Hge]; [|lia].
  rewrite Nat.add_0_r. f_equal. rewrite IH by lia.
  apply imap_ext. intros k b _. unfold compose. by rewrite Nat.add_succ_r.
Qed.

Lemma read_rows_reset (memory : nat -> Process) (count i : nat)
  (buffers : list string) :
  (i + length buffers <= count)%nat ->
  length (read_rows atoi memory count i buffers) = length buffers /\
  Forall reset (read_rows atoi memory count i buffers).
Proof.
  revert i. induction buffers as [|buffer buffers IH]; intros i Hlen; [done|].
  cbn [read_rows length] in *.
  destruct (Nat.ltb_spec i count) as [_|Hge]; [|lia].
  destruct (IH (S i) ltac:(lia)) as [IH1 IH2]. split.
  - cbn [length]. by rewrite IH1.
  - constructor; [|done]. by repeat split.
Qed.

(** X14.  A file whose header and rows are lines of at most 254
    characters, the last row with or without its newline, gives one
    process for each row, parsed from that row, and the number of rows. *)
Theorem read_processes_reads_each_line (header : string)
  (lines : list string) (last : string) (memory : nat -> Process) :
  short_line header -> Forall short_line lines -> short_line last ->
  read_processes atoi
    (Some (header +:+ String newline (lines_text lines last))) memory =
  (Z.of_nat (length (lines_buffers lines last)),
   imap (fun i buffer => parse_row atoi (memory i) buffer)
     (lines_buffers lines last)).
Proof.
  intros [Hlen Hnl] Hlines Hlast. unfold read_processes, fgets.
  destruct (header +:+ String newline (lines_text lines last)) eqn:Htext.
  { by destruct header. }
  rewrite <- Htext. rewrite fgets_chars_line; [|simpl; lia|done].
  rewrite fgets_loop_lines by done.
  f_equal. by rewrite read_rows_imap.
Qed.

(** X15.  Whatever the file holds, the number [read_processes] returns
    is the number of processes it has written, each of them with its
    remaining time equal to its burst time and its run-time fields reset;
    without a file it returns -1.  So a process read with an arrival time
    of at least 0 and a burst time above 0 is well formed and not
    started, as the schedulers expect it. *)
Theorem read_processes_resets_run_state (file : option string)
  (memory : nat -> Process) :
  let result := read_processes atoi file memory in
  (fst result = match file with
                | None => -1
                | Some _ => Z.of_nat (length (snd result))
                end) /\
  Forall reset (snd result) /\
  Forall (fun p => 0 <= arrival_time p -> 0 < burst_time p -> fresh p)
    (snd result).
Proof.
  assert (forall l, Forall reset l ->
            Forall (fun p => 0 <= arrival_time p -> 0 < burst_time p ->
                             fresh p) l) as Hfresh.
  { intros l Hl. eapply Forall_impl; [exact Hl|].
    intros p (Hrem & _ & _ & _ & _ & Hst) Ha Hb. by repeat split. }
  destruct file as [content|]; [|by repeat split].
  cbn zeta. unfold read_processes. cbn [fst snd].
  set (data := match fgets 256 content with
               | Some (_, rest) => rest
               | None => EmptyString
               end).
  destruct (read_rows_reset memory
    (length (fgets_loop (String.length data) data)) 0
    (fgets_loop (String.length data) data) ltac:(simpl; lia)) as [Hlen Hall].
  split; [by rewrite Hlen|]. split; [done|by apply Hfresh].
Qed.

(** X16.  A row of at least four non-empty fields is read into a new
    process made of the first four: at most nine characters of the first
    as the id, and [atoi] of the next three; what the memory held and the
    further fields do not matter. *)
Theorem parse_row_reads_four_fields (p : Process)
  (name arrival burst prio : string) (more : list string) :
  Forall plain_field [name; arrival; burst; prio] ->
  Forall clean_field more ->
  parse_row atoi p (row_text (name :: arrival :: burst :: prio :: more)) =
  new_process (strncpy_id name) (atoi arrival) (atoi burst) (atoi prio).
Proof.
  intros Hplain Hmore. unfold parse_row.
  destruct (plain_fields_filter _ Hplain) as [Hfilter Hclean].
  assert (Forall clean_field (name :: arrival :: burst :: prio :: more))
    as Hall.
  { change (Forall clean_field ([name; arrival; burst; prio] ++ more)).
    by apply Forall_app. }
  rewrite c_str_row by done. rewrite strtok_tokens_row by done.
  change (name :: arrival :: burst :: prio :: more)
    with ([name; arrival; burst; prio] ++ more).
  rewrite filter_app, Hfilter. reflexivity.
Qed.

(** X17.  A row with fewer than four fields leaves the missing ones as
    the memory held them: the priority always, the burst time (and with
    it the remaining time) below three fields, the arrival time below
    two, the id of a row without any field. *)
Theorem parse_row_missing_fields_keep_memory (p : Process)
  (fields : list string) :
  Forall plain_field fields -> (length fields < 4)%nat ->
  let q := parse_row atoi p (row_text fields) in
  priority q = priority p /\
  ((length fields < 3)%nat ->
   burst_time q = burst_time p /\ remaining_time q = burst_time p) /\
  ((length fields < 2)%nat -> arrival_time q = arrival_time p) /\
  (fields = [] -> id q = id p).
Proof.
  intros Hplain Hlen. cbn zeta. unfold parse_row.
  destruct (plain_fields_filter _ Hplain) as [Hfilter Hclean].
  rewrite c_str_row by done. rewrite strtok_tokens_row by done.
  rewrite Hfilter. cbn [priority burst_time remaining_time arrival_time id].
  destruct fields as [|f1 [|f2 [|f3 [|f4 fields]]]]; simpl in *;
    repeat split; intros; try done; lia.
Qed.

(** X18.  [strtok] skips empty fields: a row is read as the row of its
    non-empty fields, so the fields after an empty one move to the left. *)
Theorem parse_row_skips_empty_fields (p : Process) (fields : list string) :
  Forall clean_field fields ->
  parse_row atoi p (row_text fields) =
  parse_row atoi p
    (row_text (filter (fun field => field <> EmptyString) fields)).
Proof.
  intros Hclean. unfold parse_row.
  assert (Forall clean_field
    (filter (fun field => field <> EmptyString) fields)) as Hclean'.
  { apply Forall_forall. intros f [_ Hf]%list_elem_of_filter.
    by eapply Forall_forall in Hclean. }
  rewrite !c_str_row by done. rewrite !strtok_tokens_row by done.
  by rewrite list_filter_filter_l.
Qed.

End ReadProperties.

(** X19.  The buffers the counting loop goes through are the file cut
    into pieces: none is empty, none has more than 255 characters, and
    put end to end they are the file. *)
Theorem fgets_loop_covers_stream (stream : string) :
  let buffers := fgets_loop (String.length stream) stream in
  concat_strings buffers = stream /\
  Forall (fun buffer =>
    buffer <> EmptyString /\ (String.length buffer <= 255)%nat) buffers.
Proof. apply fgets_loop_spec. lia. Qed.

(** * The further properties at concrete inputs *)

(** A closed decidable proposition, by evaluation. *)
Ltac by_evaluation :=
  lazymatch goal with
  | |- ?P => apply (bool_decide_unpack P); vm_compute; exact I
  end.

Lemma fresh_P123 : Forall fresh [P1; P2; P3].
Proof. repeat constructor; simpl; lia. Qed.

Lemma burst_nonneg_P123 : Forall (fun p => 0 <= burst_time p) [P1; P2; P3].
Proof. repeat constructor; simpl; lia. Qed.



Lemma sjf_idle_jumps_to_earliest_arrival_witness :
  let st := sjf_init (insertion_sort compare_arrival_time [late_job]) in
  Forall well_formed [late_job] /\ Forall below_INT_MAX [late_job] /\
  (exists st', sjf_non_preemptive_body st = Next st' /\
     sjf_processes st' = sjf_processes st /\
     sjf_current_time st < sjf_current_time st') /\
  (exists st', sjf_preemptive_body st = Next st' /\
     sjf_processes st' = sjf_processes st /\
     sjf_current_time st < sjf_current_time st').
Proof.
  intros st.
  assert (Forall well_formed [late_job]) as Hwf
    by (repeat constructor; simpl; lia).
  assert (Forall below_INT_MAX [late_job]) as Hbelow
    by (repeat constructor; simpl; unfold INT_MAX; lia).
  destruct (sjf_idle_jumps_to_earliest_arrival insertion_sort
              insertion_sort_Permutation [late_job] st Hwf Hbelow)
    as [Hnp Hp].
  split; [exact Hwf|]. split; [exact Hbelow|]. split.
  - destruct (Hnp (sjf_np_reach_init _) eq_refl eq_refl)
      as (st' & Hb & Hps & _ & _ & Hlt & _).
    exists st'. repeat split; assumption.
  - destruct (Hp (sjf_p_reach_init _) eq_refl eq_refl)
      as (st' & Hb & Hps & _ & _ & Hlt & _).
    exists st'. repeat split; assumption.
Defined.

Lemma short_line_file :
  short_line file_header /\ Forall short_line file_lines /\
  short_line file_last.
Proof.
  unfold short_line. split; [|split]; [|repeat constructor|];
    by_evaluation.
Qed.

Lemma read_processes_reads_each_line_witness :
  short_line file_header /\ Forall short_line file_lines /\
  short_line file_last /\
  read_processes atoi_decimal
    (Some (file_header +:+ String newline (lines_text file_lines file_last)))
    (fun _ => unwritten) = (3, [P1; P2; P3]).
Proof.
  destruct short_line_file as (Hheader & Hlines & Hlast).
  split; [exact Hheader|]. split; [exact Hlines|]. split; [exact Hlast|].
  rewrite (read_processes_reads_each_line atoi_decimal file_header file_lines
             file_last (fun _ => unwritten) Hheader Hlines Hlast).
  vm_compute. reflexivity.
Defined.

Lemma parse_row_reads_four_fields_witness :
  Forall plain_field ["P1"; "0"; "5"; "2" +:+ String newline ""] /\
  parse_row atoi_decimal unwritten
    (row_text ["P1"; "0"; "5"; "2" +:+ String newline ""]) =
  new_process "P1" 0 5 2.
Proof.
  assert (Forall plain_field ["P1"; "0"; "5"; "2" +:+ String newline ""])
    as Hplain.
  { unfold plain_field, clean_field. repeat constructor; by_evaluation. }
  split; [exact Hplain|].
  rewrite (parse_row_reads_four_fields atoi_decimal unwritten "P1" "0" "5"
             ("2" +:+ String newline "") [] Hplain ltac:(constructor)).
  vm_compute. reflexivity.
Defined.

Lemma parse_row_missing_fields_keep_memory_witness :
  let q := parse_row atoi_decimal unwritten (row_text ["P4"; "6"]) in
  Forall plain_field ["P4"; "6"] /\ (2 < 4)%nat /\
  priority q = priority unwritten /\ burst_time q = burst_time unwritten /\
  remaining_time q = burst_time unwritten.
Proof.
  intros q.
  assert (Forall plain_field ["P4"; "6"]) as Hplain.
  { unfold plain_field, clean_field. repeat constructor; by_evaluation. }
  destruct (parse_row_missing_fields_keep_memory atoi_decimal unwritten
              ["P4"; "6"] Hplain ltac:(simpl; lia)) as (Hprio & Hburst & _).
  split; [exact Hplain|]. split; [lia|]. split; [exact Hprio|].
  apply Hburst. simpl. lia.
Defined.

Lemma parse_row_skips_empty_fields_witness :
  Forall clean_field ["P1"; ""; "5"; "2"] /\
  parse_row atoi_decimal unwritten (row_text ["P1"; ""; "5"; "2"]) =
  parse_row atoi_decimal unwritten (row_text ["P1"; "5"; "2"]).
Proof.
  assert (Forall clean_field ["P1"; ""; "5"; "2"]) as Hclean.
  { unfold clean_field. repeat constructor; by_evaluation. }
  split; [exact Hclean|].
  exact (parse_row_skips_empty_fields atoi_decimal unwritten
           ["P1"; ""; "5"; "2"] Hclean).
Defined.

Lemma read_processes_resets_run_state_witness :
  let result :=
    read_processes atoi_decimal
      (Some (file_header +:+ String newline (lines_text file_lines file_last)))
      (fun _ => unwritten) in
  fst result = Z.of_nat (length (snd result)) /\ Forall fresh (snd result).
Proof.
  intros result.
  destruct (read_processes_resets_run_state atoi_decimal
              (Some (file_header +:+
                     String newline (lines_text file_lines file_last)))
              (fun _ => unwritten)) as (Hcount & _ & Hfresh).
  split; [exact Hcount|].
  assert (Forall (fun p => 0 <= arrival_time p /\ 0 < burst_time p)
            (snd result)) as Hrows by by_evaluation.
  eapply Forall_impl; [exact (Forall_and _ _ _ Hrows Hfresh)|].
  intros p [[Ha Hb] Hp]. exact (Hp Ha Hb).
Defined.

(** ** Runs that stay in the range of [int] *)

Lemma wrap_small z :
  Int32.INT_MIN <= z <= INT_MAX -> Int32.wrap z = z.
Proof.
  unfold Int32.INT_MIN, INT_MAX, Int32.wrap. intros Hz.
  rewrite Z.mod_small; lia.
Qed.

(** Two bodies that do the same on the states of an invariant give the
    same loop. *)
Lemma while_agree {St : Type} (cond : St -> bool) (body body' : St -> flow St)
  (Inv : St -> Prop) fuel s :
  (forall s s', Inv s -> cond s = true -> body s = Next s' -> Inv s') ->
  (forall s, Inv s -> cond s = true -> body' s = body s) ->
  Inv s ->
  while cond body' fuel s = while cond body fuel s.
Proof.
  intros Hstep Hsame. revert s.
  induction fuel as [|fuel IH]; intros s Hs; simpl.
  - done.
  - destruct (cond s) eqn:Hc; [|done].
    rewrite (Hsame s Hs Hc).
    destruct (body s) as [s'| |] eqn:Hb; [|done..].
    apply IH. by eapply Hstep.
Qed.

Lemma compare_arrival_time_agree p1 p2 :
  0 <= arrival_time p1 <= INT_MAX -> 0 <= arrival_time p2 <= INT_MAX ->
  Int32.compare_arrival_time p1 p2 = compare_arrival_time p1 p2.
Proof.
  intros H1 H2. unfold Int32.compare_arrival_time, compare_arrival_time.
  apply wrap_small. unfold Int32.INT_MIN, INT_MAX in *. lia.
Qed.

Lemma insert_sorted_ext (c c' : Process -> Process -> Z) p l :
  (forall b, b ∈ l -> c p b = c' p b) ->
  insert_sorted c p l = insert_sorted c' p l.
Proof.
  induction l as [|q l IH]; intros H; simpl; [done|].
  rewrite (H q) by apply list_elem_of_here.
  destruct (c' p q <? 0); [done|]. f_equal. apply IH.
  intros b Hb. by apply H, list_elem_of_further.
Qed.

Lemma insertion_sort_elem_of (c : Process -> Process -> Z) l b :
  b ∈ insertion_sort c l -> b ∈ l.
Proof.
  assert (forall p l', insert_sorted c p l' ≡ₚ p :: l') as Hins.
  { intros p l'. induction l' as [|q l' IH]; simpl; [done|].
    destruct (c p q <? 0); [done|]. rewrite IH. apply Permutation_swap. }
  assert (insertion_sort c l ≡ₚ l) as Hperm.
  { induction l as [|p l IH]; simpl; [done|]. by rewrite Hins, IH. }
  by rewrite Hperm.
Qed.

Lemma insertion_sort_ext (c c' : Process -> Process -> Z) l :
  (forall a b, a ∈ l -> b ∈ l -> c a b = c' a b) ->
  insertion_sort c l = insertion_sort c' l.
Proof.
  induction l as [|p l IH]; intros H; simpl; [done|].
  rewrite IH by (intros a b Ha Hb; apply H; by apply list_elem_of_further).
  apply insert_sorted_ext. intros b Hb. apply H; [apply list_elem_of_here|].
  apply list_elem_of_further. by eapply insertion_sort_elem_of.
Qed.

Lemma total_burst_cons p l :
  total_burst (p :: l) = burst_time p + total_burst l.
Proof. done. Qed.

Lemma total_burst_nonneg l :
  Forall (fun p => 0 <= burst_time p) l -> 0 <= total_burst l.
Proof.
  intros H. apply Zsum_nonneg. apply Forall_fmap.
  eapply Forall_impl; [exact H|]. done.
Qed.

Lemma latest_arrival_nonneg l : 0 <= latest_arrival l.
Proof. induction l as [|p l IH]; simpl; lia. Qed.

Lemma latest_arrival_Permutation l l' :
  l ≡ₚ l' -> latest_arrival l = latest_arrival l'.
Proof.
  induction 1 as [|x l l' _ IH|x y l|l l' l'' _ IH1 _ IH2]; simpl; lia.
Qed.

Lemma fcfs_loop_agree l t :
  Forall (fun p => 0 <= arrival_time p /\ 0 <= burst_time p) l ->
  0 <= t ->
  Z.max t (latest_arrival l) + total_burst l <= INT_MAX ->
  Int32.fcfs_loop l t = fcfs_loop l t.
Proof.
  intros Hl. revert t.
  induction Hl as [|p l [Ha Hb] Hl IH]; intros t Ht Hfit; [done|].
  rewrite total_burst_cons in Hfit. cbn [latest_arrival foldr] in Hfit.
  fold (latest_arrival l) in Hfit.
  assert (0 <= total_burst l) as Htot.
  { apply total_burst_nonneg. eapply Forall_impl; [exact Hl|]. by intros q [_ ?]. }
  pose proof (latest_arrival_nonneg l) as Hlat.
  cbn [Int32.fcfs_loop fcfs_loop]. cbv zeta.
  set (ct := if t <? arrival_time p then arrival_time p else t).
  assert (ct = Z.max t (arrival_time p)) as Hct
    by (unfold ct; destruct (Z.ltb_spec t (arrival_time p)); lia).
  cbn [burst_time set_started set_response_time].
  rewrite (wrap_small (ct - arrival_time p))
    by (unfold Int32.INT_MIN; lia).
  rewrite (wrap_small (ct + burst_time p))
    by (unfold Int32.INT_MIN; lia).
  f_equal. apply IH; lia.
Qed.

Lemma metrics_step_agree latest total p :
  accounted latest total p -> 0 <= arrival_time p -> 0 <= burst_time p ->
  latest + total <= INT_MAX ->
  Int32.metrics_step p = metrics_step p.
Proof.
  intros (_ & Hr & Hc & Hb) Ha Hbt Hfit.
  unfold Int32.metrics_step, metrics_step.
  rewrite (wrap_small (completion_time p - arrival_time p))
    by (unfold Int32.INT_MIN; lia).
  cbn [turnaround_time burst_time set_turnaround_time].
  rewrite wrap_small by (unfold Int32.INT_MIN; lia). done.
Qed.

Lemma accounted_before_metrics latest total p :
  accounted latest total (metrics_step p) -> accounted latest total p.
Proof. done. Qed.

Lemma map_metrics_step_agree latest total l :
  Forall (accounted latest total) (map metrics_step l) ->
  Forall (fun p => 0 <= arrival_time p /\ 0 <= burst_time p) l ->
  latest + total <= INT_MAX ->
  map Int32.metrics_step l = map metrics_step l.
Proof.
  intros Hacc Hl Hfit.
  induction Hl as [|p l [Ha Hb] Hl IH]; [done|].
  cbn [map] in *. apply Forall_cons in Hacc as [Hp Hacc].
  rewrite IH by done. f_equal. by eapply metrics_step_agree.
Qed.

Lemma timeline_clock_le latest ps ct :
  timeline_inv latest ps ct -> ct <= latest + total_burst ps.
Proof.
  intros [Hct Hall].
  assert (0 <= total_remaining ps); [|lia].
  apply total_remaining_nonneg. eapply Forall_impl; [exact Hall|].
  by intros p (? & _).
Qed.

Lemma total_remaining_ge (l : list Process) i p :
  Forall (fun p => 0 <= remaining_time p) l -> l !! i = Some p ->
  remaining_time p <= total_remaining l.
Proof.
  intros Hl. revert i. unfold total_remaining.
  induction Hl as [|q l Hq Hl IH]; intros [|i] Hi; simpl in *; try done.
  - injection Hi as ->.
    pose proof (total_remaining_nonneg l Hl) as H. unfold total_remaining in H.
    lia.
  - specialize (IH i Hi). lia.
Qed.

(** The clock of a state of the time line can run [e] units of a process
    that has them left without leaving the range. *)
Lemma timeline_room latest ps ct i p e :
  timeline_inv latest ps ct -> ps !! i = Some p ->
  e <= remaining_time p ->
  ct + e <= latest + total_burst ps.
Proof.
  intros [Hct Hall] Hp He.
  assert (remaining_time p <= total_remaining ps); [|lia].
  eapply total_remaining_ge; [|done].
  eapply Forall_impl; [exact Hall|]. by intros q (? & _).
Qed.

Lemma well_formed_static (l l' : list Process) i p :
  map static_fields l = map static_fields l' -> Forall well_formed l' ->
  l !! i = Some p -> 0 <= arrival_time p /\ 0 < burst_time p.
Proof.
  intros Hm Hl Hp.
  destruct (map_static_fields_lookup _ _ _ _ Hm Hp) as (p0 & Hp0 & Heq).
  rewrite (static_fields_arrival _ _ Heq), (static_fields_burst _ _ Heq).
  destruct (proj1 (Forall_lookup _ _) Hl i p0 Hp0) as (? & ? & _). done.
Qed.

Lemma sjf_non_preemptive_body_agree latest sorted st :
  Forall well_formed sorted ->
  latest + total_burst sorted <= INT_MAX ->
  sjf_inv (fun p => started p = false) (fun _ => True) sorted st ->
  timeline_inv latest (sjf_processes st) (sjf_current_time st) ->
  Int32.sjf_non_preemptive_body st = sjf_non_preemptive_body st.
Proof.
  intros Hwf Hfit Hinv Htl.
  destruct (sjf_inv_length _ _ _ _ Hinv) as [Hlen1 Hlen2].
  pose proof Hinv as (Hst & _ & _ & Hall).
  unfold Int32.sjf_non_preemptive_body, sjf_non_preemptive_body.
  destruct (find_shortest _ _ _ _ _ _ _) as [idx|] eqn:Hf; [|done].
  destruct (find_shortest_Some _ _ _ _ _ Hlen2 Hf)
    as (p & (Hp & Hd & Ha) & _ & _).
  rewrite Hp. cbv zeta. cbn [burst_time set_started set_response_time].
  destruct (well_formed_static _ _ _ _ Hst Hwf Hp) as [Harr Hburst].
  pose proof (timeline_clock_le _ _ _ Htl) as Hct.
  rewrite (total_burst_static _ _ Hst) in Hct.
  pose proof (Hall idx p false Hp Hd) as Hns. simpl in Hns.
  pose proof Htl as [_ Hps].
  destruct (proj1 (Forall_lookup _ _) Hps idx p Hp) as (_ & Hsv & _).
  unfold served in Hsv. rewrite Hns in Hsv.
  pose proof (timeline_room _ _ _ idx p (burst_time p) Htl Hp ltac:(lia))
    as Hroom.
  rewrite (total_burst_static _ _ Hst) in Hroom.
  rewrite (wrap_small (sjf_current_time st - arrival_time p))
    by (unfold Int32.INT_MIN; lia).
  rewrite (wrap_small (sjf_current_time st + burst_time p))
    by (unfold Int32.INT_MIN; lia).
  done.
Qed.

Lemma sjf_preemptive_body_agree latest sorted st :
  Forall well_formed sorted ->
  latest + total_burst sorted <= INT_MAX ->
  sjf_inv unfinished finished sorted st ->
  timeline_inv latest (sjf_processes st) (sjf_current_time st) ->
  Int32.sjf_preemptive_body st = sjf_preemptive_body st.
Proof.
  intros Hwf Hfit Hinv Htl.
  destruct (sjf_inv_length _ _ _ _ Hinv) as [Hlen1 Hlen2].
  pose proof Hinv as (Hst & _ & _ & Hall).
  unfold Int32.sjf_preemptive_body, sjf_preemptive_body.
  destruct (find_shortest _ _ _ _ _ _ _) as [idx|] eqn:Hf; [|done].
  destruct (find_shortest_Some _ _ _ _ _ Hlen2 Hf)
    as (p & (Hp & Hd & Ha) & _ & _).
  rewrite Hp. cbv zeta.
  destruct (well_formed_static _ _ _ _ Hst Hwf Hp) as [Harr Hburst].
  pose proof (timeline_clock_le _ _ _ Htl) as Hct.
  rewrite (total_burst_static _ _ Hst) in Hct.
  pose proof (Hall idx p false Hp Hd) as [Hpos Hle]. simpl in Hpos, Hle.
  pose proof (timeline_room _ _ _ idx p 1 Htl Hp ltac:(lia)) as Hroom.
  rewrite (total_burst_static _ _ Hst) in Hroom.
  pose proof (timeline_room _ _ _ idx p (remaining_time p) Htl Hp
                ltac:(lia)) as Hrmax.
  rewrite (total_burst_static _ _ Hst) in Hrmax.
  rewrite (wrap_small (sjf_current_time st - arrival_time p))
    by (unfold Int32.INT_MIN; lia).
  rewrite (wrap_small (sjf_current_time st + 1))
    by (unfold Int32.INT_MIN; lia).
  destruct (started p); cbn [remaining_time set_started set_response_time];
    rewrite wrap_small by (unfold Int32.INT_MIN; lia); done.
Qed.

Lemma rr_body_agree latest time_quantum sorted st :
  0 < time_quantum ->
  Forall well_formed sorted ->
  Forall (fun p => arrival_time p <= latest) sorted ->
  latest + total_burst sorted <= INT_MAX ->
  rr_inv sorted st ->
  timeline_inv latest (rr_processes st) (rr_current_time st) ->
  Int32.rr_body time_quantum st = rr_body time_quantum st.
Proof.
  intros Hq Hwf Hlat Hfit Hinv Htl.
  assert (forall st', rr_body time_quantum st = Next st' ->
            map static_fields (rr_processes st') = map static_fields sorted /\
            timeline_inv latest (rr_processes st') (rr_current_time st'))
    as Hpost.
  { intros st' Hb.
    destruct (rr_timeline latest time_quantum sorted st st' Hq Hlat Hinv Htl Hb)
      as [(Hst' & _) Htl']. done. }
  unfold Int32.rr_body, rr_body in *. cbv zeta in *.
  destruct (enqueue_arrivals _ _ _ _) as [queue1 next1].
  destruct (is_empty queue1); [done|].
  destruct (dequeue queue1) as [[v queue2]|]; [|done].
  destruct (v <? 0); [done|].
  destruct (rr_processes st !! Z.to_nat v) as [p|] eqn:Hp; [|done].
  assert (Z.to_nat v < length (rr_processes st))%nat as Hlt
    by by eapply lookup_lt_Some.
  pose proof Hinv as (Hst & _).
  destruct (well_formed_static _ _ _ _ Hst Hwf Hp) as [Harr Hburst].
  set (p1 := if started p then p
             else set_started true
                    (set_response_time
                       (rr_current_time st - arrival_time p) p)) in *.
  set (e := if remaining_time p1 <? time_quantum then remaining_time p1
            else time_quantum) in *.
  set (p2 := set_remaining_time (remaining_time p1 - e) p1) in *.
  assert (static_fields p2 = static_fields p /\ started p2 = true /\
          (started p = false ->
           response_time p2 = rr_current_time st - arrival_time p))
    as (Hs2 & Hstarted2 & Hresp2).
  { unfold p2, p1. destruct (started p) eqn:Hs; simpl; by rewrite ?Hs. }
  assert (0 <= remaining_time p1 - e <= INT_MAX /\
          0 <= rr_current_time st + e <= INT_MAX /\
          (started p = false ->
           0 <= rr_current_time st - arrival_time p <= INT_MAX))
    as (Hrem & Hclock & Hresp).
  { destruct (enqueue_arrivals _ _ _ _) as [queue3 next3].
    assert (exists st' p3,
              map static_fields (rr_processes st') = map static_fields sorted /\
              timeline_inv latest (rr_processes st') (rr_current_time st') /\
              rr_current_time st' = rr_current_time st + e /\
              rr_processes st' !! Z.to_nat v = Some p3 /\
              static_fields p3 = static_fields p /\ started p3 = true /\
              remaining_time p3 = remaining_time p1 - e /\
              response_time p3 = response_time p2)
      as (st' & p3 & Hst' & Htl' & Hct' & Hp3 & Hs3 & Hstarted3 & Hrem3 & Hresp3).
    { destruct (remaining_time p2 =? 0).
      - destruct (Hpost _ eq_refl) as [Hst' Htl'].
        eexists _, _. split; [exact Hst'|]. split; [exact Htl'|].
        split; [done|]. simpl. split.
        { rewrite list_insert_insert_eq. apply list_lookup_insert_eq. done. }
        done.
      - destruct (Hpost _ eq_refl) as [Hst' Htl'].
        eexists _, _. split; [exact Hst'|]. split; [exact Htl'|].
        split; [done|]. simpl. split.
        { apply list_lookup_insert_eq. done. }
        done. }
    pose proof (timeline_clock_le _ _ _ Htl') as Hle.
    rewrite (total_burst_static _ _ Hst'), Hct' in Hle.
    destruct Htl' as [_ Hall'].
    destruct (proj1 (Forall_lookup _ _) Hall' _ _ Hp3) as (Hr0 & Hsv & _).
    unfold served in Hsv. rewrite Hstarted3 in Hsv.
    rewrite (static_fields_arrival _ _ Hs3), (static_fields_burst _ _ Hs3),
      Hrem3, Hresp3, Hct' in Hsv.
    destruct Hsv as (Hsv1 & Hsv2 & Hsv3 & _).
    rewrite Hrem3 in Hr0.
    assert (0 <= rr_current_time st + e) by lia.
    assert (0 <= rr_current_time st) as Hct0.
    { destruct (started p) eqn:Hs.
      - destruct Htl as [_ Hall].
        destruct (proj1 (Forall_lookup _ _) Hall _ _ Hp) as (? & Hsv0 & _).
        unfold served in Hsv0. rewrite Hs in Hsv0. lia.
      - rewrite (Hresp2 eq_refl) in Hsv1. lia. }
    pose proof (timeline_room _ _ _ _ p (remaining_time p) Htl Hp ltac:(lia))
      as Hroom.
    rewrite (total_burst_static _ _ Hst) in Hroom.
    assert (remaining_time p1 = remaining_time p) as Hrem1
      by (unfold p1; by destruct (started p)).
    assert (0 <= e).
    { destruct Htl as [_ Hall].
      destruct (proj1 (Forall_lookup _ _) Hall _ _ Hp) as (? & _).
      unfold e. destruct (Z.ltb_spec (remaining_time p1) time_quantum); lia. }
    split; [lia|]. split; [lia|].
    intros Hs. rewrite (Hresp2 Hs) in Hsv1, Hsv3. lia. }
  assert (remaining_time p1 = remaining_time p) as Hrem1
    by (unfold p1; by destruct (started p)).
  destruct (started p) eqn:Hs.
  - subst p1. cbn [remaining_time] in *. fold e.
    rewrite (wrap_small (remaining_time p - e))
      by (unfold Int32.INT_MIN; lia).
    rewrite (wrap_small (rr_current_time st + e))
      by (unfold Int32.INT_MIN; lia).
    done.
  - rewrite (wrap_small (rr_current_time st - arrival_time p))
      by (unfold Int32.INT_MIN; specialize (Hresp eq_refl); lia).
    fold p1. fold e.
    rewrite (wrap_small (remaining_time p1 - e))
      by (unfold Int32.INT_MIN; lia).
    rewrite (wrap_small (rr_current_time st + e))
      by (unfold Int32.INT_MIN; lia).
    done.
Qed.

Lemma nonneg_static (l l' : list Process) :
  map static_fields l = map static_fields l' -> Forall well_formed l' ->
  Forall (fun p => 0 <= arrival_time p /\ 0 <= burst_time p) l.
Proof.
  intros Hm Hl. apply Forall_lookup. intros i p Hp.
  destruct (well_formed_static _ _ _ _ Hm Hl Hp). lia.
Qed.

(** ** The four schedulers in range *)

Section Agreement.

Variable qsort : (Process -> Process -> Z) -> list Process -> list Process.
Hypothesis qsort_Permutation :
  forall l, qsort compare_arrival_time l ≡ₚ l.
Hypothesis qsort_ext :
  forall (c c' : Process -> Process -> Z) l,
    (forall a b, a ∈ l -> b ∈ l -> c a b = c' a b) -> qsort c l = qsort c' l.

Variable processes : list Process.
Hypothesis processes_fresh : Forall fresh processes.
Hypothesis processes_fit : clock_fits_int processes.

Let sorted := qsort compare_arrival_time processes.
Let latest := latest_arrival processes.

Lemma sorted_facts :
  Forall fresh sorted /\ Forall well_formed sorted /\
  Forall unfinished sorted /\
  Forall (fun p => arrival_time p <= latest) sorted /\
  latest + total_burst sorted <= INT_MAX /\ 0 <= latest.
Proof.
  assert (Forall fresh sorted) as Hfresh
    by (unfold sorted; by rewrite qsort_Permutation).
  assert (Forall well_formed sorted) as Hwf
    by (eapply Forall_impl; [exact Hfresh|]; by intros p [? _]).
  split; [done|]. split; [done|]. split.
  { eapply Forall_impl; [exact Hwf|]. apply well_formed_unfinished. }
  split.
  { unfold sorted. rewrite qsort_Permutation. apply latest_arrival_bound. }
  split; [|apply latest_arrival_nonneg].
  unfold sorted.
  rewrite (total_burst_Permutation _ _ (qsort_Permutation processes)).
  exact processes_fit.
Qed.

Lemma qsort_int32 :
  qsort Int32.compare_arrival_time processes = sorted.
Proof.
  apply qsort_ext. intros a b Ha Hb.
  assert (forall p, p ∈ processes -> 0 <= arrival_time p <= INT_MAX) as Hr.
  { intros p Hp.
    pose proof (proj1 (Forall_forall _ _) processes_fresh p Hp)
      as ((? & _) & _).
    pose proof (proj1 (Forall_forall _ _) (latest_arrival_bound processes) p Hp)
      as Hle. simpl in Hle.
    assert (0 <= total_burst processes).
    { apply total_burst_nonneg. eapply Forall_impl; [exact processes_fresh|].
      intros q ((_ & ? & _) & _). lia. }
    unfold clock_fits_int in processes_fit. lia. }
  apply compare_arrival_time_agree; by apply Hr.
Qed.

Lemma fcfs_schedule_agree :
  Int32.fcfs_schedule qsort processes = fst (fcfs_schedule qsort processes).
Proof.
  destruct sorted_facts as (Hfresh & Hwf & HU & Hlat & Hfit & Hl0).
  pose proof (schedulers_account_for_every_process qsort qsort_Permutation
                processes 1 latest processes_fresh
                (latest_arrival_bound processes) ltac:(lia)) as (Hacc & _).
  unfold Int32.fcfs_schedule, fcfs_schedule in *. rewrite qsort_int32.
  fold sorted in Hacc |- *. rewrite calculate_metrics_fst in Hacc |- *.
  rewrite fcfs_loop_agree.
  - eapply map_metrics_step_agree; [exact Hacc| |exact processes_fit].
    eapply nonneg_static; [apply fcfs_loop_static_fields|exact Hwf].
  - by eapply nonneg_static.
  - lia.
  - fold latest. unfold sorted.
    rewrite (latest_arrival_Permutation _ _ (qsort_Permutation processes)).
    fold latest. fold sorted. lia.
Qed.

Lemma sjf_non_preemptive_schedule_agree fuel :
  Forall below_INT_MAX processes ->
  Int32.sjf_non_preemptive_schedule qsort fuel processes =
  outcome_map fst (sjf_non_preemptive_schedule qsort fuel processes).
Proof.
  intros Hb.
  destruct sorted_facts as (Hfresh & Hwf & HU & Hlat & Hfit & Hl0).
  assert (Forall below_INT_MAX sorted) as Hb'
    by (unfold sorted; by rewrite qsort_Permutation).
  pose proof (schedulers_account_for_every_process qsort qsort_Permutation
                processes 1 latest processes_fresh
                (latest_arrival_bound processes) ltac:(lia))
    as (_ & Hacc & _).
  specialize (Hacc Hb fuel).
  unfold Int32.sjf_non_preemptive_schedule, sjf_non_preemptive_schedule in *.
  rewrite qsort_int32. fold sorted in Hacc |- *.
  rewrite (while_agree _ sjf_non_preemptive_body Int32.sjf_non_preemptive_body
             (fun s => sjf_inv (fun p => started p = false) (fun _ => True)
                         sorted s /\
                       timeline_inv latest (sjf_processes s)
                         (sjf_current_time s))).
  - destruct (while _ _ _ _) as [st| |] eqn:Hw; [|done..]. simpl.
    specialize (Hacc _ eq_refl). rewrite calculate_metrics_fst in Hacc |- *.
    f_equal.
    eapply map_metrics_step_agree; [exact Hacc| |exact processes_fit].
    eapply (sjf_non_preemptive_loop_partial (fun _ => True) (fun _ => True))
      in Hw as [_ Hw]; [|done|by apply Forall_true].
    by eapply nonneg_static.
  - intros s s' [Hinv Htl] Hc Hbody. by eapply sjf_non_preemptive_timeline.
  - intros s [Hinv Htl] _. by eapply sjf_non_preemptive_body_agree.
  - split.
    + apply sjf_inv_init. eapply Forall_impl; [exact Hfresh|].
      by intros p [_ ?].
    + by apply timeline_inv_init.
Qed.

Lemma sjf_preemptive_schedule_agree fuel :
  Forall below_INT_MAX processes ->
  Int32.sjf_preemptive_schedule qsort fuel processes =
  outcome_map fst (sjf_preemptive_schedule qsort fuel processes).
Proof.
  intros Hb.
  destruct sorted_facts as (Hfresh & Hwf & HU & Hlat & Hfit & Hl0).
  assert (Forall below_INT_MAX sorted) as Hb'
    by (unfold sorted; by rewrite qsort_Permutation).
  pose proof (schedulers_account_for_every_process qsort qsort_Permutation
                processes 1 latest processes_fresh
                (latest_arrival_bound processes) ltac:(lia))
    as (_ & _ & Hacc & _).
  specialize (Hacc Hb fuel).
  unfold Int32.sjf_preemptive_schedule, sjf_preemptive_schedule in *.
  rewrite qsort_int32. fold sorted in Hacc |- *.
  rewrite (while_agree _ sjf_preemptive_body Int32.sjf_preemptive_body
             (fun s => sjf_inv unfinished finished sorted s /\
                       timeline_inv latest (sjf_processes s)
                         (sjf_current_time s))).
  - destruct (while _ _ _ _) as [st| |] eqn:Hw; [|done..]. simpl.
    specialize (Hacc _ eq_refl). rewrite calculate_metrics_fst in Hacc |- *.
    f_equal.
    eapply map_metrics_step_agree; [exact Hacc| |exact processes_fit].
    apply sjf_preemptive_loop_static in Hw. by eapply nonneg_static.
  - intros s s' [Hinv Htl] Hc Hbody. by eapply sjf_preemptive_timeline.
  - intros s [Hinv Htl] _. by eapply sjf_preemptive_body_agree.
  - split; [by apply sjf_inv_init|by apply timeline_inv_init].
Qed.

Lemma rr_schedule_agree fuel time_quantum :
  0 < time_quantum -> queue_fits_int processes ->
  Int32.rr_schedule qsort fuel processes time_quantum =
  outcome_map fst (rr_schedule qsort fuel processes time_quantum).
Proof.
  intros Hq Hcap.
  destruct sorted_facts as (Hfresh & Hwf & HU & Hlat & Hfit & Hl0).
  pose proof (schedulers_account_for_every_process qsort qsort_Permutation
                processes time_quantum latest processes_fresh
                (latest_arrival_bound processes) Hq)
    as (_ & _ & _ & Hacc).
  specialize (Hacc fuel).
  unfold Int32.rr_schedule, rr_schedule in *.
  rewrite qsort_int32. fold sorted in Hacc |- *.
  assert (Int32.rr_init sorted = rr_init sorted) as ->.
  { unfold Int32.rr_init, rr_init. rewrite wrap_small; [done|].
    unfold queue_fits_int in Hcap. unfold sorted.
    rewrite (Permutation_length (qsort_Permutation processes)).
    unfold Int32.INT_MIN. lia. }
  assert (while (rr_cond (length sorted)) (Int32.rr_body time_quantum) fuel
            (rr_init sorted) =
          while (rr_cond (length sorted)) (rr_body time_quantum) fuel
            (rr_init sorted)) as ->.
  { destruct (decide (sorted = [])) as [Hnil|Hne].
    { rewrite Hnil. by rewrite !while_cond_false. }
    apply (while_agree _ _ _
             (fun s => rr_inv sorted s /\
                       timeline_inv latest (rr_processes s)
                         (rr_current_time s))).
    - intros s s' [Hinv Htl] Hc Hbody. by eapply rr_timeline.
    - intros s [Hinv Htl] _. by eapply rr_body_agree.
    - split; [by apply rr_inv_init|by apply timeline_inv_init]. }
  destruct (while _ _ _ _) as [st| |] eqn:Hw; [|done..]. simpl.
  specialize (Hacc _ eq_refl). rewrite calculate_metrics_fst in Hacc |- *.
  f_equal.
  eapply map_metrics_step_agree; [exact Hacc| |exact processes_fit].
  apply rr_loop_static in Hw. by eapply nonneg_static.
Qed.

End Agreement.

(** * The schedulers as compiled *)

Section Compiled.

Variable qsort : (Process -> Process -> Z) -> list Process -> list Process.
Hypothesis qsort_Permutation :
  forall l, qsort compare_arrival_time l ≡ₚ l.
Hypothesis qsort_Sorted :
  forall l, Sorted compare_le (qsort compare_arrival_time l).
Hypothesis qsort_ext :
  forall (c c' : Process -> Process -> Z) l,
    (forall a b, a ∈ l -> b ∈ l -> c a b = c' a b) -> qsort c l = qsort c' l.

(** What holds of the arrays the schedulers over unbounded integers
    return holds of the arrays the 32-bit schedulers return, on a process
    set in range; and these arrays hold the processes of the input. *)
Lemma int32_transfer (P : list Process -> Prop) processes time_quantum :
  Forall fresh processes -> clock_fits_int processes -> 0 < time_quantum ->
  P (fst (fcfs_schedule qsort processes)) ->
  (Forall below_INT_MAX processes -> forall fuel r,
     sjf_non_preemptive_schedule qsort fuel processes = Returned r ->
     P (fst r)) ->
  (Forall below_INT_MAX processes -> forall fuel r,
     sjf_preemptive_schedule qsort fuel processes = Returned r ->
     P (fst r)) ->
  (forall fuel r,
     rr_schedule qsort fuel processes time_quantum = Returned r ->
     P (fst r)) ->
  let holds (r : list Process) :=
    map static_fields r ≡ₚ map static_fields processes /\ P r in
  holds (Int32.fcfs_schedule qsort processes) /\
  (Forall below_INT_MAX processes -> forall fuel r,
     Int32.sjf_non_preemptive_schedule qsort fuel processes = Returned r ->
     holds r) /\
  (Forall below_INT_MAX processes -> forall fuel r,
     Int32.sjf_preemptive_schedule qsort fuel processes = Returned r ->
     holds r) /\
  (queue_fits_int processes -> forall fuel r,
     Int32.rr_schedule qsort fuel processes time_quantum = Returned r ->
     holds r).
Proof.
  intros Hfresh Hfit Hq Hfcfs Hsjf Hsrtf Hrr holds.
  destruct (schedulers_static qsort qsort_Permutation processes time_quantum)
    as (Hs1 & Hs2 & Hs3 & Hs4).
  split; [|split; [|split]].
  - rewrite fcfs_schedule_agree by done. by split.
  - intros Hb fuel r Hr.
    rewrite sjf_non_preemptive_schedule_agree in Hr by done.
    apply outcome_map_Returned in Hr as (r0 & Hr0 & ->).
    split; [by eapply Hs2|by eapply Hsjf].
  - intros Hb fuel r Hr.
    rewrite sjf_preemptive_schedule_agree in Hr by done.
    apply outcome_map_Returned in Hr as (r0 & Hr0 & ->).
    split; [by eapply Hs3|by eapply Hsrtf].
  - intros Hcap fuel r Hr.
    rewrite rr_schedule_agree in Hr by done.
    apply outcome_map_Returned in Hr as (r0 & Hr0 & ->).
    split; [by eapply Hs4|by eapply Hrr].
Qed.

Lemma fresh_well_formed processes :
  Forall fresh processes -> Forall well_formed processes.
Proof. intros H. eapply Forall_impl; [exact H|]. by intros p [? _]. Qed.

(** ** C1 *)

(** C1, as the code has it.  On a process set as [read_processes] builds
    it (arrival time at least 0, burst time above 0, remaining time equal
    to the burst time, not started) whose latest arrival time plus the
    sum of its burst times fits an [int], the array a scheduler returns
    holds the processes of the input, each with [remaining_time = 0] and
    [completion_time >= arrival_time].  FCFS returns; the two SJF
    schedulers return when the arrival and burst times are below
    [INT_MAX]; Round Robin returns for a positive quantum when the
    capacity of its queue fits an [int]. *)
Theorem schedulers_finish_every_process processes time_quantum :
  Forall fresh processes -> clock_fits_int processes -> 0 < time_quantum ->
  let complete (r : list Process) :=
    map static_fields r ≡ₚ map static_fields processes /\
    Forall finished r in
  complete (Int32.fcfs_schedule qsort processes) /\
  (Forall below_INT_MAX processes ->
   (exists fuel r,
      Int32.sjf_non_preemptive_schedule qsort fuel processes = Returned r) /\
   (forall fuel r,
      Int32.sjf_non_preemptive_schedule qsort fuel processes = Returned r ->
      complete r)) /\
  (Forall below_INT_MAX processes ->
   (exists fuel r,
      Int32.sjf_preemptive_schedule qsort fuel processes = Returned r) /\
   (forall fuel r,
      Int32.sjf_preemptive_schedule qsort fuel processes = Returned r ->
      complete r)) /\
  (queue_fits_int processes ->
   (exists fuel r,
      Int32.rr_schedule qsort fuel processes time_quantum = Returned r) /\
   (forall fuel r,
      Int32.rr_schedule qsort fuel processes time_quantum = Returned r ->
      complete r)).
Proof.
  intros Hfresh Hfit Hq complete.
  pose proof (fresh_well_formed _ Hfresh) as Hwf.
  destruct (schedulers_finish_unbounded qsort qsort_Permutation processes
              time_quantum Hwf Hq)
    as (Hf1 & Hf2 & Hf3 & Hf4 & (fuel4 & r4 & Hret4) & Hret).
  destruct (int32_transfer (Forall finished) processes time_quantum
              Hfresh Hfit Hq Hf1 (fun _ => Hf2) (fun _ => Hf3) Hf4)
    as (H1 & H2 & H3 & H4).
  split; [exact H1|]. split; [|split].
  - intros Hb. split; [|by apply H2].
    destruct (proj1 (Hret Hb)) as (fuel & r & Hr). exists fuel, (fst r).
    rewrite sjf_non_preemptive_schedule_agree by done. by rewrite Hr.
  - intros Hb. split; [|by apply H3].
    destruct (proj2 (Hret Hb)) as (fuel & r & Hr). exists fuel, (fst r).
    rewrite sjf_preemptive_schedule_agree by done. by rewrite Hr.
  - intros Hcap. split; [|by apply H4].
    exists fuel4, (fst r4).
    rewrite rr_schedule_agree by done. by rewrite Hret4.
Qed.

(** ** C7 *)

(** C7, as the code has it.  On such a process set none of whose burst
    times exceeds the quantum, [rr_schedule] returns, and the array it
    leaves holds the processes of the input and has, cell by cell, the
    processes and the completion times of the array [fcfs_schedule]
    leaves on the same input. *)
Theorem rr_with_large_quantum_is_fcfs processes time_quantum :
  Forall fresh processes -> clock_fits_int processes ->
  queue_fits_int processes ->
  Forall (fun p => burst_time p <= time_quantum) processes ->
  (exists fuel r,
     Int32.rr_schedule qsort fuel processes time_quantum = Returned r) /\
  (forall fuel r,
     Int32.rr_schedule qsort fuel processes time_quantum = Returned r ->
     map static_fields r ≡ₚ map static_fields processes /\
     map (fun p => (static_fields p, completion_time p)) r =
     map (fun p => (static_fields p, completion_time p))
       (Int32.fcfs_schedule qsort processes)).
Proof.
  intros Hfresh Hfit Hcap Hquantum.
  pose proof (fresh_well_formed _ Hfresh) as Hwf.
  destruct (rr_with_large_quantum_unbounded qsort qsort_Permutation processes
              time_quantum Hwf Hquantum) as ((fuel0 & r0 & Hr0) & Hsame).
  destruct (schedulers_static qsort qsort_Permutation processes time_quantum)
    as (_ & _ & _ & Hstatic).
  destruct processes as [|p0 l] eqn:Hps.
  { assert (qsort Int32.compare_arrival_time [] = []) as Hnil.
    { rewrite (qsort_ext _ compare_arrival_time) by (by intros a b Ha%elem_of_nil).
      apply Permutation_nil_r. by rewrite qsort_Permutation. }
    assert (qsort compare_arrival_time [] = []) as Hnil'
      by (apply Permutation_nil_r; by rewrite qsort_Permutation).
    unfold Int32.rr_schedule, Int32.fcfs_schedule. rewrite Hnil.
    split; [by exists O; eexists|].
    intros fuel r Hr. rewrite while_cond_false in Hr by done.
    by injection Hr as <-. }
  rewrite <- Hps in *.
  assert (0 < time_quantum) as Hq.
  { rewrite Hps in Hwf, Hquantum.
    apply Forall_cons in Hwf as [(_ & ? & _) _].
    apply Forall_cons in Hquantum as [? _]. lia. }
  split.
  - exists fuel0, (fst r0). rewrite rr_schedule_agree by done. by rewrite Hr0.
  - intros fuel r Hr. rewrite rr_schedule_agree in Hr by done.
    apply outcome_map_Returned in Hr as (r1 & Hr1 & ->).
    rewrite fcfs_schedule_agree by done.
    split; [by eapply Hstatic|by eapply Hsame].
Qed.

(** ** The two embeddings *)

(** X4.  On a process set as [read_processes] builds it whose latest
    arrival time plus the sum of its burst times fits an [int], the
    reduction to 32 bits does not show in the result: the 32-bit
    schedulers return the arrays the schedulers over unbounded integers
    return, so every time they record is the exact one. *)
Theorem schedulers_agree_in_range processes time_quantum :
  Forall fresh processes -> clock_fits_int processes -> 0 < time_quantum ->
  Int32.fcfs_schedule qsort processes = fst (fcfs_schedule qsort processes) /\
  (Forall below_INT_MAX processes -> forall fuel,
     Int32.sjf_non_preemptive_schedule qsort fuel processes =
     outcome_map fst (sjf_non_preemptive_schedule qsort fuel processes)) /\
  (Forall below_INT_MAX processes -> forall fuel,
     Int32.sjf_preemptive_schedule qsort fuel processes =
     outcome_map fst (sjf_preemptive_schedule qsort fuel processes)) /\
  (queue_fits_int processes -> forall fuel,
     Int32.rr_schedule qsort fuel processes time_quantum =
     outcome_map fst (rr_schedule qsort fuel processes time_quantum)).
Proof.
  intros Hfresh Hfit Hq. split; [|split; [|split]].
  - by apply fcfs_schedule_agree.
  - intros Hb fuel. by apply sjf_non_preemptive_schedule_agree.
  - intros Hb fuel. by apply sjf_preemptive_schedule_agree.
  - intros Hcap fuel. by apply rr_schedule_agree.
Qed.

(** ** fcfs.c: the order of service *)

(** X6.  On such a process set [fcfs_schedule] leaves the processes of
    the input in arrival order and serves them in that order without
    gaps: the first process starts at its arrival time, and every other
    one starts as soon as it has arrived and the process before it in the
    array has completed; its response time is its wait until then. *)
Theorem fcfs_serves_in_arrival_order processes :
  Forall fresh processes -> clock_fits_int processes ->
  let r := Int32.fcfs_schedule qsort processes in
  map static_fields r ≡ₚ map static_fields processes /\
  StronglySorted arrival_le r /\
  (forall p, r !! O = Some p ->
     completion_time p = arrival_time p + burst_time p /\
     response_time p = 0) /\
  (forall i a b, r !! i = Some a -> r !! S i = Some b ->
     completion_time b =
     Z.max (completion_time a) (arrival_time b) + burst_time b /\
     response_time b =
     Z.max (completion_time a) (arrival_time b) - arrival_time b).
Proof.
  intros Hfresh Hfit r. unfold r. rewrite fcfs_schedule_agree by done.
  destruct (fcfs_serves_unbounded qsort qsort_Sorted processes)
    as (Hsorted & Hfirst & Hnext).
  destruct (schedulers_static qsort qsort_Permutation processes 1)
    as (Hs & _).
  split; [exact Hs|]. split; [exact Hsorted|]. split; [|exact Hnext].
  intros p Hp. destruct (Hfirst p Hp) as [Hc Hr].
  assert (0 <= arrival_time p) as Ha.
  { apply list_elem_of_lookup_2 in Hp.
    apply (list_elem_of_fmap_2 static_fields) in Hp. rewrite Hs in Hp.
    apply list_elem_of_fmap in Hp as (p0 & Heq & Hp0).
    rewrite (static_fields_arrival _ _ Heq).
    by destruct (proj1 (Forall_forall _ _) Hfresh p0 Hp0) as ((? & _) & _). }
  rewrite Hc, Hr. lia.
Qed.

(** ** The time line of a run *)

(** X11.  On such a process set the array a scheduler returns holds the
    processes of the input, every one of them has been dispatched
    ([started] is set), and its recorded response time is at least 0 and
    at most its waiting time.  For the two SJF schedulers the arrival and
    burst times are taken below [INT_MAX], for Round Robin the quantum
    above 0 and the capacity of the queue in the range of [int]. *)
Theorem response_time_at_most_waiting_time processes time_quantum :
  Forall fresh processes -> clock_fits_int processes -> 0 < time_quantum ->
  let good p :=
    started p = true /\ 0 <= response_time p <= waiting_time p in
  let holds (r : list Process) :=
    map static_fields r ≡ₚ map static_fields processes /\ Forall good r in
  holds (Int32.fcfs_schedule qsort processes) /\
  (Forall below_INT_MAX processes -> forall fuel r,
     Int32.sjf_non_preemptive_schedule qsort fuel processes = Returned r ->
     holds r) /\
  (Forall below_INT_MAX processes -> forall fuel r,
     Int32.sjf_preemptive_schedule qsort fuel processes = Returned r ->
     holds r) /\
  (queue_fits_int processes -> forall fuel r,
     Int32.rr_schedule qsort fuel processes time_quantum = Returned r ->
     holds r).
Proof.
  intros Hfresh Hfit Hq good holds.
  destruct (response_time_bounds_unbounded qsort qsort_Permutation processes
              time_quantum Hfresh Hq) as (H1 & H2 & H3 & H4).
  by apply (int32_transfer (Forall good) processes time_quantum).
Qed.

(** X12.  On such a process set the array a scheduler returns holds the
    processes of the input, and every completion time it records lies
    between the arrival time plus the burst time of the process and the
    latest arrival time plus the sum of all burst times, hence in the
    range of [int]; the turnaround time is at least the burst time. *)
Theorem completion_times_are_bounded processes time_quantum :
  Forall fresh processes -> clock_fits_int processes -> 0 < time_quantum ->
  let good p :=
    arrival_time p + burst_time p <= completion_time p /\
    completion_time p <= latest_arrival processes + total_burst processes /\
    completion_time p <= INT_MAX /\
    burst_time p <= turnaround_time p in
  let holds (r : list Process) :=
    map static_fields r ≡ₚ map static_fields processes /\ Forall good r in
  holds (Int32.fcfs_schedule qsort processes) /\
  (Forall below_INT_MAX processes -> forall fuel r,
     Int32.sjf_non_preemptive_schedule qsort fuel processes = Returned r ->
     holds r) /\
  (Forall below_INT_MAX processes -> forall fuel r,
     Int32.sjf_preemptive_schedule qsort fuel processes = Returned r ->
     holds r) /\
  (queue_fits_int processes -> forall fuel r,
     Int32.rr_schedule qsort fuel processes time_quantum = Returned r ->
     holds r).
Proof.
  intros Hfresh Hfit Hq good holds.
  destruct (completion_times_bounds_unbounded qsort qsort_Permutation
              processes time_quantum Hfresh Hq) as (H1 & H2 & H3 & H4).
  assert (forall l,
            Forall (fun p =>
                      arrival_time p + burst_time p <= completion_time p /\
                      completion_time p <=
                        latest_arrival processes + total_burst processes /\
                      burst_time p <= turnaround_time p) l ->
            Forall good l) as Hgood.
  { intros l Hl. eapply Forall_impl; [exact Hl|].
    intros p (? & ? & ?). unfold good, clock_fits_int in *.
    repeat split; try done; lia. }
  apply (int32_transfer (Forall good) processes time_quantum); try done.
  - by apply Hgood.
  - intros Hb fuel r Hr. by eapply Hgood, H2.
  - intros Hb fuel r Hr. by eapply Hgood, H3.
  - intros fuel r Hr. by eapply Hgood, H4.
Qed.

(** X13.  On such a process set the two schedulers without preemption
    run the processes of the input one at a time: in the array
    [fcfs_schedule] or [sjf_non_preemptive_schedule] returns, the
    stretches from [completion_time - burst_time] to [completion_time] of
    two different processes never overlap; under FCFS they follow each
    other in the order of the array.  For SJF the arrival and burst times
    are below [INT_MAX]. *)
Theorem nonpreemptive_runs_do_not_overlap processes :
  Forall fresh processes -> clock_fits_int processes ->
  (map static_fields (Int32.fcfs_schedule qsort processes)
     ≡ₚ map static_fields processes /\
   forall i j p q, (i < j)%nat ->
     Int32.fcfs_schedule qsort processes !! i = Some p ->
     Int32.fcfs_schedule qsort processes !! j = Some q ->
     completion_time p <= completion_time q - burst_time q) /\
  (Forall below_INT_MAX processes ->
   forall fuel r,
     Int32.sjf_non_preemptive_schedule qsort fuel processes = Returned r ->
     map static_fields r ≡ₚ map static_fields processes /\
     forall i j p q,
       i <> j -> r !! i = Some p -> r !! j = Some q -> disjoint_runs p q).
Proof.
  intros Hfresh Hfit.
  assert (Forall (fun p => 0 <= burst_time p) processes) as Hpos.
  { eapply Forall_impl; [exact Hfresh|]. intros p ((_ & ? & _) & _). lia. }
  destruct (nonpreemptive_runs_unbounded qsort qsort_Permutation processes
              Hpos) as [Hfcfs Hsjf].
  destruct (schedulers_static qsort qsort_Permutation processes 1)
    as (Hs1 & Hs2 & _).
  split.
  - rewrite fcfs_schedule_agree by done. by split.
  - intros Hb fuel r Hr.
    rewrite sjf_non_preemptive_schedule_agree in Hr by done.
    apply outcome_map_Returned in Hr as (r0 & Hr0 & ->).
    split; [by eapply Hs2|]. intros i j p q. by eapply Hsjf.
Qed.

End Compiled.

(** * The driver *)




Section Driver.

Variable atoi : string -> Z.
Variable qsort : (Process -> Process -> Z) -> list Process -> list Process.
Hypothesis qsort_Permutation :
  forall l, qsort compare_arrival_time l ≡ₚ l.




End Driver.

(** * The search of sjf.c *)

Section Search.

Variable qsort : (Process -> Process -> Z) -> list Process -> list Process.
Hypothesis qsort_Permutation :
  forall l, qsort compare_arrival_time l ≡ₚ l.
Hypothesis qsort_Sorted :
  forall l, Sorted compare_le (qsort compare_arrival_time l).
Hypothesis qsort_ext :
  forall (c c' : Process -> Process -> Z) l,
    (forall a b, a ∈ l -> b ∈ l -> c a b = c' a b) -> qsort c l = qsort c' l.

(** The comparator does not overflow on arrival times from 0 on. *)
Lemma qsort_arrivals_in_range processes :
  Forall (fun p => 0 <= arrival_time p <= INT_MAX) processes ->
  qsort Int32.compare_arrival_time processes =
  qsort compare_arrival_time processes.
Proof.
  intros Hr. apply qsort_ext. intros a b Ha Hb.
  rewrite Forall_forall in Hr.
  apply compare_arrival_time_agree; by apply Hr.
Qed.

(** The states of the 32-bit loops keep the static fields of the sorted
    array and one flag for each process. *)
Lemma sjf_non_preemptive_reachable_shape sorted st :
  Int32.sjf_non_preemptive_reachable sorted st ->
  map static_fields (sjf_processes st) = map static_fields sorted /\
  length (sjf_is_completed st) = length (sjf_processes st).
Proof.
  induction 1 as [|st st' _ [IH1 IH2] _ Hb].
  { split; [done|]. simpl. by rewrite length_replicate. }
  unfold Int32.sjf_non_preemptive_body in Hb.
  destruct (find_shortest _ _ _ _ _ _ _) as [idx|]; [|by injection Hb as <-].
  destruct (sjf_processes st !! idx) as [p|] eqn:Hp; [|done].
  injection Hb as <-. simpl. split.
  - rewrite <- IH1. by eapply map_static_fields_insert.
  - by rewrite !length_insert.
Qed.

(** In the preemptive loop a process not marked completed has time
    remaining: the search picks a remaining time below [INT_MAX], so the
    decrement does not leave the range of [int]. *)
Lemma sjf_preemptive_reachable_shape sorted st :
  Forall (fun p => 0 < remaining_time p) sorted ->
  Int32.sjf_preemptive_reachable sorted st ->
  map static_fields (sjf_processes st) = map static_fields sorted /\
  length (sjf_is_completed st) = length (sjf_processes st) /\
  forall i p, sjf_processes st !! i = Some p ->
    sjf_is_completed st !! i = Some false -> 0 < remaining_time p.
Proof.
  intros Hpos. induction 1 as [|st st' _ (IH1 & IH2 & IH3) _ Hb].
  { split; [done|]. split; [simpl; by rewrite length_replicate|].
    intros i p Hp _. simpl in Hp.
    by apply (proj1 (Forall_lookup _ _) Hpos i p). }
  unfold Int32.sjf_preemptive_body in Hb.
  destruct (find_shortest _ _ _ _ _ _ _) as [idx|] eqn:Hc;
    [|by injection Hb as <-].
  destruct (find_shortest_Some _ _ _ _ _ IH2 Hc)
    as (p & (Hp & Hdone & _) & Hlt & _).
  rewrite Hp in Hb. cbv zeta in Hb.
  pose proof (IH3 idx p Hp Hdone) as Hrem.
  assert (idx < length (sjf_processes st))%nat as Hidx
    by by eapply lookup_lt_Some.
  assert (Int32.wrap (remaining_time p - 1) = remaining_time p - 1) as Hw.
  { apply wrap_small. unfold Int32.INT_MIN, INT_MAX in *. lia. }
  assert (remaining_time
            (set_remaining_time
               (Int32.wrap
                  (remaining_time
                     (if started p then p
                      else set_started true
                             (set_response_time
                                (Int32.wrap
                                   (sjf_current_time st - arrival_time p))
                                p)) - 1))
               (if started p then p
                else set_started true
                       (set_response_time
                          (Int32.wrap (sjf_current_time st - arrival_time p))
                          p))) = remaining_time p - 1) as Hrem'.
  { destruct (started p); simpl; exact Hw. }
  rewrite Hrem' in Hb.
  destruct (remaining_time p - 1 =? 0) eqn:Hz; injection Hb as <-; simpl.
  - split.
    { rewrite <- IH1. eapply map_static_fields_insert; [done|].
      by destruct (started p). }
    split; [by rewrite !length_insert|].
    intros i q Hq Hi. destruct (decide (i = idx)) as [->|Hne].
    + rewrite list_lookup_insert_eq in Hi by lia. done.
    + rewrite list_lookup_insert_ne in Hq by done.
      rewrite list_lookup_insert_ne in Hi by done. by eapply IH3.
  - split.
    { rewrite <- IH1. eapply map_static_fields_insert; [done|].
      by destruct (started p). }
    split; [by rewrite length_insert|].
    intros i q Hq Hi. destruct (decide (i = idx)) as [->|Hne].
    + rewrite list_lookup_insert_eq in Hq by done. injection Hq as <-.
      rewrite Hrem'. apply Z.eqb_neq in Hz. lia.
    + rewrite list_lookup_insert_ne in Hq by done. by eapply IH3.
Qed.

(** C5.  In every state the loop of [sjf_non_preemptive_schedule]
    reaches, in 32-bit arithmetic and whatever the processes are, the
    process the search picks has arrived and is not completed, no such
    process has a smaller burst time, and those of the same burst time
    are at a higher index of the sorted array; they arrive no earlier
    when the arrival times are [int] values from 0 on, so that the
    comparator of [qsort] does not overflow.  The body runs the process
    to completion: it marks it completed, leaves it no remaining time and
    moves the clock by its burst time, to its completion time.  The
    search picks nothing only if no such process has a burst time below
    [INT_MAX]. *)
Theorem sjf_picks_shortest_arrived processes st :
  Int32.sjf_non_preemptive_reachable
    (qsort Int32.compare_arrival_time processes) st ->
  let ready := eligible (sjf_processes st) (sjf_is_completed st)
                 (sjf_current_time st) in
  let choice := find_shortest burst_time (sjf_processes st)
                  (sjf_is_completed st) (sjf_current_time st) 0 None INT_MAX in
  (forall idx, choice = Some idx ->
   exists p, ready idx p /\
     (forall j pj, ready j pj ->
        burst_time p <= burst_time pj /\
        (burst_time pj = burst_time p ->
         (idx <= j)%nat /\
         (Forall (fun p => 0 <= arrival_time p <= INT_MAX) processes ->
          arrival_time p <= arrival_time pj))) /\
     exists st' p', Int32.sjf_non_preemptive_body st = Next st' /\
       sjf_is_completed st' = <[idx:=true]> (sjf_is_completed st) /\
       sjf_current_time st' =
         Int32.wrap (sjf_current_time st + burst_time p) /\
       sjf_processes st' !! idx = Some p' /\
       static_fields p' = static_fields p /\
       remaining_time p' = 0 /\
       completion_time p' = sjf_current_time st') /\
  (choice = None -> forall j pj, ready j pj -> INT_MAX <= burst_time pj).
Proof.
  intros Hreach ready choice.
  destruct (sjf_non_preemptive_reachable_shape _ _ Hreach) as [Hst Hlen].
  split.
  - intros idx Hc.
    destruct (find_shortest_Some _ _ _ _ _ Hlen Hc) as (p & Hp & _ & Hmin).
    exists p. split; [done|]. split.
    + intros j pj Hpj. destruct (Hmin j pj Hpj) as [Hle Htie].
      split; [done|]. intros Heq. specialize (Htie Heq). split; [done|].
      intros Hrange. rewrite qsort_arrivals_in_range in Hst by done.
      destruct Hp as (Hp & _). destruct Hpj as (Hpj & _).
      destruct (map_static_fields_lookup _ _ _ _ Hst Hp) as (q & Hq & Heqp).
      destruct (map_static_fields_lookup _ _ _ _ Hst Hpj) as (qj & Hqj & Heqj).
      rewrite (static_fields_arrival _ _ Heqp), (static_fields_arrival _ _ Heqj).
      eapply (StronglySorted_arrival_lookup _ idx j); [|done..].
      apply Sorted_compare_strongly, qsort_Sorted.
    + unfold Int32.sjf_non_preemptive_body. fold choice. rewrite Hc.
      destruct Hp as (Hp & _). rewrite Hp. cbv zeta.
      assert (idx < length (sjf_processes st))%nat as Hidx
        by by eapply lookup_lt_Some.
      eexists _, _. split; [reflexivity|]. simpl.
      split; [done|]. split; [done|].
      split; [by apply list_lookup_insert_eq|]. done.
  - intros Hc. by apply find_shortest_None.
Qed.

(** X9.  The processes are well formed and their arrival times are
    [int] values.  In every state the loop of [sjf_preemptive_schedule]
    reaches, in 32-bit arithmetic, the process the search picks has
    arrived, is not completed and has time remaining; no such process has
    less time remaining, and those with as much are at a higher index of
    the sorted array, hence arrive no earlier.  The body runs it for one
    time unit and touches no other process. *)
Theorem srtf_picks_least_remaining processes st idx :
  Forall well_formed processes ->
  Forall (fun p => arrival_time p <= INT_MAX) processes ->
  Int32.sjf_preemptive_reachable
    (qsort Int32.compare_arrival_time processes) st ->
  find_shortest remaining_time (sjf_processes st) (sjf_is_completed st)
    (sjf_current_time st) 0 None INT_MAX = Some idx ->
  let ready := eligible (sjf_processes st) (sjf_is_completed st)
                 (sjf_current_time st) in
  exists p, ready idx p /\ 0 < remaining_time p /\
    (forall j pj, ready j pj ->
       remaining_time p <= remaining_time pj /\
       (remaining_time pj = remaining_time p ->
        (idx <= j)%nat /\ arrival_time p <= arrival_time pj)) /\
    exists st' p', Int32.sjf_preemptive_body st = Next st' /\
      sjf_current_time st' = Int32.wrap (sjf_current_time st + 1) /\
      sjf_processes st' !! idx = Some p' /\
      static_fields p' = static_fields p /\
      remaining_time p' = remaining_time p - 1 /\
      forall j, j <> idx -> sjf_processes st' !! j = sjf_processes st !! j.
Proof.
  intros Hwf Hmax Hreach Hc ready.
  assert (Forall (fun p => 0 <= arrival_time p <= INT_MAX) processes)
    as Hrange.
  { apply Forall_forall. intros p Hp. rewrite Forall_forall in Hwf, Hmax.
    destruct (Hwf p Hp) as (? & _). specialize (Hmax p Hp). simpl in Hmax.
    lia. }
  rewrite qsort_arrivals_in_range in Hreach by done.
  assert (Forall (fun p => 0 < remaining_time p)
            (qsort compare_arrival_time processes)) as Hpos.
  { rewrite qsort_Permutation. eapply Forall_impl; [exact Hwf|].
    intros p (_ & ? & ?). lia. }
  destruct (sjf_preemptive_reachable_shape _ _ Hpos Hreach)
    as (Hst & Hlen & Hall).
  destruct (find_shortest_Some _ _ _ _ _ Hlen Hc) as (p & Hp & Hlt & Hmin).
  pose proof Hp as (Hp1 & Hp2 & Hp3).
  pose proof (Hall idx p Hp1 Hp2) as Hrem.
  exists p. split; [done|]. split; [done|]. split.
  - intros j pj Hpj. destruct (Hmin j pj Hpj) as [Hle Htie].
    split; [done|]. intros Heq. specialize (Htie Heq). split; [done|].
    destruct Hpj as (Hpj & _).
    destruct (map_static_fields_lookup _ _ _ _ Hst Hp1) as (q & Hq & Heqp).
    destruct (map_static_fields_lookup _ _ _ _ Hst Hpj) as (qj & Hqj & Heqj).
    rewrite (static_fields_arrival _ _ Heqp), (static_fields_arrival _ _ Heqj).
    eapply (StronglySorted_arrival_lookup _ idx j); [|done..].
    apply Sorted_compare_strongly, qsort_Sorted.
  - unfold Int32.sjf_preemptive_body. rewrite Hc, Hp1. cbv zeta.
    assert (idx < length (sjf_processes st))%nat as Hidx
      by by eapply lookup_lt_Some.
    assert (Int32.wrap (remaining_time p - 1) = remaining_time p - 1) as Hw.
    { apply wrap_small. unfold Int32.INT_MIN, INT_MAX in *. lia. }
    destruct (_ =? 0); eexists _, _; (split; [reflexivity|]); simpl;
      (split; [done|]); (split; [by apply list_lookup_insert_eq|]);
      (split; [by destruct (started p)|]);
      (split; [destruct (started p); simpl; exact Hw|]);
      intros j Hj; by apply list_lookup_insert_ne.
Qed.

End Search.

(** * calculate_metrics *)

(** C9, as the code has it.  [calculate_metrics] overwrites two fields of
    every process: [turnaround_time] becomes [completion_time -
    arrival_time] and [waiting_time] becomes that difference minus
    [burst_time], both differences being taken to fit an [int] (then the
    32-bit computation gives the same array).  It leaves every other
    field of every process unchanged. *)
Theorem calculate_metrics_frame processes :
  Forall metrics_fit_int processes ->
  map Int32.metrics_step processes = fst (calculate_metrics processes) /\
  Forall2
    (fun p p' =>
       static_fields p' = static_fields p /\
       remaining_time p' = remaining_time p /\
       completion_time p' = completion_time p /\
       response_time p' = response_time p /\
       started p' = started p /\
       turnaround_time p' = completion_time p - arrival_time p /\
       waiting_time p' = completion_time p - arrival_time p - burst_time p)
    processes (fst (calculate_metrics processes)).
Proof.
  intros Hfit. rewrite calculate_metrics_fst. split.
  - induction Hfit as [|p l [H1 H2] _ IH]; [done|].
    cbn [map]. rewrite IH. f_equal.
    unfold Int32.metrics_step, metrics_step.
    rewrite (wrap_small (completion_time p - arrival_time p)) by done.
    cbn [turnaround_time burst_time set_turnaround_time].
    by rewrite wrap_small.
  - clear Hfit.
    induction processes as [|p l IH]; simpl; constructor; [done|exact IH].
Qed.

(** * The 32-bit runs at concrete inputs *)

Lemma clock_fits_int_P123 : clock_fits_int [P1; P2; P3].
Proof. unfold clock_fits_int. by_evaluation. Qed.

Lemma queue_fits_int_P123 : queue_fits_int [P1; P2; P3].
Proof. unfold queue_fits_int. by_evaluation. Qed.

Lemma fresh_long_jobs : Forall fresh [longest_job; short_job; last_job].
Proof. repeat constructor; simpl; unfold INT_MAX; lia. Qed.

(** C1, the counterexample: the burst time of [longest_job] is the
    largest [int], and [short_job] arrives while it runs.  The clock of
    [fcfs_schedule] overflows when [short_job] is run, which is left with
    a completion time before its arrival time. *)
Lemma fcfs_completes_before_arrival :
  Forall well_formed [longest_job; short_job] /\
  map (fun p => (id p, arrival_time p, completion_time p))
    (Int32.fcfs_schedule insertion_sort [longest_job; short_job]) =
  [("A", 0, 2147483647); ("B", 1, -2147483648)] /\
  ~ Forall finished
      (Int32.fcfs_schedule insertion_sort [longest_job; short_job]).
Proof.
  split; [repeat constructor; simpl; unfold INT_MAX; lia|].
  split; [vm_compute; reflexivity|].
  remember (Int32.fcfs_schedule insertion_sort [longest_job; short_job])
    as r eqn:Hr.
  vm_compute in Hr. subst r. intros H.
  apply Forall_cons in H as [_ H]. apply Forall_cons in H as [[_ H] _].
  simpl in H. lia.
Qed.

(** C7, the counterexample: with the quantum [INT_MAX], which no burst
    time exceeds, the clock overflows when [short_job] is run.  FCFS then
    finds that [last_job] has not arrived and moves the clock to its
    arrival time; Round Robin has it in the queue already and runs it at
    the clock as it is. *)
Lemma rr_differs_from_fcfs_on_long_jobs :
  Forall well_formed [longest_job; short_job; last_job] /\
  Forall (fun p => burst_time p <= INT_MAX)
    [longest_job; short_job; last_job] /\
  map (fun p => (id p, completion_time p))
    (Int32.fcfs_schedule insertion_sort [longest_job; short_job; last_job]) =
  [("A", 2147483647); ("B", -2147483648); ("C", 3)] /\
  exists r,
    Int32.rr_schedule insertion_sort 3 [longest_job; short_job; last_job]
      INT_MAX = Returned r /\
    map (fun p => (id p, completion_time p)) r =
    [("A", 2147483647); ("B", -2147483648); ("C", -2147483647)].
Proof.
  split; [repeat constructor; simpl; unfold INT_MAX; lia|].
  split; [repeat constructor; simpl; unfold INT_MAX; lia|].
  split; [vm_compute; reflexivity|].
  destruct (Int32.rr_schedule insertion_sort 3
              [longest_job; short_job; last_job] INT_MAX) as [r| |] eqn:Hr;
    [|vm_compute in Hr; discriminate..].
  exists r. split; [reflexivity|].
  vm_compute in Hr. injection Hr as <-. reflexivity.
Qed.

Lemma schedulers_finish_every_process_witness :
  let complete (r : list Process) :=
    map static_fields r ≡ₚ map static_fields [P1; P2; P3] /\
    Forall finished r in
  Forall fresh [P1; P2; P3] /\ clock_fits_int [P1; P2; P3] /\ 0 < 2 /\
  Forall below_INT_MAX [P1; P2; P3] /\ queue_fits_int [P1; P2; P3] /\
  complete (Int32.fcfs_schedule insertion_sort [P1; P2; P3]) /\
  (exists r, Int32.sjf_non_preemptive_schedule insertion_sort 3 [P1; P2; P3]
             = Returned r /\ complete r) /\
  (exists r, Int32.sjf_preemptive_schedule insertion_sort 16 [P1; P2; P3]
             = Returned r /\ complete r) /\
  (exists r, Int32.rr_schedule insertion_sort 9 [P1; P2; P3] 2
             = Returned r /\ complete r).
Proof.
  intros complete.
  destruct (schedulers_finish_every_process insertion_sort
              insertion_sort_Permutation insertion_sort_ext [P1; P2; P3] 2
              fresh_P123 clock_fits_int_P123 ltac:(lia))
    as (Hfcfs & Hsjf & Hsrtf & Hrr).
  split; [exact fresh_P123|]. split; [exact clock_fits_int_P123|].
  split; [lia|]. split; [exact below_INT_MAX_P123|].
  split; [exact queue_fits_int_P123|]. split; [exact Hfcfs|].
  split; [|split].
  - run_returns Hrun. exact (proj2 (Hsjf below_INT_MAX_P123) 3%nat r Hrun).
  - run_returns Hrun. exact (proj2 (Hsrtf below_INT_MAX_P123) 16%nat r Hrun).
  - run_returns Hrun. exact (proj2 (Hrr queue_fits_int_P123) 9%nat r Hrun).
Defined.

Lemma Forall_burst_le_8_P123 :
  Forall (fun p => burst_time p <= 8) [P1; P2; P3].
Proof. repeat constructor; simpl; lia. Qed.

Lemma rr_with_large_quantum_is_fcfs_witness :
  Forall fresh [P1; P2; P3] /\ clock_fits_int [P1; P2; P3] /\
  queue_fits_int [P1; P2; P3] /\
  Forall (fun p => burst_time p <= 8) [P1; P2; P3] /\
  exists r,
    Int32.rr_schedule insertion_sort 3 [P1; P2; P3] 8 = Returned r /\
    map static_fields r ≡ₚ map static_fields [P1; P2; P3] /\
    map (fun p => (static_fields p, completion_time p)) r =
    map (fun p => (static_fields p, completion_time p))
      (Int32.fcfs_schedule insertion_sort [P1; P2; P3]).
Proof.
  destruct (rr_with_large_quantum_is_fcfs insertion_sort
              insertion_sort_Permutation insertion_sort_ext [P1; P2; P3] 8
              fresh_P123 clock_fits_int_P123 queue_fits_int_P123
              Forall_burst_le_8_P123) as (_ & Hsame).
  split; [exact fresh_P123|]. split; [exact clock_fits_int_P123|].
  split; [exact queue_fits_int_P123|].
  split; [exact Forall_burst_le_8_P123|].
  run_returns Hrun. exact (Hsame 3%nat r Hrun).
Defined.

Lemma schedulers_agree_in_range_witness :
  Forall fresh [P1; P2; P3] /\ clock_fits_int [P1; P2; P3] /\ 0 < 2 /\
  Forall below_INT_MAX [P1; P2; P3] /\ queue_fits_int [P1; P2; P3] /\
  Int32.fcfs_schedule insertion_sort [P1; P2; P3] =
  fst (fcfs_schedule insertion_sort [P1; P2; P3]) /\
  Int32.sjf_non_preemptive_schedule insertion_sort 3 [P1; P2; P3] =
  outcome_map fst (sjf_non_preemptive_schedule insertion_sort 3 [P1; P2; P3]) /\
  Int32.sjf_preemptive_schedule insertion_sort 16 [P1; P2; P3] =
  outcome_map fst (sjf_preemptive_schedule insertion_sort 16 [P1; P2; P3]) /\
  Int32.rr_schedule insertion_sort 9 [P1; P2; P3] 2 =
  outcome_map fst (rr_schedule insertion_sort 9 [P1; P2; P3] 2).
Proof.
  destruct (schedulers_agree_in_range insertion_sort
              insertion_sort_Permutation insertion_sort_ext [P1; P2; P3] 2
              fresh_P123 clock_fits_int_P123 ltac:(lia))
    as (Hfcfs & Hsjf & Hsrtf & Hrr).
  split; [exact fresh_P123|]. split; [exact clock_fits_int_P123|].
  split; [lia|]. split; [exact below_INT_MAX_P123|].
  split; [exact queue_fits_int_P123|]. split; [exact Hfcfs|].
  split; [exact (Hsjf below_INT_MAX_P123 3%nat)|].
  split; [exact (Hsrtf below_INT_MAX_P123 16%nat)|].
  exact (Hrr queue_fits_int_P123 9%nat).
Defined.

Lemma fresh_P312 : Forall fresh [P3; P1; P2].
Proof. repeat constructor; simpl; lia. Qed.

Lemma clock_fits_int_P312 : clock_fits_int [P3; P1; P2].
Proof. unfold clock_fits_int. by_evaluation. Qed.

Lemma fcfs_serves_in_arrival_order_witness :
  let r := Int32.fcfs_schedule insertion_sort [P3; P1; P2] in
  Forall fresh [P3; P1; P2] /\ clock_fits_int [P3; P1; P2] /\
  map static_fields r ≡ₚ map static_fields [P3; P1; P2] /\
  StronglySorted arrival_le r /\
  (forall p, r !! O = Some p ->
     completion_time p = arrival_time p + burst_time p) /\
  (forall i a b, r !! i = Some a -> r !! S i = Some b ->
     completion_time b =
     Z.max (completion_time a) (arrival_time b) + burst_time b).
Proof.
  intros r.
  destruct (fcfs_serves_in_arrival_order insertion_sort
              insertion_sort_Permutation insertion_sort_Sorted
              insertion_sort_ext [P3; P1; P2] fresh_P312 clock_fits_int_P312)
    as (Hsame & Hsorted & Hfirst & Hnext).
  split; [exact fresh_P312|]. split; [exact clock_fits_int_P312|].
  split; [exact Hsame|]. split; [exact Hsorted|]. split.
  - intros p Hp. exact (proj1 (Hfirst p Hp)).
  - intros i a b Ha Hb. exact (proj1 (Hnext i a b Ha Hb)).
Defined.

Lemma response_time_at_most_waiting_time_witness :
  let good p := started p = true /\ 0 <= response_time p <= waiting_time p in
  let holds (r : list Process) :=
    map static_fields r ≡ₚ map static_fields [P1; P2; P3] /\ Forall good r in
  Forall fresh [P1; P2; P3] /\ clock_fits_int [P1; P2; P3] /\ 0 < 2 /\
  Forall below_INT_MAX [P1; P2; P3] /\ queue_fits_int [P1; P2; P3] /\
  holds (Int32.fcfs_schedule insertion_sort [P1; P2; P3]) /\
  (exists r, Int32.sjf_non_preemptive_schedule insertion_sort 3 [P1; P2; P3]
             = Returned r /\ holds r) /\
  (exists r, Int32.sjf_preemptive_schedule insertion_sort 16 [P1; P2; P3]
             = Returned r /\ holds r) /\
  (exists r, Int32.rr_schedule insertion_sort 9 [P1; P2; P3] 2
             = Returned r /\ holds r).
Proof.
  intros good holds.
  destruct (response_time_at_most_waiting_time insertion_sort
              insertion_sort_Permutation insertion_sort_ext [P1; P2; P3] 2
              fresh_P123 clock_fits_int_P123 ltac:(lia))
    as (Hfcfs & Hsjf & Hsrtf & Hrr).
  split; [exact fresh_P123|]. split; [exact clock_fits_int_P123|].
  split; [lia|]. split; [exact below_INT_MAX_P123|].
  split; [exact queue_fits_int_P123|]. split; [exact Hfcfs|].
  split; [|split].
  - run_returns Hrun. exact (Hsjf below_INT_MAX_P123 3%nat r Hrun).
  - run_returns Hrun. exact (Hsrtf below_INT_MAX_P123 16%nat r Hrun).
  - run_returns Hrun. exact (Hrr queue_fits_int_P123 9%nat r Hrun).
Defined.

Lemma completion_times_are_bounded_witness :
  let good p :=
    arrival_time p + burst_time p <= completion_time p /\
    completion_time p <= 2 + 16 /\
    completion_time p <= INT_MAX /\
    burst_time p <= turnaround_time p in
  let holds (r : list Process) :=
    map static_fields r ≡ₚ map static_fields [P1; P2; P3] /\ Forall good r in
  Forall fresh [P1; P2; P3] /\ clock_fits_int [P1; P2; P3] /\ 0 < 2 /\
  Forall below_INT_MAX [P1; P2; P3] /\ queue_fits_int [P1; P2; P3] /\
  holds (Int32.fcfs_schedule insertion_sort [P1; P2; P3]) /\
  (exists r, Int32.sjf_non_preemptive_schedule insertion_sort 3 [P1; P2; P3]
             = Returned r /\ holds r) /\
  (exists r, Int32.sjf_preemptive_schedule insertion_sort 16 [P1; P2; P3]
             = Returned r /\ holds r) /\
  (exists r, Int32.rr_schedule insertion_sort 9 [P1; P2; P3] 2
             = Returned r /\ holds r).
Proof.
  intros good holds.
  destruct (completion_times_are_bounded insertion_sort
              insertion_sort_Permutation insertion_sort_ext [P1; P2; P3] 2
              fresh_P123 clock_fits_int_P123 ltac:(lia))
    as (Hfcfs & Hsjf & Hsrtf & Hrr).
  split; [exact fresh_P123|]. split; [exact clock_fits_int_P123|].
  split; [lia|]. split; [exact below_INT_MAX_P123|].
  split; [exact queue_fits_int_P123|]. split; [exact Hfcfs|].
  split; [|split].
  - run_returns Hrun. exact (Hsjf below_INT_MAX_P123 3%nat r Hrun).
  - run_returns Hrun. exact (Hsrtf below_INT_MAX_P123 16%nat r Hrun).
  - run_returns Hrun. exact (Hrr queue_fits_int_P123 9%nat r Hrun).
Defined.

Lemma nonpreemptive_runs_do_not_overlap_witness :
  Forall fresh [P1; P2; P3] /\ clock_fits_int [P1; P2; P3] /\
  Forall below_INT_MAX [P1; P2; P3] /\
  (map static_fields (Int32.fcfs_schedule insertion_sort [P1; P2; P3])
     ≡ₚ map static_fields [P1; P2; P3] /\
   forall i j p q, (i < j)%nat ->
     Int32.fcfs_schedule insertion_sort [P1; P2; P3] !! i = Some p ->
     Int32.fcfs_schedule insertion_sort [P1; P2; P3] !! j = Some q ->
     completion_time p <= completion_time q - burst_time q) /\
  (exists r, Int32.sjf_non_preemptive_schedule insertion_sort 3 [P1; P2; P3]
             = Returned r /\
     map static_fields r ≡ₚ map static_fields [P1; P2; P3] /\
     forall i j p q, i <> j -> r !! i = Some p -> r !! j = Some q ->
       disjoint_runs p q).
Proof.
  destruct (nonpreemptive_runs_do_not_overlap insertion_sort
              insertion_sort_Permutation insertion_sort_ext [P1; P2; P3]
              fresh_P123 clock_fits_int_P123) as [Hfcfs Hsjf].
  split; [exact fresh_P123|]. split; [exact clock_fits_int_P123|].
  split; [exact below_INT_MAX_P123|]. split; [exact Hfcfs|].
  run_returns Hrun. exact (Hsjf below_INT_MAX_P123 3%nat r Hrun).
Defined.

Lemma calculate_metrics_frame_witness :
  Forall metrics_fit_int [completed_P2] /\
  map Int32.metrics_step [completed_P2] =
  fst (calculate_metrics [completed_P2]) /\
  Forall2
    (fun p p' =>
       static_fields p' = static_fields p /\
       remaining_time p' = remaining_time p /\
       completion_time p' = completion_time p /\
       response_time p' = response_time p /\
       started p' = started p /\
       turnaround_time p' = completion_time p - arrival_time p /\
       waiting_time p' = completion_time p - arrival_time p - burst_time p)
    [completed_P2] (fst (calculate_metrics [completed_P2])).
Proof.
  assert (Forall metrics_fit_int [completed_P2]) as Hfit.
  { repeat constructor; simpl; unfold Int32.INT_MIN, INT_MAX; lia. }
  exact (conj Hfit (calculate_metrics_frame [completed_P2] Hfit)).
Defined.

Lemma arrivals_in_range_tied_bursts :
  Forall (fun p => 0 <= arrival_time p <= INT_MAX) tied_bursts.
Proof. repeat constructor; simpl; unfold INT_MAX; lia. Qed.

Lemma sjf_picks_shortest_arrived_witness :
  let sorted := insertion_sort Int32.compare_arrival_time tied_bursts in
  Forall (fun p => 0 <= arrival_time p <= INT_MAX) tied_bursts /\
  exists st,
    Int32.sjf_non_preemptive_body (sjf_init sorted) = Next st /\
    sjf_current_time st = 4 /\
    let ready := eligible (sjf_processes st) (sjf_is_completed st)
                   (sjf_current_time st) in
    find_shortest burst_time (sjf_processes st) (sjf_is_completed st)
      (sjf_current_time st) 0 None INT_MAX = Some 1%nat /\
    exists p,
      ready 1%nat p /\ id p = "U2" /\
      (forall j pj, ready j pj ->
         burst_time p <= burst_time pj /\
         (burst_time pj = burst_time p ->
          (1 <= j)%nat /\ arrival_time p <= arrival_time pj)) /\
      (exists q, ready 2%nat q /\ burst_time p < burst_time q) /\
      (exists q, ready 3%nat q /\ burst_time q = burst_time p) /\
      exists st' p',
        Int32.sjf_non_preemptive_body st = Next st' /\
        sjf_current_time st' = 7 /\
        sjf_processes st' !! 1%nat = Some p' /\
        id p' = "U2" /\ remaining_time p' = 0 /\ completion_time p' = 7.
Proof.
  intros sorted. split; [exact arrivals_in_range_tied_bursts|].
  destruct (Int32.sjf_non_preemptive_body (sjf_init sorted)) as [st| |] eqn:Hb;
    [|vm_compute in Hb; discriminate..].
  pose proof (Int32.sjf_np_reach32_step sorted _ st
                (Int32.sjf_np_reach32_init _) eq_refl Hb) as Hreach.
  destruct (sjf_picks_shortest_arrived insertion_sort insertion_sort_Sorted
              insertion_sort_ext tied_bursts st Hreach) as (Hsome & _).
  pose proof Hb as Hnf. vm_compute in Hnf. injection Hnf as Hnf. subst st.
  exists {| sjf_processes :=
              [set_remaining_time 0
                 (set_completion_time 4
                    (set_started true
                       (set_response_time 0 (new_process "U1" 0 4 0))));
               new_process "U2" 1 3 0; new_process "U3" 2 5 0;
               new_process "U4" 3 3 0];
            sjf_is_completed := [true; false; false; false];
            sjf_current_time := 4; sjf_completed := 1 |}.
  split; [reflexivity|]. split; [reflexivity|]. cbv zeta.
  split; [reflexivity|].
  destruct (Hsome 1%nat eq_refl)
    as (p & Hp & Hmin & st' & p' & Hb' & _ & Hct & Hp' & Hs' & Hrem' & Hcp').
  exists p. split; [exact Hp|].
  assert (p = new_process "U2" 1 3 0) as ->.
  { destruct Hp as (Hp & _). vm_compute in Hp. injection Hp as <-.
    reflexivity. }
  split; [reflexivity|]. split.
  { intros j pj Hpj. destruct (Hmin j pj Hpj) as [Hle Htie].
    split; [exact Hle|]. intros Heq. destruct (Htie Heq) as [Hidx Harr].
    split; [exact Hidx|]. exact (Harr arrivals_in_range_tied_bursts). }
  split.
  { exists (new_process "U3" 2 5 0). repeat split; simpl; lia. }
  split.
  { exists (new_process "U4" 3 3 0). repeat split; simpl; lia. }
  exists st', p'. split; [exact Hb'|].
  assert (sjf_current_time st' = 7) as Hct7 by (rewrite Hct; reflexivity).
  split; [exact Hct7|]. split; [exact Hp'|].
  split; [by injection Hs' as ->|]. split; [exact Hrem'|].
  by rewrite Hcp'.
Defined.

Lemma well_formed_tied_remaining : Forall well_formed tied_remaining.
Proof. repeat constructor; simpl; lia. Qed.

Lemma arrivals_in_range_tied_remaining :
  Forall (fun p => arrival_time p <= INT_MAX) tied_remaining.
Proof. repeat constructor; simpl; unfold INT_MAX; lia. Qed.

Lemma srtf_picks_least_remaining_witness :
  let sorted := insertion_sort Int32.compare_arrival_time tied_remaining in
  Forall well_formed tied_remaining /\
  Forall (fun p => arrival_time p <= INT_MAX) tied_remaining /\
  exists st,
    Int32.sjf_preemptive_body (sjf_init sorted) = Next st /\
    sjf_current_time st = 1 /\
    let ready := eligible (sjf_processes st) (sjf_is_completed st)
                   (sjf_current_time st) in
    find_shortest remaining_time (sjf_processes st) (sjf_is_completed st)
      (sjf_current_time st) 0 None INT_MAX = Some 0%nat /\
    exists p,
      ready 0%nat p /\ id p = "V1" /\ remaining_time p = 2 /\
      (forall j pj, ready j pj ->
         remaining_time p <= remaining_time pj /\
         (remaining_time pj = remaining_time p ->
          (0 <= j)%nat /\ arrival_time p <= arrival_time pj)) /\
      (exists q, ready 1%nat q /\ remaining_time p < remaining_time q) /\
      (exists q, ready 2%nat q /\ remaining_time q = remaining_time p) /\
      exists st' p',
        Int32.sjf_preemptive_body st = Next st' /\
        sjf_current_time st' = 2 /\
        sjf_processes st' !! 0%nat = Some p' /\
        id p' = "V1" /\ remaining_time p' = 1.
Proof.
  intros sorted. split; [exact well_formed_tied_remaining|].
  split; [exact arrivals_in_range_tied_remaining|].
  destruct (Int32.sjf_preemptive_body (sjf_init sorted)) as [st| |] eqn:Hb;
    [|vm_compute in Hb; discriminate..].
  pose proof (Int32.sjf_p_reach32_step sorted _ st
                (Int32.sjf_p_reach32_init _) eq_refl Hb) as Hreach.
  pose proof (srtf_picks_least_remaining insertion_sort
                insertion_sort_Permutation insertion_sort_Sorted
                insertion_sort_ext tied_remaining st 0%nat
                well_formed_tied_remaining arrivals_in_range_tied_remaining
                Hreach) as Hpick.
  pose proof Hb as Hnf. vm_compute in Hnf. injection Hnf as Hnf. subst st.
  exists {| sjf_processes :=
              [set_remaining_time 2
                 (set_started true
                    (set_response_time 0 (new_process "V1" 0 3 0)));
               new_process "V3" 1 9 0; new_process "V2" 1 2 0];
            sjf_is_completed := [false; false; false];
            sjf_current_time := 1; sjf_completed := 0 |}.
  split; [reflexivity|]. split; [reflexivity|]. cbv zeta.
  split; [reflexivity|].
  destruct (Hpick eq_refl)
    as (p & Hp & _ & Hmin & st' & p' & Hb' & Hct & Hp' & Hs' & Hrem' & _).
  exists p. split; [exact Hp|].
  assert (p = set_remaining_time 2
                (set_started true
                   (set_response_time 0 (new_process "V1" 0 3 0)))) as ->.
  { destruct Hp as (Hp & _). vm_compute in Hp. injection Hp as <-.
    reflexivity. }
  split; [reflexivity|]. split; [reflexivity|]. split; [exact Hmin|]. split.
  { exists (new_process "V3" 1 9 0). repeat split; simpl; lia. }
  split.
  { exists (new_process "V2" 1 2 0). repeat split; simpl; lia. }
  exists st', p'. split; [exact Hb'|].
  split; [rewrite Hct; reflexivity|]. split; [exact Hp'|].
  split; [by injection Hs' as ->|]. rewrite Hrem'. reflexivity.
Defined.

